(** * twobody / intercept.c : intercept prediction for two Keplerian orbits

    A shallow embedding of [src/twobody/intercept.c].

    Numeric model.  A C [double] is modelled by a rational number: every
    finite double is a rational, [M_PI] and [DBL_EPSILON] are the exact
    values of the C constants and comparisons are exact; there are no
    infinities and no NaN, and a division by zero (0.0 in [Q]) is outside
    the model.  Two rationals that denote the same number ([Qeq], written
    [==]) model the same double, so statements about equal results are
    stated up to [==].  Where the result of one subtraction or addition
    decides a branch against a constant or against another double (the
    length test of line 54, the apoapsis-periapsis test of lines 87-88 and
    the radii of lines 94 and 96) or is truncated to an int (the period
    number of line 203) the operation is rounded to the nearest double,
    [round_double]; elsewhere arithmetic is the exact rational arithmetic.

    A C [int] is modelled by an integer of [Z] in the range
    [INT_MIN]..[INT_MAX]: the period counter of [intercept_times] wraps
    round as the 32-bit machine integer does, and the conversion of a
    double outside that range gives [INT_MIN], as it does on x86-64 (both
    are undefined behaviour in C).  An array of four doubles is the record
    [fs4], and a function that writes through a pointer returns what it
    wrote next to its result.  The one unbounded loop, the while loop of
    [intercept_times], takes fuel; the for loop of [intercept_search] is
    bounded by [max_steps].

    Collaborators.  intercept.c includes six headers of the library
    (conic.h, anomaly.h, true_anomaly.h, orbit.h, intercept.h,
    math_utils.h) and math.h.  None of them is part of the verified file, so
    what they provide is gathered in the interface [Collaborators] and every
    function below is parametric in it. *)

From Stdlib Require Import QArith Qabs Qround ZArith List Bool Lia Lqa Morphisms.
Import ListNotations.

Open Scope Q_scope.

(** ** Doubles *)

Abbreviation double := Q (only parsing).

(** [M_PI] of math.h: the double nearest to pi, 0x400921FB54442D18. *)
Definition M_PI : double := 884279719003555 # 281474976710656.

(** [DBL_EPSILON] of float.h: 2^-52. *)
Definition DBL_EPSILON : double := 1 # 4503599627370496.

Definition Qltb (a b : Q) : bool := negb (Qle_bool b a).

Declare Scope dbl_scope.
Delimit Scope dbl_scope with dbl.
Notation "a <? b" := (Qltb a b) (at level 70, no associativity) : dbl_scope.
Notation "a <=? b" := (Qle_bool a b) (at level 70, no associativity) : dbl_scope.
Notation "a >? b" := (Qltb b a) (at level 70, no associativity) : dbl_scope.
Notation "a >=? b" := (Qle_bool b a) (at level 70, no associativity) : dbl_scope.
Open Scope dbl_scope.

(** [fmin], [fmax], [fabs] of math.h. *)
Definition fmin (x y : double) : double := if x <=? y then x else y.
Definition fmax (x y : double) : double := if x >=? y then x else y.
Definition fabs (x : double) : double := Qabs x.

(** ** Rounding to double

    [round_double x] is the binary64 number nearest to [x], ties to the
    even significand: 53 bits of significand, gradual underflow below
    2^-1022.  (A result beyond the largest double, where the machine gives
    an infinity, is not modelled.) *)

(** 2^e as a rational. *)
Definition pow2 (e : Z) : Q :=
  match e with
  | Z0 => 1
  | Zpos p => inject_Z (2 ^ Zpos p)
  | Zneg p => 1 # (2 ^ p)
  end.

(** The integer nearest to q, ties to the even one. *)
Definition round_half_even (q : Q) : Z :=
  let f := Qfloor q in
  match Qcompare (q - inject_Z f) (1 # 2) with
  | Lt => f
  | Gt => (f + 1)%Z
  | Eq => if Z.even f then f else (f + 1)%Z
  end.

(** floor (log2 (n / d)) for positive n and d. *)
Definition ilog2 (n d : Z) : Z :=
  let e0 := (Z.log2 n - Z.log2 d)%Z in
  if pow2 e0 <=? n # Z.to_pos d then e0 else (e0 - 1)%Z.

Definition round_double (x : Q) : double :=
  let q := Qred x in
  match Qnum q with
  | Z0 => 0
  | _ =>
      let a := Qabs q in
      let e := ilog2 (Qnum a) (Z.pos (Qden a)) in
      let u := Z.max (e - 52) (-1074) in
      let m := round_half_even (a / pow2 u) in
      let r := inject_Z m * pow2 u in
      if 0 <=? q then r else - r
  end.

(** [x + y] and [x - y] on doubles, as the machine computes them. *)
Definition fadd (x y : double) : double := round_double (x + y).
Definition fsub (x y : double) : double := round_double (x - y).

(** ** Machine integers *)

Definition INT_MAX : Z := 2147483647.
Definition INT_MIN : Z := -2147483648.

(** The 32-bit two's complement integer congruent to z: the result of int
    arithmetic that overflows (undefined in C; this is what the machine
    leaves in the register). *)
Definition wrap_int (z : Z) : Z := ((z - INT_MIN) mod 2 ^ 32 + INT_MIN)%Z.

(** Conversion double -> int, as in [(int)trunc(x)] and in returning a
    double from a function of type int: the fractional part is dropped.
    For a value outside the range of int the conversion is undefined in C;
    the conversion instruction of x86-64 gives [INT_MIN]. *)
Definition to_int (x : double) : Z :=
  let z := Z.quot (Qnum x) (Z.pos (Qden x)) in   (* trunc(x) *)
  if ((INT_MIN <=? z) && (z <=? INT_MAX))%Z then z else INT_MIN.

(** Conversion int -> double. *)
Definition of_int (z : Z) : double := inject_Z z.

(** The value of a C truth value, as in [(a < b) + (c < d)]. *)
Definition b2z (b : bool) : Z := if b then 1%Z else 0%Z.

(** [vec4d]: a GCC vector of four doubles; [-] on it is componentwise. *)
Record vec4d : Type := Vec4d { vx : double; vy : double; vz : double; vw : double }.

Definition vsub (a b : vec4d) : vec4d :=
  Vec4d (vx a - vx b) (vy a - vy b) (vz a - vz b) (vw a - vw b).

(** ** The collaborators of intercept.c *)

Class Collaborators : Type := {
  (* orbit.h *)
  orbit : Type;
  orbit_radial : orbit -> bool;
  orbit_elliptic : orbit -> bool;
  orbit_semi_latus_rectum : orbit -> double;
  orbit_eccentricity : orbit -> double;
  orbit_gravity_parameter : orbit -> double;
  orbit_periapsis_time : orbit -> double;
  normal_axis : orbit -> vec4d;
  major_axis : orbit -> vec4d;
  minor_axis : orbit -> vec4d;
  orbit_position_eccentric : orbit -> double -> vec4d;
  orbit_velocity_eccentric : orbit -> double -> vec4d;
  (* conic.h *)
  conic_apoapsis : double -> double -> double;
  conic_periapsis : double -> double -> double;
  conic_closed : double -> bool;
  conic_circular : double -> bool;
  conic_max_true_anomaly : double -> double;
  conic_mean_motion : double -> double -> double -> double;
  conic_periapsis_velocity : double -> double -> double -> double;
  (* anomaly.h, true_anomaly.h *)
  true_anomaly_from_radius : double -> double -> double -> double;
  anomaly_mean_to_true : double -> double -> double;
  anomaly_true_to_mean : double -> double -> double;
  anomaly_mean_to_eccentric : double -> double -> double;
  (* math_utils.h *)
  zero : double -> bool;
  sign : double -> double;
  clamp : double -> double -> double -> double;
  square : double -> double;
  dot : vec4d -> vec4d -> double;
  cross : vec4d -> vec4d -> vec4d;
  mag : vec4d -> double;
  (* math.h *)
  sqrt : double -> double;
  sin : double -> double;
  cos : double -> double;
  asin : double -> double;
  acos : double -> double
}.

(** ** Angle ranges: [double fs[4]], two (begin, end) pairs *)

Record fs4 : Type := Fs4 { f_0 : double; f_1 : double; f_2 : double; f_3 : double }.

(** [fs[k]] for k = 0..3. *)
Definition at4 (fs : fs4) (k : nat) : double :=
  match k with
  | O => f_0 fs
  | 1%nat => f_1 fs
  | 2%nat => f_2 fs
  | _ => f_3 fs
  end.

(** Two buffers hold the same doubles. *)
Definition fs4_eq (a b : fs4) : Prop :=
  f_0 a == f_0 b /\ f_1 a == f_1 b /\ f_2 a == f_2 b /\ f_3 a == f_3 b.

Section Ranges.

Context {C : Collaborators}.

(** Lines 16-22: pairwise overlap.  A source whose second pair is empty
    contributes its first pair to both output pairs. *)
Definition pick (src : fs4) (i j : nat) : double :=
  at4 src ((if at4 src 2 <? at4 src 3 then 2 * i else 0) + j).

Definition overlap_cell (fs1 fs2 : fs4) (i j : nat) : double :=
  let f0 := pick fs1 i j in
  let f1 := pick fs2 i j in
  match j with
  | O => fmax f0 f1
  | _ => fmin f0 f1
  end.

Definition overlap (fs1 fs2 : fs4) : fs4 :=
  Fs4 (overlap_cell fs1 fs2 0 0) (overlap_cell fs1 fs2 0 1)
      (overlap_cell fs1 fs2 1 0) (overlap_cell fs1 fs2 1 1).

(** Lines 24-31: ranges overlap at apoapsis -> union ranges -2pi. *)
Definition union_apoapsis (closed : bool) (fs : fs4) : fs4 :=
  if closed &&
     ((f_0 fs <=? - M_PI) || zero (f_0 fs + M_PI)) &&
     ((f_3 fs >=? M_PI) || zero (f_3 fs - M_PI))
  then Fs4 (fmin (f_0 fs) (f_2 fs - 2 * M_PI))
           (fmax (f_1 fs) (f_3 fs - 2 * M_PI)) 1 (-1)
  else fs.

(** Lines 33-38: ranges overlap at periapsis -> union ranges. *)
Definition union_periapsis (fs : fs4) : fs4 :=
  if ((f_1 fs >=? f_2 fs) || zero (f_1 fs - f_2 fs)) && (f_2 fs <? f_3 fs)
  then Fs4 (f_0 fs) (f_3 fs) 1 (-1)
  else fs.

(** Lines 40-46: second range overlaps apoapsis -> swap ranges -2pi. *)
Definition rotate_apoapsis (fs : fs4) : fs4 :=
  if (f_2 fs <? f_3 fs) && (f_3 fs >? M_PI)
  then Fs4 (f_2 fs - 2 * M_PI) (f_3 fs - 2 * M_PI) (f_0 fs) (f_1 fs)
  else fs.

(** Lines 48-52: first range is empty, second is not -> swap ranges. *)
Definition compact_ranges (fs : fs4) : fs4 :=
  if (f_2 fs <? f_3 fs) && negb (f_0 fs <? f_1 fs)
  then Fs4 (f_2 fs) (f_3 fs) 1 (-1)
  else fs.

(** Lines 54-58: first range covers full orbit -> -pi..pi.  The length
    is the rounded difference of the two doubles. *)
Definition full_orbit (fs : fs4) : fs4 :=
  if fsub (f_1 fs) (f_0 fs) >=? 2 * M_PI
  then Fs4 (- M_PI) M_PI (f_2 fs) (f_3 fs)
  else fs.

(** Line 60: the number of non-empty ranges. *)
Definition count_ranges (fs : fs4) : Z :=
  Z.add (b2z (f_0 fs <? f_1 fs)) (b2z (f_2 fs <? f_3 fs)).

(** The rules applied to the buffer after the pairwise overlap. *)
Definition normalize_ranges (closed : bool) (fs : fs4) : fs4 :=
  full_orbit (compact_ranges (rotate_apoapsis (union_periapsis (union_apoapsis closed fs)))).

(** [intersect_ranges(fs1, fs2, closed, fs)]: the returned count and the
    four doubles written to [fs] (all four are always written). *)
Definition intersect_ranges (fs1 fs2 : fs4) (closed : bool) : Z * fs4 :=
  let fs := normalize_ranges closed (overlap fs1 fs2) in
  (count_ranges fs, fs).

End Ranges.

(** ** intercept_intersect (lines 63-150) *)

Section Intersect.

Context {C : Collaborators}.

(** Lines 100-115: the band of true anomaly of orbit1 between the
    periapsis and the apoapsis of orbit2, widened by the threshold. *)
Definition radius_ranges (closed1 : bool) (f1 f2 : double) : fs4 :=
  if closed1 && zero f1 && negb (f2 <? M_PI) then
    (* intersects anywhere on orbit *)
    Fs4 (- (2 * M_PI)) (2 * M_PI) 1 (-1)
  else if zero f1 then
    (* intersect near periapsis *)
    Fs4 (- f2) f2 1 (-1)
  else if closed1 && negb (f2 <? M_PI) then
    (* intersect near apoapsis *)
    Fs4 (- (2 * M_PI)) (- f1) f1 (2 * M_PI)
  else
    (* two intersects *)
    Fs4 (- f2) (- f1) f1 f2.

(** Lines 133-146: the band around one node (i = 0: the smaller node
    anomaly, i = 1: the larger) where orbit1 is closer than the threshold
    to the plane of orbit2. *)
Definition node_range (p1 e1 threshold reli f_an f_dn : double) (i : nat)
  : double * double :=
  let f_node := match i with O => fmin f_an f_dn | _ => fmax f_an f_dn end in
  let r := p1 / (1 + e1 * cos f_node) in
  let delta_f := asin (clamp (-1) 1 (sin (threshold / (2 * r)) / sin (fabs reli / 2))) in
  (f_node - delta_f, f_node + delta_f).

(** Lines 118-147. *)
Definition plane_ranges (orbit1 orbit2 : orbit) (p1 e1 threshold : double) : fs4 :=
  let nodes := cross (normal_axis orbit1) (normal_axis orbit2) in
  let N2 := dot nodes nodes in
  let N := sqrt N2 in
  let coplanar := N2 <? DBL_EPSILON in
  if coplanar then Fs4 (- M_PI) M_PI 1 (-1)
  else
    let reli := sign (dot (normal_axis orbit1) (normal_axis orbit2)) *
                asin (clamp (-1) 1 N) in
    let f_an := sign (dot (minor_axis orbit1) nodes) *
                acos (clamp (-1) 1 (dot (major_axis orbit1) nodes / N)) in
    let f_dn := f_an - sign f_an * M_PI in
    let r0 := node_range p1 e1 threshold reli f_an f_dn 0 in
    let r1 := node_range p1 e1 threshold reli f_an f_dn 1 in
    Fs4 (fst r0) (snd r0) (fst r1) (snd r1).

(** [intercept_intersect(orbit1, orbit2, threshold, fs)].  The result is the
    returned count and the contents of [fs] on return; [fs] is the contents
    on entry, which the two early returns leave untouched. *)
Definition intercept_intersect (orbit1 orbit2 : orbit) (threshold : double) (fs : fs4)
  : Z * fs4 :=
  (* radial orbits not handled *)
  if orbit_radial orbit1 || orbit_radial orbit2 then (0%Z, fs)
  else
    let p1 := orbit_semi_latus_rectum orbit1 in
    let p2 := orbit_semi_latus_rectum orbit2 in
    let e1 := orbit_eccentricity orbit1 in
    let e2 := orbit_eccentricity orbit2 in
    (* apoapsis-periapsis test *)
    let ap1 := conic_apoapsis p1 e1 in
    let pe1 := conic_periapsis p1 e1 in
    let ap2 := conic_apoapsis p2 e2 in
    let pe2 := conic_periapsis p2 e2 in
    if (conic_closed e1 && (ap1 <=? fsub pe2 threshold)) ||
       (conic_closed e2 && (ap2 <=? fsub pe1 threshold))
    then (0%Z, fs)
    else
      let maxf := conic_max_true_anomaly e1 in
      let fpe := if conic_circular e1 then 0
                 else true_anomaly_from_radius p1 e1 (fsub pe2 threshold) in
      let fap := if conic_circular e1 || negb (conic_closed e2) then maxf
                 else true_anomaly_from_radius p1 e1 (fadd ap2 threshold) in
      let f1 := fmin fap fpe in
      let f2 := fmax fap fpe in
      let fs1 := radius_ranges (conic_closed e1) f1 f2 in
      let fs2 := plane_ranges orbit1 orbit2 p1 e1 threshold in
      intersect_ranges fs1 fs2 (conic_closed e1).

End Intersect.

(** ** intercept_times (lines 152-257) *)

(** A two-element array indexed by the orbit number 0 or 1. *)
Definition sel2 {A : Type} (p : A * A) (o : nat) : A :=
  match o with O => fst p | _ => snd p end.

Definition set2 {A : Type} (p : A * A) (o : nat) (a : A) : A * A :=
  match o with O => (a, snd p) | _ => (fst p, a) end.

(** The loop-carried variables of the merge walk (lines 207-254).
    [itimes] is the written part of the output array [intercept_times],
    most recently written interval first; [num_times] is its length. *)
Record walk : Type := Walk {
  isect : nat * nat;
  n_orbit : Z * Z;
  wt : double;
  itimes : list (double * double)
}.

Definition num_times (w : walk) : Z := Z.of_nat (length (itimes w)).

Section Times.

Context {C : Collaborators}.

(** Lines 190-197: time of one end of a true-anomaly range. *)
Definition range_time (e n t_pe f_t0 f_t1 f_raw : double) : double :=
  let f := clamp f_t0 f_t1 f_raw in
  let M := anomaly_true_to_mean e f - (if f <? - M_PI then 2 * M_PI else 0) in
  t_pe + M / n.

(** Lines 184-198, one value of i: the pair of times of range i, or the
    initial (1, -1) when the range is empty. *)
Definition range_times (e n t_pe f_t0 f_t1 : double) (fs : fs4) (i : nat)
  : double * double :=
  let f0 := at4 fs (2 * i + 0) in
  let f1 := at4 fs (2 * i + 1) in
  if f0 >=? f1 then (1, -1)
  else (range_time e n t_pe f_t0 f_t1 (at4 fs (2 * i + 0)),
        range_time e n t_pe f_t0 f_t1 (at4 fs (2 * i + 1))).

(** Lines 171-204, one value of o: [times[o]], [periods[o]], [n_orbit[o]].
    The sum of line 203 is the rounded one, and its conversion to int
    leaves [INT_MIN] for a number outside the range of int. *)
Definition orbit_times (mu t0 t1 : double) (o : orbit) (fs : fs4)
  : fs4 * double * Z :=
  let p := orbit_semi_latus_rectum o in
  let e := orbit_eccentricity o in
  let t_pe := orbit_periapsis_time o in
  let n := conic_mean_motion mu p e in
  let f_t0 := if negb (conic_closed e)
              then anomaly_mean_to_true e ((t0 - t_pe) * n) else - M_PI in
  let f_t1 := if negb (conic_closed e)
              then anomaly_mean_to_true e ((t1 - t_pe) * n) else M_PI in
  let r0 := range_times e n t_pe f_t0 f_t1 fs 0 in
  let r1 := range_times e n t_pe f_t0 f_t1 fs 1 in
  let times := Fs4 (fst r0) (snd r0) (fst r1) (snd r1) in
  if conic_closed e then
    let P := 2 * M_PI / n in
    (times, P,
     to_int (fadd ((t0 - t_pe) / P) (if t_pe >? t0 then - (1 # 2) else 1 # 2)))
  else (times, 0, 0%Z).

(** Lines 214-218: the time interval of orbit o on its current period. *)
Definition trange (times : fs4 * fs4) (periods : double * double) (w : walk) (o : nat)
  : double * double :=
  let period := of_int (sel2 (n_orbit w) o) * sel2 periods o in
  (at4 (sel2 times o) (2 * sel2 (isect w) o + 0) + period,
   at4 (sel2 times o) (2 * sel2 (isect w) o + 1) + period).

(** Lines 226-238: record a non-empty interval. *)
Definition record_interval (t_begin t_end : double) (out : list (double * double))
  : list (double * double) :=
  match out with
  | (b, e) :: rest =>
      if (t_begin <=? e) || zero (t_begin - e)
      then (b, t_end) :: rest          (* merge to previous time interval *)
      else (t_begin, t_end) :: out     (* add new time interval *)
  | [] => [(t_begin, t_end)]
  end.

(** Lines 211-253: one iteration of the while loop.  The boolean is true
    when the iteration leaves the loop through [break].  The reads of
    [fnext0], [fnext1] at [isect[advance] == 2] are past the two ranges of
    the orbit; their values are not used.  The increment of the period
    counter (line 252) is that of the 32-bit int: past [INT_MAX] it gives
    [INT_MIN]. *)
Definition walk_step (orbits : orbit * orbit) (fs : fs4 * fs4)
    (times : fs4 * fs4) (periods : double * double) (t0 t1 : double) (w : walk)
  : walk * bool :=
  let tr0 := trange times periods w 0 in
  let tr1 := trange times periods w 1 in
  (* overlapping time interval *)
  let t_begin := fmax (wt w) (fmax (fst tr0) (fst tr1)) in
  let t_end := fmin t1 (fmin (snd tr0) (snd tr1)) in
  let t := fmax t0 t_end in
  let out := if t_begin <? t_end then record_interval t_begin t_end (itimes w)
             else itimes w in
  (* advance to next intersect range *)
  let advance := if snd tr0 <? snd tr1 then 0%nat else 1%nat in
  let is' := S (sel2 (isect w) advance) in
  let fnext0 := at4 (sel2 fs advance) (2 * is' + 0) in
  let fnext1 := at4 (sel2 fs advance) (2 * is' + 1) in
  if (is' =? 2)%nat || (fnext0 >=? fnext1) then
    if negb (orbit_elliptic (sel2 orbits advance)) then
      (Walk (set2 (isect w) advance is') (n_orbit w) t out, true)
    else
      (Walk (set2 (isect w) advance 0%nat)
            (set2 (n_orbit w) advance (wrap_int (sel2 (n_orbit w) advance + 1)))
            t out, false)
  else (Walk (set2 (isect w) advance is') (n_orbit w) t out, false).

(** Lines 210-254: the while loop.  [None]: the loop is still running
    after [fuel] iterations. *)
Fixpoint walk_loop (fuel : nat) (orbits : orbit * orbit) (fs : fs4 * fs4)
    (times : fs4 * fs4) (periods : double * double) (t0 t1 : double)
    (max_times : Z) (w : walk) : option walk :=
  if (wt w <? t1) && (num_times w <? max_times)%Z then
    match fuel with
    | O => None
    | S fuel' =>
        let (w', brk) := walk_step orbits fs times periods t0 t1 w in
        if brk then Some w'
        else walk_loop fuel' orbits fs times periods t0 t1 max_times w'
    end
  else Some w.

(** The state of the walk on entry to the loop (lines 163-209). *)
Definition walk_init (orbit1 orbit2 : orbit) (t0 t1 : double) (fs : fs4 * fs4)
  : (fs4 * fs4) * (double * double) * walk :=
  let mu := orbit_gravity_parameter orbit1 in
  let '(times0, P0, n0) := orbit_times mu t0 t1 orbit1 (fst fs) in
  let '(times1, P1, n1) := orbit_times mu t0 t1 orbit2 (snd fs) in
  ((times0, times1), (P0, P1), Walk (0%nat, 0%nat) (n0, n1) t0 []).

(** [intercept_times(orbit1, orbit2, t0, t1, fs, intercept_times, max_times)]:
    the returned [num_times] and the intervals written to the output array,
    in array order. *)
Definition intercept_times (fuel : nat) (orbit1 orbit2 : orbit) (t0 t1 : double)
    (fs : fs4 * fs4) (max_times : Z) : option (Z * list (double * double)) :=
  let '(times, periods, w0) := walk_init orbit1 orbit2 t0 t1 fs in
  match walk_loop fuel (orbit1, orbit2) fs times periods t0 t1 max_times w0 with
  | Some w => Some (num_times w, rev (itimes w))
  | None => None
  end.

End Times.

(** ** intercept_search (lines 310-470)

    Four divisions of this function can be by zero: by [max_steps / 2]
    at line 360 (for max_steps in -1..1), by the distance at line 385, by
    the square of the threshold at line 394 and by [vmax] at line 425.
    The machine then gives an infinity or NAN, which the model does not
    have; the statements that depend on such a value exclude these
    inputs. *)

(** What one pass of the loop body computes at the current time
    (lines 367-385). *)
Record sample : Type := Sample {
  s_pos : vec4d * vec4d;
  s_vel : vec4d * vec4d;
  s_dr : vec4d;
  s_dv : vec4d;
  s_dist : double;
  s_vrel : double;
  s_E : double * double
}.

(** [struct intercept], as [intercept_search] fills it (lines 455-465).
    [distance] and [speed] are [None] for NAN, their initial value, which
    they keep when the loop body never runs; the vectors then hold whatever
    the uninitialised locals held, modelled by [indeterminate].  The fields
    [xxx1], [xxx2] are always NAN and are left out. *)
Record intercept : Type := Intercept {
  position : vec4d * vec4d;
  velocity : vec4d * vec4d;
  relative_position : vec4d;
  relative_velocity : vec4d;
  imu : double;
  time : double;
  distance : option double;
  speed : option double;
  E1 : double;
  E2 : double
}.

Definition indeterminate : vec4d := Vec4d 0 0 0 0.

(** The loop-carried variables of the search (lines 352-365). [prev_time]
    is [None] for its initial NAN.  [evals] counts the passes through the
    loop body, each of which evaluates both orbits once. *)
Record search : Type := Search {
  st : double;
  prev_time : option double;
  st_end : double;
  prev_sgn : Z;
  min_dt : double;
  last : option sample;
  E : double * double;
  evals : nat
}.

(** [isfinite] of math.h: every modelled double is finite. *)
Definition isfinite (x : double) : bool := true.

Section Search.

Context {C : Collaborators}.

(** The constants of one call (lines 322-344).  [amax] (lines 345-347) is
    computed and never read; it is left out. *)
Record search_env : Type := SearchEnv {
  orbits : orbit * orbit;
  ee : double * double;
  nn : double * double;
  t_pe : double * double;
  vmax : double;
  se_t0 : double;
  se_t1 : double;
  se_threshold : double;
  se_target_distance : double;
  se_max_steps : Z
}.

Definition search_env_of (orbit1 orbit2 : orbit) (t0 t1 threshold target_distance : double)
    (max_steps : Z) : search_env :=
  let mu := orbit_gravity_parameter orbit1 in
  let p0 := orbit_semi_latus_rectum orbit1 in
  let p1 := orbit_semi_latus_rectum orbit2 in
  let e0 := orbit_eccentricity orbit1 in
  let e1 := orbit_eccentricity orbit2 in
  SearchEnv (orbit1, orbit2) (e0, e1)
    (conic_mean_motion mu p0 e0, conic_mean_motion mu p1 e1)
    (orbit_periapsis_time orbit1, orbit_periapsis_time orbit2)
    (conic_periapsis_velocity mu p0 e0 + conic_periapsis_velocity mu p1 e1)
    t0 t1 threshold target_distance max_steps.

(** Lines 367-385: positions, velocities, distance and closing rate at t.
    Line 385 divides by the distance: [s_vrel] is the closing rate where
    the distance is not zero, and stands for no value of the code where it
    is. *)
Definition evaluate (env : search_env) (t : double) : sample :=
  let Eo o := anomaly_mean_to_eccentric (sel2 (ee env) o)
                ((t - sel2 (t_pe env) o) * sel2 (nn env) o) in
  let pos := (orbit_position_eccentric (sel2 (orbits env) 0) (Eo 0%nat),
              orbit_position_eccentric (sel2 (orbits env) 1) (Eo 1%nat)) in
  let vel := (orbit_velocity_eccentric (sel2 (orbits env) 0) (Eo 0%nat),
              orbit_velocity_eccentric (sel2 (orbits env) 1) (Eo 1%nat)) in
  let dr := vsub (snd pos) (fst pos) in
  let dv := vsub (snd vel) (fst vel) in
  let dist := mag dr in
  let vrel := dot dr dv / dist in
  Sample pos vel dr dv dist vrel (Eo 0%nat, Eo 1%nat).

(** Lines 422-433: the step when skipping ahead in time. *)
Definition skip_ahead (env : search_env) (dist dt : double) : double :=
  let deltas :=
    [ -1 ;
      (* distance at maximum velocity *)
      fabs ((dist - se_target_distance env) - se_threshold env) / vmax env ] in
  fold_left (fun dt d => if isfinite d then fmax dt d else dt) deltas dt.

(** Lines 442-444: the end of the loop body, reached when no [break] was
    taken. *)
Definition advance_time (s : search) (smp : sample) (t t_end : double) (sgn : Z)
    (min_dt dt : double) : search :=
  Search (t + dt) (Some t) (fmax t_end t) sgn min_dt (Some smp) (s_E smp)
         (S (evals s)).

(** The state on leaving the loop through [break]: nothing but the sample
    changes; in particular a [dt] computed before the [break] is dropped. *)
Definition leave (s : search) (smp : sample) : search :=
  Search (st s) (prev_time s) (st_end s) (prev_sgn s) (min_dt s) (Some smp) (s_E smp)
         (S (evals s)).

(** Lines 367-444: one pass of the loop body at [step].  The boolean is
    true when the pass leaves the loop through [break]. *)
Definition search_step (env : search_env) (step : Z) (s : search) : search * bool :=
  let t := st s in
  let smp := evaluate env t in
  let dist := s_dist smp in
  let vrel := s_vrel smp in
  let sgn := to_int (sign vrel * sign (dist - se_target_distance env)) in
  let dt := min_dt s in
  if zero (square (dist - fmax 0 (se_target_distance env)) / square (se_threshold env))
  then
    (* minimization finished *)
    (leave s smp, true)
  else if (sgn <? 0)%Z && (dist <? se_threshold env) && (st_end s >? se_t0 env) then
    (* below threshold, do minimization step *)
    let dt := (se_target_distance env - dist) / vrel in
    (leave s smp, true)
  else
    match prev_time s with
    | Some pt =>
        if (sgn >? 0)%Z && (prev_sgn s <? 0)%Z &&
           ((t - pt) * vmax env + se_threshold env >?
              fabs (dist - se_target_distance env)) &&
           (t - pt >? (se_t1 env - st_end s) / of_int (se_max_steps env - step))
        then
          (* closest approach found, move time backwards and adjust time step *)
          let t_end := fmax t (st_end s) in
          let min_dt := (t - pt) / 2 in
          let dt := min_dt in
          (advance_time s smp pt t_end (prev_sgn s) min_dt dt, false)
        else if t >? se_t1 env then
          (* search exhausted *)
          (leave s smp, true)
        else
          (* searching, skip ahead in time *)
          (advance_time s smp t (st_end s) sgn (min_dt s) (skip_ahead env dist dt), false)
    | None =>
        (* [prev_time] is NAN: the comparisons of the sign-change test are false *)
        if t >? se_t1 env then (leave s smp, true)
        else
          (advance_time s smp t (st_end s) sgn (min_dt s) (skip_ahead env dist dt), false)
    end.

(** Lines 366-451: the for loop, [todo] passes from [step] on. *)
Fixpoint search_loop (env : search_env) (todo : nat) (step : Z) (s : search) : search :=
  match todo with
  | O => s
  | S todo' =>
      let (s', brk) := search_step env step s in
      if brk then s' else search_loop env todo' (step + 1)%Z s'
  end.

(** The variables on entry to the loop (lines 354-365). *)
Definition search_init (env : search_env) : search :=
  let t0 := se_t0 env in
  Search t0 None (se_t1 env) 0%Z
    ((se_t1 env - t0) / of_int (Z.quot (se_max_steps env) 2))
    None
    ((t0 - fst (t_pe env)) * fst (nn env), (t0 - snd (t_pe env)) * snd (nn env))
    0%nat.

Definition search_run (orbit1 orbit2 : orbit) (t0 t1 threshold target_distance : double)
    (max_steps : Z) : search :=
  let env := search_env_of orbit1 orbit2 t0 t1 threshold target_distance max_steps in
  search_loop env (Z.to_nat max_steps) 0%Z (search_init env).

(** Lines 455-465: the record written through [intercept]. *)
Definition intercept_of (mu : double) (s : search) : intercept :=
  match last s with
  | Some smp =>
      Intercept (s_pos smp) (s_vel smp) (s_dr smp) (s_dv smp) mu (st s)
                (Some (s_dist smp)) (Some (s_vrel smp)) (fst (E s)) (snd (E s))
  | None =>
      Intercept (indeterminate, indeterminate) (indeterminate, indeterminate)
                indeterminate indeterminate mu (st s) None None (fst (E s)) (snd (E s))
  end.

(** [intercept_search(orbit1, orbit2, t0, t1, threshold, target_distance,
    max_steps, intercept)]: the returned [t_end] and the record written. *)
Definition intercept_search (orbit1 orbit2 : orbit)
    (t0 t1 threshold target_distance : double) (max_steps : Z) : double * intercept :=
  let s := search_run orbit1 orbit2 t0 t1 threshold target_distance max_steps in
  (st_end s, intercept_of (orbit_gravity_parameter orbit1) s).

(** The number of passes through the loop body of one call. *)
Definition search_evaluations (orbit1 orbit2 : orbit)
    (t0 t1 threshold target_distance : double) (max_steps : Z) : nat :=
  evals (search_run orbit1 orbit2 t0 t1 threshold target_distance max_steps).

End Search.

(** ** intercept_orbit (lines 472-512) *)

Section Orbit.

Context {C : Collaborators}.

(** The calls [intercept_orbit] makes, in order, with the arguments that
    matter to the caller. *)
Inductive call : Type :=
| Call_intersect (orbit1 orbit2 : orbit) (threshold : double)
| Call_times (orbit1 orbit2 : orbit) (t0 t1 : double) (fs : fs4 * fs4) (max_times : Z)
| Call_search (orbit1 orbit2 : orbit) (t0 t1 : double).

(** Lines 492-509: the loop over the time intervals.  The inner while loop
    ends with an unconditional [break], so its body runs at most once per
    interval.  [found] holds the accepted records [intercepts[0]] ..
    [intercepts[num_intercepts-1]], first one first. *)
Fixpoint search_intervals (orbit1 orbit2 : orbit) (threshold target_distance : double)
    (max_intercepts max_steps : Z) (times : list (double * double))
    (found : list intercept) (calls : list call) : list intercept * list call :=
  match times with
  | [] => (found, calls)
  | (t_begin, t_end) :: rest =>
      let t := t_begin in
      if (t <? t_end) && (Z.of_nat (length found) <? max_intercepts)%Z then
        let '(_, icpt) :=
          intercept_search orbit1 orbit2 t t_end threshold target_distance max_steps in
        let found' :=
          match distance icpt with
          | Some d => if d <=? threshold then found ++ [icpt] else found
          | None => found
          end in
        search_intervals orbit1 orbit2 threshold target_distance max_intercepts
          max_steps rest found' (calls ++ [Call_search orbit1 orbit2 t t_end])
      else
        search_intervals orbit1 orbit2 threshold target_distance max_intercepts
          max_steps rest found calls
  end.

(** [intercept_orbit(orbit1, orbit2, t0, t1, threshold, target_distance,
    intercepts, max_intercepts, max_steps)]: the returned int, the records
    written below it, and the calls made.  [fs] is what the uninitialised
    local [double fs[8]] holds on entry.

    Line 488 declares [double times[max_times]], room for [max_times]
    doubles, and line 489 lets [intercept_times] write up to [max_times]
    intervals of two doubles each (lines 234-236): when more than
    [max_times / 2] intervals are found the call writes past the end of
    the array and the behaviour is undefined.

    [None]: no defined result; [intercept_times] is still running after
    [fuel] iterations, or it has written past the end of [times]. *)
Definition intercept_orbit (fuel : nat) (orbit1 orbit2 : orbit)
    (t0 t1 threshold target_distance : double) (max_intercepts max_steps : Z)
    (fs : fs4 * fs4) : option (Z * list intercept * list call) :=
  let c := Call_intersect orbit1 orbit2 threshold in
  (* o = 0 *)
  let '(n0, fs_lo) := intercept_intersect orbit1 orbit2 threshold (fst fs) in
  if (n0 =? 0)%Z then Some (to_int t1, [], [c])
  else
    (* o = 1 *)
    let '(n1, fs_hi) := intercept_intersect orbit1 orbit2 threshold (snd fs) in
    if (n1 =? 0)%Z then Some (to_int t1, [], [c; c])
    else
      let fs := (fs_lo, fs_hi) in
      let max_times := (4 * max_intercepts)%Z in
      match intercept_times fuel orbit1 orbit2 t0 t1 fs max_times with
      | None => None
      | Some (ts, times) =>
          if (Z.max 0 max_times <? 2 * ts)%Z then None
          else
            let '(found, calls) :=
              search_intervals orbit1 orbit2 threshold target_distance max_intercepts
                max_steps times []
                [c; c; Call_times orbit1 orbit2 t0 t1 fs max_times] in
            Some (Z.of_nat (length found), found, calls)
      end.

End Orbit.

(** ** intercept_dump (lines 261-308) *)

Section Dump.

Context {C : Collaborators}.

(** Lines 289-303: the line written for one value of i, as the three
    doubles handed to [fprintf]: the time, the distance and the closing
    rate.  [max_steps] is the local constant 100. *)
Definition dump_line (orbit1 orbit2 : orbit) (t0 t1 : double) (max_steps : Z) (i : Z)
  : double * double * double :=
  let mu := orbit_gravity_parameter orbit1 in
  let p := (orbit_semi_latus_rectum orbit1, orbit_semi_latus_rectum orbit2) in
  let e := (orbit_eccentricity orbit1, orbit_eccentricity orbit2) in
  let n := (conic_mean_motion mu (fst p) (fst e), conic_mean_motion mu (snd p) (snd e)) in
  let t_pe := (orbit_periapsis_time orbit1, orbit_periapsis_time orbit2) in
  let t := t0 + (of_int i / of_int (max_steps - 1)) * (t1 - t0) in
  let Eo o := anomaly_mean_to_eccentric (sel2 e o) ((t - sel2 t_pe o) * sel2 n o) in
  let pos := (orbit_position_eccentric orbit1 (Eo 0%nat),
              orbit_position_eccentric orbit2 (Eo 1%nat)) in
  let vel := (orbit_velocity_eccentric orbit1 (Eo 0%nat),
              orbit_velocity_eccentric orbit2 (Eo 1%nat)) in
  let dist := mag (vsub (snd pos) (fst pos)) in
  let vrel := dot (vsub (snd vel) (fst vel)) (vsub (snd pos) (fst pos)) / dist in
  (t, dist, vrel).

(** [intercept_dump(orbit1, orbit2, t0, t1)]: the returned int and the
    lines written to the file intercept_distance.txt, first line first. *)
Definition intercept_dump (orbit1 orbit2 : orbit) (t0 t1 : double)
  : Z * list (double * double * double) :=
  let max_steps := 100%Z in
  (0%Z,
   map (fun i => dump_line orbit1 orbit2 t0 t1 max_steps (Z.of_nat i))
       (seq 0 (Z.to_nat max_steps))).

End Dump.

(** ** A test double for the collaborators

    An instance of [Collaborators] on which the model runs on concrete
    inputs: coplanar orbits in the plane z = 0, periapsis on the x axis.
    Where the collaborator is a rational function it is the usual formula
    (conic radii, [clamp], [sign], [square], [dot], [cross]); where it is not
    (square root, trigonometry, the anomaly conversions, mean motion) a
    rational stand-in takes its place.  The theorems below hold for every
    instance; this one only supplies inputs to run them on. *)

Module Planar.

Record orbit : Type := Orbit {
  radial : bool;
  p : double;             (* semi-latus rectum *)
  e : double;             (* eccentricity *)
  mu : double;            (* gravity parameter *)
  t_pe : double;          (* periapsis time *)
  prograde : bool
}.

Definition zero (x : double) : bool := x * x <? DBL_EPSILON.
Definition sign (x : double) : double := if x <? 0 then -1 else 1.
Definition clamp (lo hi x : double) : double :=
  if x <? lo then lo else if x >? hi then hi else x.
Definition square (x : double) : double := x * x.
Definition dot (a b : vec4d) : double :=
  vx a * vx b + vy a * vy b + vz a * vz b + vw a * vw b.
Definition cross (a b : vec4d) : vec4d :=
  Vec4d (vy a * vz b - vz a * vy b) (vz a * vx b - vx a * vz b)
        (vx a * vy b - vy a * vx b) 0.
(* stand-in: the 1-norm *)
Definition mag (a : vec4d) : double := Qabs (vx a) + Qabs (vy a) + Qabs (vz a).

Definition conic_apoapsis (p e : double) : double := p / (1 - e).
Definition conic_periapsis (p e : double) : double := p / (1 + e).
Definition conic_closed (e : double) : bool := e <? 1.
Definition conic_circular (e : double) : bool := zero e.
Definition conic_max_true_anomaly (e : double) : double := M_PI.
(* stand-ins *)
Definition conic_mean_motion (mu p e : double) : double := mu / p.
Definition conic_periapsis_velocity (mu p e : double) : double := mu * (1 + e) / p.
(* stand-in: linear in the radius between periapsis (0) and apoapsis (pi) *)
Definition true_anomaly_from_radius (p e r : double) : double :=
  clamp 0 M_PI
    (M_PI * (r - conic_periapsis p e) / (conic_apoapsis p e - conic_periapsis p e)).
(* on a circular orbit the three anomalies coincide *)
Definition anomaly_id (e x : double) : double := x.

(* stand-ins: first terms of the power series *)
Definition sqrt (x : double) : double := x.
Definition sin (x : double) : double := x.
Definition cos (x : double) : double := 1 - x * x / 2.
Definition asin (x : double) : double := x.
Definition acos (x : double) : double := M_PI / 2 - x.

Definition normal_axis (o : orbit) : vec4d :=
  Vec4d 0 0 (if prograde o then 1 else -1) 0.
Definition major_axis (o : orbit) : vec4d := Vec4d 1 0 0 0.
Definition minor_axis (o : orbit) : vec4d :=
  Vec4d 0 (if prograde o then 1 else -1) 0 0.
Definition position (o : orbit) (E : double) : vec4d :=
  Vec4d (p o * cos E) (p o * sin E) 0 0.
Definition velocity (o : orbit) (E : double) : vec4d :=
  Vec4d (- (mu o / p o) * sin E) ((mu o / p o) * cos E) 0 0.

Definition elliptic (o : orbit) : bool := conic_closed (e o).

Definition collaborators : Collaborators :=
  Build_Collaborators orbit radial elliptic p e mu t_pe
    normal_axis major_axis minor_axis position velocity
    conic_apoapsis conic_periapsis conic_closed conic_circular
    conic_max_true_anomaly conic_mean_motion conic_periapsis_velocity
    true_anomaly_from_radius anomaly_id anomaly_id anomaly_id
    zero sign clamp square dot cross mag
    sqrt sin cos asin acos.

(** A circular orbit of radius [r] around a body of gravity parameter 1. *)
Definition circular (r : double) : orbit := Orbit false r 0 1 0 true.

(** An orbit of semi-latus rectum [p] and eccentricity [e]. *)
Definition conic (p e : double) : orbit := Orbit false p e 1 0 true.

(** A radial orbit (zero angular momentum). *)
Definition radial_orbit : orbit := Orbit true 0 1 1 0 true.

End Planar.

(** * Specification vocabulary *)

(** ** Range pairs *)

(** The full range handed to [intersect_ranges]: -pi..pi, or -2pi..2pi for
    a closed orbit, with an empty second pair. *)
Definition full_range (closed : bool) : fs4 :=
  if closed then Fs4 (- (2 * M_PI)) (2 * M_PI) 1 (-1)
  else Fs4 (- M_PI) M_PI 1 (-1).

Section RangeForms.

Context {C : Collaborators}.

(** A bound reaches apoapsis from below (at -pi) or from above (at pi), as
    lines 25 and 26 test it. *)
Definition reaches_minus_pi (x : double) : Prop := x <= - M_PI \/ zero (x + M_PI) = true.
Definition reaches_pi (x : double) : Prop := M_PI <= x \/ zero (x - M_PI) = true.

(** A well-formed range pair as C7 words it: the first range is not empty,
    the second is empty or not, only the first may extend below -pi and
    only when closed, and nothing extends above pi. *)
Definition well_formed_ranges (closed : bool) (fs : fs4) : Prop :=
  f_0 fs < f_1 fs /\ f_1 fs <= M_PI /\
  (if closed then - (2 * M_PI) <= f_0 fs else - M_PI <= f_0 fs) /\
  (f_2 fs < f_3 fs -> - M_PI <= f_2 fs /\ f_3 fs <= M_PI).

(** The normal form of a range pair: what the rules of [intersect_ranges]
    leave alone.  One range, stored with the empty second pair (1, -1); or
    two ranges, the first ending strictly before the second begins and not
    within the [zero] tolerance of it.  In both cases the length of the
    first range as line 54 computes it (the difference of its two doubles,
    rounded) is below 2*M_PI, and on a closed orbit the pair does not
    reach apoapsis from both sides; the full orbit -pi..pi is the one
    exception to these two conditions. *)
Definition normal_ranges (closed : bool) (fs : fs4) : Prop :=
  f_0 fs < f_1 fs /\
  (if closed then - (2 * M_PI) <= f_0 fs else - M_PI <= f_0 fs) /\
  ((f_2 fs == 1 /\ f_3 fs == -1 /\ f_1 fs <= M_PI /\
    ((f_0 fs == - M_PI /\ f_1 fs == M_PI) \/
     (fsub (f_1 fs) (f_0 fs) < 2 * M_PI /\
      (closed = true -> ~ (reaches_minus_pi (f_0 fs) /\ reaches_pi (f_1 fs))))))
   \/
   (f_1 fs < f_2 fs /\ zero (f_1 fs - f_2 fs) = false /\
    f_2 fs < f_3 fs /\ f_3 fs <= M_PI /\
    fsub (f_1 fs) (f_0 fs) < 2 * M_PI /\
    (closed = true -> ~ (reaches_minus_pi (f_0 fs) /\ reaches_pi (f_3 fs))))).

End RangeForms.

(** ** Time intervals *)

(** An interval of the output of [intercept_times] lies in the window and
    is not empty. *)
Definition interval_in_window (t0 t1 : double) (iv : double * double) : Prop :=
  t0 <= fst iv /\ fst iv < snd iv /\ snd iv <= t1.

(** Every interval ends before every later one begins: the intervals are
    pairwise disjoint and in ascending order. *)
Definition pairwise_before (l : list (double * double)) : Prop :=
  forall (i j : nat) (a b : double * double),
    (i < j)%nat -> nth_error l i = Some a -> nth_error l j = Some b ->
    snd a < fst b.

(** The same on the written part of the array kept most recent first. *)
Fixpoint descending (t0 t1 : double) (l : list (double * double)) : Prop :=
  match l with
  | [] => True
  | iv :: rest =>
      interval_in_window t0 t1 iv /\
      match rest with
      | older :: _ => snd older < fst iv
      | [] => True
      end /\
      descending t0 t1 rest
  end.

(** ** The merge walk *)

(** The orbit that is not o. *)
Definition other (o : nat) : nat := match o with O => 1%nat | _ => 0%nat end.

Section WalkVocabulary.

Context {C : Collaborators}.

Variable fs : fs4 * fs4.
Variable times : fs4 * fs4.
Variable periods : double * double.

(** Where orbit o stands: the range it is on and the period it is in. *)
Definition position_of (w : walk) (o : nat) : nat * Z :=
  (sel2 (isect w) o, sel2 (n_orbit w) o).

(** The end of the time interval of orbit o at a position. *)
Definition range_end (o : nat) (pos : nat * Z) : double :=
  at4 (sel2 times o) (2 * fst pos + 1) + of_int (snd pos) * sel2 periods o.

(** The position after the current one (lines 242-253, without the
    [break]), for a period counter below [INT_MAX]. *)
Definition advance_pos (o : nat) (pos : nat * Z) : nat * Z :=
  let is' := S (fst pos) in
  if (is' =? 2)%nat ||
     (at4 (sel2 fs o) (2 * is' + 0) >=? at4 (sel2 fs o) (2 * is' + 1))
  then (0%nat, (snd pos + 1)%Z)
  else (is', snd pos).

(** The orbit whose range ends first (line 241). *)
Definition advancing (w : walk) : nat :=
  if range_end 0 (position_of w 0) <? range_end 1 (position_of w 1) then 0%nat else 1%nat.

(** The begin and the end of the overlap computed by one iteration
    (lines 221-222). *)
Definition step_begin (w : walk) : double :=
  fmax (wt w) (fmax (fst (trange times periods w 0)) (fst (trange times periods w 1))).

Definition step_end (t1 : double) (w : walk) : double :=
  fmin t1 (fmin (range_end 0 (position_of w 0)) (range_end 1 (position_of w 1))).

(** [isect[o]] is 0 or 1, and 1 only when the second range of orbit o is
    not empty. *)
Definition position_ok (o : nat) (pos : nat * Z) : Prop :=
  (fst pos <= 1)%nat /\
  (fst pos = 1%nat -> at4 (sel2 fs o) 2 < at4 (sel2 fs o) 3).

(** What the walk knows about the begin [b] of the last written interval:
    some orbit's current range ends after [b]; every orbit's current or
    next range ends after [b]; and if a current range ends at or before [b]
    the time has already passed [b]. *)
Definition ahead_of (w : walk) (b : double) : Prop :=
  (b < range_end 0 (position_of w 0) \/ b < range_end 1 (position_of w 1)) /\
  (b < range_end 0 (position_of w 0) \/
   b < range_end 0 (advance_pos 0 (position_of w 0))) /\
  (b < range_end 1 (position_of w 1) \/
   b < range_end 1 (advance_pos 1 (position_of w 1))) /\
  (range_end 0 (position_of w 0) <= b -> b < wt w) /\
  (range_end 1 (position_of w 1) <= b -> b < wt w).

(** The loop invariant of the merge walk. *)
Definition walk_inv (t0 t1 : double) (w : walk) : Prop :=
  position_ok 0 (position_of w 0) /\
  position_ok 1 (position_of w 1) /\
  t0 <= wt w /\
  descending t0 t1 (itimes w) /\
  match itimes w with
  | (b, _) :: _ => ahead_of w b
  | [] => True
  end.

(** The number of advances after which every range of orbit o ends at or
    after [t1]; [nstar] is a period number from which this holds. *)
Definition periods_to_go (nstar : Z) (pos : nat * Z) : nat :=
  Z.to_nat (2 * (nstar - snd pos) - Z.of_nat (fst pos)).

(** The invariant of the termination argument: the positions are well
    formed, and an orbit that does not go round ([orbit_elliptic] is false)
    is still in a period before [nstar]. *)
Definition walk_term_inv (orbits : orbit * orbit) (nstar0 nstar1 : Z) (w : walk) : Prop :=
  position_ok 0 (position_of w 0) /\
  position_ok 1 (position_of w 1) /\
  (orbit_elliptic (fst orbits) = false -> (snd (position_of w 0) < nstar0)%Z) /\
  (orbit_elliptic (snd orbits) = false -> (snd (position_of w 1) < nstar1)%Z).

(** The period counters are machine integers, and the counter of an orbit
    that goes round has not passed [nstar]. *)
Definition walk_counters (orbits : orbit * orbit) (nstar0 nstar1 : Z) (w : walk) : Prop :=
  (INT_MIN <= fst (n_orbit w) <= INT_MAX)%Z /\
  (INT_MIN <= snd (n_orbit w) <= INT_MAX)%Z /\
  (orbit_elliptic (fst orbits) = true -> (fst (n_orbit w) <= nstar0)%Z) /\
  (orbit_elliptic (snd orbits) = true -> (snd (n_orbit w) <= nstar1)%Z).

(** The measure of the termination argument: the advances left to the
    two orbits. *)
Definition walk_to_go (nstar0 nstar1 : Z) (w : walk) : nat :=
  (periods_to_go nstar0 (position_of w 0) + periods_to_go nstar1 (position_of w 1))%nat.

End WalkVocabulary.

(** The collaborators' contract the walk relies on: a closed orbit has a
    positive mean motion (hence a positive period). *)
Definition mean_motion_positive {C : Collaborators} (mu : double) (o : orbit) : Prop :=
  conic_closed (orbit_eccentricity o) = true ->
  0 < conic_mean_motion mu (orbit_semi_latus_rectum o) (orbit_eccentricity o).

(** ** Intercept records *)

(** A record the orchestrator accepts (line 503): its distance is a
    number, at most the threshold. *)
Definition accepted (threshold : double) (i : intercept) : Prop :=
  exists d, distance i = Some d /\ d <= threshold.

(** ** Further vocabulary *)

(** All four bounds lie in the principal range -pi..pi. *)
Definition within_pi (fs : fs4) : Prop :=
  (- M_PI <= f_0 fs /\ f_0 fs <= M_PI) /\ (- M_PI <= f_1 fs /\ f_1 fs <= M_PI) /\
  (- M_PI <= f_2 fs /\ f_2 fs <= M_PI) /\ (- M_PI <= f_3 fs /\ f_3 fs <= M_PI).

(** Both pairs are empty (begin >= end). *)
Definition no_ranges (fs : fs4) : Prop := f_1 fs <= f_0 fs /\ f_3 fs <= f_2 fs.

(** The tolerance of [zero] is below pi: it accepts no value of magnitude
    pi or more. *)
Definition zero_below_pi {C : Collaborators} : Prop :=
  forall x : double, zero x = true -> - M_PI < x /\ x < M_PI.

Section OrbitForms.

Context {C : Collaborators}.

Definition apoapsis_of (o : orbit) : double :=
  conic_apoapsis (orbit_semi_latus_rectum o) (orbit_eccentricity o).

Definition periapsis_of (o : orbit) : double :=
  conic_periapsis (orbit_semi_latus_rectum o) (orbit_eccentricity o).

Definition closed_orbit (o : orbit) : bool := conic_closed (orbit_eccentricity o).

(** The radial bands of the two orbits are further apart than the
    threshold: one closed orbit stays below the periapsis of the other by
    the threshold or more, as lines 87-88 test it (the difference is the
    rounded one). *)
Definition bands_apart (orbit1 orbit2 : orbit) (threshold : double) : Prop :=
  (closed_orbit orbit1 = true /\
   apoapsis_of orbit1 <= fsub (periapsis_of orbit2) threshold) \/
  (closed_orbit orbit2 = true /\
   apoapsis_of orbit2 <= fsub (periapsis_of orbit1) threshold).

(** The orbital planes coincide, as line 122 tests it. *)
Definition coplanar_orbits (orbit1 orbit2 : orbit) : Prop :=
  let nodes := cross (normal_axis orbit1) (normal_axis orbit2) in
  dot nodes nodes < DBL_EPSILON.

End OrbitForms.

Section IntervalForms.

Context {C : Collaborators}.

(** Between consecutive intervals of the output array there is a gap that
    [zero] does not take for nothing. *)
Definition gaps_beyond_tolerance (l : list (double * double)) : Prop :=
  forall (i : nat) (a b : double * double),
    nth_error l i = Some a -> nth_error l (S i) = Some b ->
    zero (fst b - snd a) = false.

(** The same on the written part of the array kept most recent first. *)
Fixpoint gapped (l : list (double * double)) : Prop :=
  match l with
  | [] => True
  | iv :: rest =>
      match rest with
      | older :: _ => zero (fst iv - snd older) = false
      | [] => True
      end /\
      gapped rest
  end.

End IntervalForms.

Section SearchForms.

Context {C : Collaborators}.

(** The eccentric anomaly of orbit o at time t, as lines 368-376 compute
    it, with the gravity parameter mu of the first orbit. *)
Definition eccentric_anomaly_at (mu : double) (o : orbit) (t : double) : double :=
  let e := orbit_eccentricity o in
  anomaly_mean_to_eccentric e
    ((t - orbit_periapsis_time o) * conic_mean_motion mu (orbit_semi_latus_rectum o) e).

(** The loop invariant of the search on its time variables: the time never
    falls below t0, the minimum step is not negative, and the previous
    time, once set, lies between t0 and the time. *)
Definition search_inv (t0 : double) (s : search) : Prop :=
  t0 <= st s /\ 0 <= min_dt s /\
  match prev_time s with
  | Some pt => t0 <= pt /\ pt <= st s
  | None => True
  end.

End SearchForms.

Section CallForms.

Context {C : Collaborators}.

Definition is_search (c : call) : bool :=
  match c with Call_search _ _ _ _ => true | _ => false end.

(** The call of [intercept_search] on a time interval, from its begin. *)
Definition search_on (orbit1 orbit2 : orbit) (iv : double * double) : call :=
  Call_search orbit1 orbit2 (fst iv) (snd iv).

Definition nonempty_interval (iv : double * double) : bool := fst iv <? snd iv.

End CallForms.

(** The true anomaly x lies in one of the (at most two) ranges of a
    buffer; an empty pair (begin >= end) holds no anomaly. *)
Definition in_ranges (fs : fs4) (x : double) : Prop :=
  (f_0 fs < f_1 fs /\ f_0 fs <= x /\ x <= f_1 fs) \/
  (f_2 fs < f_3 fs /\ f_2 fs <= x /\ x <= f_3 fs).

(** The length test of line 54 on the range lo..hi is not decided by
    rounding: when the rounded difference reaches 2*M_PI, so does the
    exact one. *)
Definition length_test_exact (lo hi : double) : Prop :=
  2 * M_PI <= fsub hi lo -> 2 * M_PI <= hi - lo.

(** A second range, when there is one, begins after the first ends. *)
Definition sorted_ranges (fs : fs4) : Prop := f_2 fs < f_3 fs -> f_1 fs < f_2 fs.

(** ** The period counter *)

(** The period counter of an orbit that goes round reaches the end of the
    window before it overflows: some period number N, at or after the one
    the walk starts from and below [INT_MAX], has both ranges of the orbit
    end at or after t1. *)
Definition period_counter_fits {C : Collaborators} (mu t0 t1 : double) (o : orbit)
    (fs : fs4) : Prop :=
  orbit_elliptic o = true ->
  exists N : Z,
    (snd (orbit_times mu t0 t1 o fs) <= N < INT_MAX)%Z /\
    let times := fst (fst (orbit_times mu t0 t1 o fs)) in
    let P := snd (fst (orbit_times mu t0 t1 o fs)) in
    t1 <= f_1 times + of_int N * P /\ t1 <= f_3 times + of_int N * P.


(** * Properties *)

(** ** Comparisons, [fmin] and [fmax] *)

Lemma Qltb_lt (a b : Q) : (a <? b) = true <-> a < b.
Proof.
  unfold Qltb. rewrite negb_true_iff. split; intro H.
  - apply Qnot_le_lt. intro H1. apply Qle_bool_iff in H1. congruence.
  - destruct (Qle_bool b a) eqn:E; auto. apply Qle_bool_iff in E. lra.
Qed.

Lemma Qltb_ge (a b : Q) : (a <? b) = false <-> b <= a.
Proof.
  unfold Qltb. rewrite negb_false_iff. apply Qle_bool_iff.
Qed.

Lemma Qleb_le (a b : Q) : (a <=? b) = true <-> a <= b.
Proof. apply Qle_bool_iff. Qed.

Lemma Qleb_gt (a b : Q) : (a <=? b) = false <-> b < a.
Proof.
  split; intro H.
  - apply Qnot_le_lt. intro H1. apply Qle_bool_iff in H1. congruence.
  - destruct (a <=? b) eqn:E; auto. apply Qle_bool_iff in E. lra.
Qed.

(** Turn every boolean comparison of doubles in sight into an order fact. *)
Ltac cmp_to_prop :=
  repeat match goal with
  | H : (_ <? _) = true |- _ => apply Qltb_lt in H
  | H : (_ <? _) = false |- _ => apply Qltb_ge in H
  | H : (_ <=? _) = true |- _ => apply Qleb_le in H
  | H : (_ <=? _) = false |- _ => apply Qleb_gt in H
  end.

(** Case analysis on the first comparison found in the goal. *)
Ltac cmp_case :=
  match goal with
  | |- context [?a <? ?b] =>
      let E := fresh "E" in destruct (a <? b) eqn:E
  | |- context [?a <=? ?b] =>
      let E := fresh "E" in destruct (a <=? b) eqn:E
  end.

Ltac cmp_cases := repeat (cmp_case; simpl); cmp_to_prop.

#[global] Instance Qltb_proper : Proper (Qeq ==> Qeq ==> eq) Qltb.
Proof.
  intros a a' Ha b b' Hb. unfold Qltb. now rewrite Ha, Hb.
Qed.

#[global] Instance fmin_proper : Proper (Qeq ==> Qeq ==> Qeq) fmin.
Proof.
  intros a a' Ha b b' Hb. unfold fmin. rewrite Ha, Hb.
  destruct (a' <=? b'); assumption.
Qed.

#[global] Instance fmax_proper : Proper (Qeq ==> Qeq ==> Qeq) fmax.
Proof.
  intros a a' Ha b b' Hb. unfold fmax. rewrite Ha, Hb.
  destruct (a' >=? b'); assumption.
Qed.

Lemma fmin_comm (a b : double) : fmin a b == fmin b a.
Proof. unfold fmin. cmp_cases; lra. Qed.

Lemma fmax_comm (a b : double) : fmax a b == fmax b a.
Proof. unfold fmax. cmp_cases; lra. Qed.

Lemma fmin_spec (a b : double) :
  (a <= b /\ fmin a b = a) \/ (b < a /\ fmin a b = b).
Proof. unfold fmin. cmp_cases; auto. Qed.

Lemma fmax_spec (a b : double) :
  (b <= a /\ fmax a b = a) \/ (a < b /\ fmax a b = b).
Proof. unfold fmax. cmp_cases; auto. Qed.

Lemma fmax_ge_l (a b : double) : a <= fmax a b.
Proof. destruct (fmax_spec a b) as [[? ->]|[? ->]]; lra. Qed.

Lemma fmax_ge_r (a b : double) : b <= fmax a b.
Proof. destruct (fmax_spec a b) as [[? ->]|[? ->]]; lra. Qed.

Lemma fmin_le_l (a b : double) : fmin a b <= a.
Proof. destruct (fmin_spec a b) as [[? ->]|[? ->]]; lra. Qed.

Lemma fmin_le_r (a b : double) : fmin a b <= b.
Proof. destruct (fmin_spec a b) as [[? ->]|[? ->]]; lra. Qed.

Lemma M_PI_pos : 0 < M_PI.
Proof. reflexivity. Qed.

#[global] Instance fs4_eq_equiv : Equivalence fs4_eq.
Proof.
  split.
  - intros a. repeat split; reflexivity.
  - intros a b (h0 & h1 & h2 & h3). repeat split; symmetry; assumption.
  - intros a b c (h0 & h1 & h2 & h3) (k0 & k1 & k2 & k3).
    repeat split; etransitivity; eassumption.
Qed.

(** ** Rounding *)

#[global] Instance round_double_proper : Proper (Qeq ==> eq) round_double.
Proof.
  intros x y H. unfold round_double. rewrite (Qred_complete x y H). reflexivity.
Qed.

#[global] Instance fsub_proper : Proper (Qeq ==> Qeq ==> eq) fsub.
Proof.
  intros a a' Ha b b' Hb. unfold fsub. apply round_double_proper.
  rewrite Ha, Hb. reflexivity.
Qed.

#[global] Instance fadd_proper : Proper (Qeq ==> Qeq ==> eq) fadd.
Proof.
  intros a a' Ha b b' Hb. unfold fadd. apply round_double_proper.
  rewrite Ha, Hb. reflexivity.
Qed.

Lemma pow2_pos (e : Z) : 0 < pow2 e.
Proof.
  destruct e as [| p | p]; cbn [pow2]; [reflexivity | | reflexivity].
  change 0 with (inject_Z 0). rewrite <- Zlt_Qlt. apply Z.pow_pos_nonneg; lia.
Qed.

Lemma round_half_even_nonneg (q : Q) : 0 <= q -> (0 <= round_half_even q)%Z.
Proof.
  intro Hq. unfold round_half_even.
  assert (Hf : (0 <= Qfloor q)%Z).
  { change 0%Z with (Qfloor 0). apply Qfloor_resp_le. exact Hq. }
  destruct (Qcompare _ _); [destruct (Z.even _) | |]; lia.
Qed.

(** Rounding keeps the sign. *)
Lemma round_double_sign (x : Q) :
  (x <= 0 -> round_double x <= 0) /\ (0 <= x -> 0 <= round_double x).
Proof.
  unfold round_double. pose proof (Qred_correct x) as Hq.
  set (q := Qred x) in *.
  destruct (Qnum q) eqn:En; [split; intro; apply Qle_refl | |].
  - (* q > 0 *)
    assert (Hpos : 0 < q) by (destruct q as [n d]; cbn in En; subst n; reflexivity).
    set (u := Z.max _ _). set (m := round_half_even _).
    assert (Hm : (0 <= m)%Z).
    { apply round_half_even_nonneg. apply Qle_shift_div_l; [apply pow2_pos |].
      rewrite Qmult_0_l. apply Qabs_nonneg. }
    assert (Hr : 0 <= inject_Z m * pow2 u).
    { apply Qmult_le_0_compat; [| apply Qlt_le_weak, pow2_pos].
      change 0 with (inject_Z 0). rewrite <- Zle_Qle. exact Hm. }
    assert (E : (0 <=? q) = true) by (apply Qleb_le; lra).
    rewrite E. split; intro; [lra | exact Hr].
  - (* q < 0 *)
    assert (Hneg : q < 0) by (destruct q as [n d]; cbn in En; subst n; reflexivity).
    set (u := Z.max _ _). set (m := round_half_even _).
    assert (Hm : (0 <= m)%Z).
    { apply round_half_even_nonneg. apply Qle_shift_div_l; [apply pow2_pos |].
      rewrite Qmult_0_l. apply Qabs_nonneg. }
    assert (Hr : 0 <= inject_Z m * pow2 u).
    { apply Qmult_le_0_compat; [| apply Qlt_le_weak, pow2_pos].
      change 0 with (inject_Z 0). rewrite <- Zle_Qle. exact Hm. }
    assert (E : (0 <=? q) = false) by (apply Qleb_gt; exact Hneg).
    rewrite E. split; intro; [lra | lra].
Qed.

Lemma round_half_even_error (q : Q) :
  Qabs (inject_Z (round_half_even q) - q) <= 1 # 2.
Proof.
  unfold round_half_even. cbv zeta.
  pose proof (Qfloor_le q) as Hl. pose proof (Qlt_floor q) as Hu.
  rewrite inject_Z_plus in Hu. change (inject_Z 1) with 1 in Hu.
  set (f := Qfloor q) in *.
  destruct (Qcompare (q - inject_Z f) (1 # 2)) eqn:E.
  - apply Qeq_alt in E.
    destruct (Z.even f); [| rewrite inject_Z_plus; change (inject_Z 1) with 1];
      apply Qabs_Qle_condition; split; lra.
  - apply Qlt_alt in E. apply Qabs_Qle_condition; split; lra.
  - apply Qgt_alt in E. rewrite inject_Z_plus; change (inject_Z 1) with 1.
    apply Qabs_Qle_condition; split; lra.
Qed.

Lemma pow2_le_1 (u : Z) : (u <= 0)%Z -> pow2 u <= 1.
Proof.
  destruct u as [| p | p]; intro H; cbn [pow2]; [apply Qle_refl | lia |].
  unfold Qle; cbn [Qnum Qden]. lia.
Qed.

Lemma pow2_ge_53 (e : Z) : (53 <= e)%Z -> inject_Z (2 ^ 53) <= pow2 e.
Proof.
  destruct e as [| p | p]; intro H; cbn [pow2]; [lia | | lia].
  rewrite <- Zle_Qle. apply Z.pow_le_mono_r; lia.
Qed.

(** Below 2^53 the exponent [ilog2] finds is at most 52. *)
Lemma ilog2_le_52 (n : Z) (d : positive) :
  (0 < n)%Z -> n # d < inject_Z (2 ^ 53) -> (ilog2 n (Z.pos d) <= 52)%Z.
Proof.
  intros Hn Hlt. unfold ilog2. cbv zeta. cbn [Z.to_pos].
  destruct (pow2 (Z.log2 n - Z.log2 (Z.pos d)) <=? n # d) eqn:E.
  - apply Qle_bool_iff in E.
    destruct (Z_lt_le_dec 52 (Z.log2 n - Z.log2 (Z.pos d))) as [Hgt | Hle]; [| exact Hle].
    pose proof (pow2_ge_53 (Z.log2 n - Z.log2 (Z.pos d)) ltac:(lia)) as H53. lra.
  - assert (Hz : (n < 2 ^ 53 * Z.pos d)%Z).
    { unfold Qlt in Hlt. cbn [Qnum Qden inject_Z] in Hlt. lia. }
    pose proof (Z.log2_spec (Z.pos d) ltac:(lia)) as [_ Hd].
    assert (Hn2 : (n < 2 ^ (Z.log2 (Z.pos d) + 54))%Z).
    { replace (Z.log2 (Z.pos d) + 54)%Z with (53 + Z.succ (Z.log2 (Z.pos d)))%Z by lia.
      rewrite Z.pow_add_r; [| lia | pose proof (Z.log2_nonneg (Z.pos d)); lia].
      nia. }
    apply Z.log2_lt_pow2 in Hn2; [lia | exact Hn].
Qed.

Lemma round_abs_error (a : Q) :
  0 < a -> a < inject_Z (2 ^ 53) ->
  let e := ilog2 (Qnum a) (Z.pos (Qden a)) in
  let u := Z.max (e - 52) (-1074) in
  Qabs (inject_Z (round_half_even (a / pow2 u)) * pow2 u - a) <= 1 # 2.
Proof.
  intros Ha Hlt e u.
  assert (He : (e <= 52)%Z).
  { unfold e. apply ilog2_le_52.
    - destruct a as [n d]. unfold Qlt in Ha. cbn in *. lia.
    - destruct a as [n d]. exact Hlt. }
  assert (Hu : (u <= 0)%Z) by (unfold u; lia).
  pose proof (pow2_pos u) as Hs0. pose proof (pow2_le_1 u Hu) as Hs1.
  set (s := pow2 u) in *.
  pose proof (round_half_even_error (a / s)) as Hm.
  set (m := inject_Z (round_half_even (a / s))) in *.
  set (w := a / s) in *.
  assert (Ea : a == w * s) by (unfold w; field; lra).
  apply Qabs_Qle_condition in Hm. destruct Hm as [Hm1 Hm2].
  apply Qabs_Qle_condition. rewrite Ea. split; nra.
Qed.

(** Below 2^53, where the doubles are no further apart than the integers,
    rounding to double moves a number by at most 1/2. *)
Lemma round_double_error (x : Q) :
  Qabs x < inject_Z (2 ^ 53) -> Qabs (round_double x - x) <= 1 # 2.
Proof.
  intro Hx. unfold round_double. pose proof (Qred_correct x) as Hq.
  set (q := Qred x) in *. rewrite <- Hq in Hx. rewrite <- Hq.
  destruct (Qnum q) eqn:En.
  - assert (E : q == 0) by (destruct q as [n d]; cbn in En; subst n; reflexivity).
    rewrite E. apply Qabs_Qle_condition; split; lra.
  - assert (Hpos : 0 < q) by (destruct q as [n d]; cbn in En; subst n; reflexivity).
    assert (Ha : 0 < Qabs q) by (rewrite Qabs_pos; lra).
    pose proof (round_abs_error (Qabs q) Ha Hx) as H. cbv zeta in H.
    assert (E : (0 <=? q) = true) by (apply Qle_bool_iff; lra).
    rewrite E. pose proof (Qabs_pos q ltac:(lra)) as Eabs.
    match type of H with
    | Qabs (?r - _) <= _ => set (rr := r) in *
    end.
    apply Qabs_Qle_condition in H. destruct H as [H1 H2].
    apply Qabs_Qle_condition. split; lra.
  - assert (Hneg : q < 0) by (destruct q as [n d]; cbn in En; subst n; reflexivity).
    assert (Ha : 0 < Qabs q) by (rewrite Qabs_neg; lra).
    pose proof (round_abs_error (Qabs q) Ha Hx) as H. cbv zeta in H.
    assert (E : (0 <=? q) = false).
    { destruct (0 <=? q) eqn:E0; [| reflexivity]. apply Qle_bool_iff in E0. lra. }
    rewrite E. pose proof (Qabs_neg q ltac:(lra)) as Eabs.
    match type of H with
    | Qabs (?r - _) <= _ => set (rr := r) in *
    end.
    apply Qabs_Qle_condition in H. destruct H as [H1 H2].
    apply Qabs_Qle_condition. split; lra.
Qed.

Lemma fsub_nonpos (a b : double) : a <= b -> fsub a b <= 0.
Proof. intro H. unfold fsub. apply round_double_sign. lra. Qed.

Lemma at4_odd (a : fs4) (i : nat) :
  at4 a (2 * i + 1) = f_1 a \/ at4 a (2 * i + 1) = f_3 a.
Proof.
  destruct i as [| i]; [now left | right].
  replace (2 * S i + 1)%nat with (S (S (S (2 * i)))) by lia. reflexivity.
Qed.

Lemma to_int_range (x : double) : (INT_MIN <= to_int x <= INT_MAX)%Z.
Proof.
  unfold to_int. cbv zeta.
  destruct ((INT_MIN <=? _) && (_ <=? INT_MAX))%Z eqn:E.
  - apply andb_true_iff in E. destruct E as [E1 E2].
    apply Z.leb_le in E1, E2. lia.
  - unfold INT_MIN, INT_MAX. lia.
Qed.

(** ** intersect_ranges: the result depends on the doubles only, and the
    two sources play the same role *)

Section RangesSymmetry.

Context {C : Collaborators}.

(** [zero] reads the value of its argument. *)
Hypothesis zero_proper : Proper (Qeq ==> eq) zero.

Lemma overlap_cell_comm (fs1 fs2 : fs4) (i j : nat) :
  overlap_cell fs1 fs2 i j == overlap_cell fs2 fs1 i j.
Proof.
  unfold overlap_cell. destruct j; [apply fmax_comm | apply fmin_comm].
Qed.

Lemma overlap_comm (fs1 fs2 : fs4) : fs4_eq (overlap fs1 fs2) (overlap fs2 fs1).
Proof.
  unfold overlap, fs4_eq; cbn [f_0 f_1 f_2 f_3].
  repeat split; apply overlap_cell_comm.
Qed.

Lemma union_apoapsis_proper (closed : bool) (a b : fs4) :
  fs4_eq a b -> fs4_eq (union_apoapsis closed a) (union_apoapsis closed b).
Proof.
  intros (h0 & h1 & h2 & h3). unfold union_apoapsis.
  assert (E : (closed && ((f_0 a <=? - M_PI) || zero (f_0 a + M_PI)) &&
                 ((f_3 a >=? M_PI) || zero (f_3 a - M_PI)))%bool =
              (closed && ((f_0 b <=? - M_PI) || zero (f_0 b + M_PI)) &&
                 ((f_3 b >=? M_PI) || zero (f_3 b - M_PI)))%bool)
    by now rewrite h0, h3.
  rewrite E; clear E. destruct (_ && _ && _)%bool.
  - repeat split; cbn [f_0 f_1 f_2 f_3]; try reflexivity.
    + now rewrite h0, h2.
    + now rewrite h1, h3.
  - repeat split; assumption.
Qed.

Lemma union_periapsis_proper (a b : fs4) :
  fs4_eq a b -> fs4_eq (union_periapsis a) (union_periapsis b).
Proof.
  intros (h0 & h1 & h2 & h3). unfold union_periapsis.
  assert (E : (((f_1 a >=? f_2 a) || zero (f_1 a - f_2 a)) && (f_2 a <? f_3 a))%bool =
              (((f_1 b >=? f_2 b) || zero (f_1 b - f_2 b)) && (f_2 b <? f_3 b))%bool)
    by now rewrite h1, h2, h3.
  rewrite E; clear E. destruct (_ && _)%bool; repeat split; cbn [f_0 f_1 f_2 f_3]; try assumption; reflexivity.
Qed.

Lemma rotate_apoapsis_proper (a b : fs4) :
  fs4_eq a b -> fs4_eq (rotate_apoapsis a) (rotate_apoapsis b).
Proof.
  intros (h0 & h1 & h2 & h3). unfold rotate_apoapsis.
  assert (E : ((f_2 a <? f_3 a) && (f_3 a >? M_PI))%bool =
              ((f_2 b <? f_3 b) && (f_3 b >? M_PI))%bool)
    by now rewrite h2, h3.
  rewrite E; clear E. destruct (_ && _)%bool; repeat split; cbn [f_0 f_1 f_2 f_3]; try assumption.
  - now rewrite h2.
  - now rewrite h3.
Qed.

Lemma compact_ranges_proper (a b : fs4) :
  fs4_eq a b -> fs4_eq (compact_ranges a) (compact_ranges b).
Proof.
  intros (h0 & h1 & h2 & h3). unfold compact_ranges.
  assert (E : ((f_2 a <? f_3 a) && negb (f_0 a <? f_1 a))%bool =
              ((f_2 b <? f_3 b) && negb (f_0 b <? f_1 b))%bool)
    by now rewrite h0, h1, h2, h3.
  rewrite E; clear E. destruct (_ && _)%bool; repeat split; cbn [f_0 f_1 f_2 f_3]; try assumption; reflexivity.
Qed.

Lemma full_orbit_proper (a b : fs4) :
  fs4_eq a b -> fs4_eq (full_orbit a) (full_orbit b).
Proof.
  intros (h0 & h1 & h2 & h3). unfold full_orbit.
  assert (E : (fsub (f_1 a) (f_0 a) >=? 2 * M_PI) = (fsub (f_1 b) (f_0 b) >=? 2 * M_PI))
    by now rewrite h0, h1.
  rewrite E; clear E. destruct (_ >=? _); repeat split; cbn [f_0 f_1 f_2 f_3]; try assumption; reflexivity.
Qed.

Lemma normalize_ranges_proper (closed : bool) (a b : fs4) :
  fs4_eq a b -> fs4_eq (normalize_ranges closed a) (normalize_ranges closed b).
Proof.
  intro H. unfold normalize_ranges.
  apply full_orbit_proper, compact_ranges_proper, rotate_apoapsis_proper,
    union_periapsis_proper, union_apoapsis_proper, H.
Qed.

Lemma count_ranges_proper (a b : fs4) : fs4_eq a b -> count_ranges a = count_ranges b.
Proof.
  intros (h0 & h1 & h2 & h3). unfold count_ranges. now rewrite h0, h1, h2, h3.
Qed.

(** C6.  [intersect_ranges] is commutative: swapping the two sources gives
    the same returned count and the same four doubles in the output buffer,
    whatever the [closed] flag. *)
Theorem intersect_ranges_comm (fs1 fs2 : fs4) (closed : bool) :
  fst (intersect_ranges fs1 fs2 closed) = fst (intersect_ranges fs2 fs1 closed) /\
  fs4_eq (snd (intersect_ranges fs1 fs2 closed)) (snd (intersect_ranges fs2 fs1 closed)).
Proof.
  unfold intersect_ranges; simpl.
  assert (H : fs4_eq (normalize_ranges closed (overlap fs1 fs2))
                     (normalize_ranges closed (overlap fs2 fs1)))
    by apply normalize_ranges_proper, overlap_comm.
  split; [apply count_ranges_proper, H | exact H].
Qed.

End RangesSymmetry.

(** ** intersect_ranges against the full range *)

(** C7 as stated fails.  Each of the following range pairs is well formed
    in the sense of the claim, and comes back changed from the intersection
    with the full range:
    - on an open orbit the touching ranges -1..0 and 0..1 come back as the
      single range -1..1 (lines 33-38 join them), the count drops to 1;
    - on a closed orbit the ranges -1.2pi..-0.9pi and 0.5pi..pi, which reach
      apoapsis from both sides, come back as the single range
      -1.5pi..-0.9pi (lines 24-31 join them below -pi);
    - on a closed orbit the range -2pi..1/2, longer than 2pi, comes back as
      -pi..pi (lines 54-58). *)
Lemma intersect_ranges_full_not_identity :
  (well_formed_ranges false (Fs4 (-1) 0 0 1) /\
   count_ranges (Fs4 (-1) 0 0 1) = 2%Z /\
   intersect_ranges (C := Planar.collaborators) (Fs4 (-1) 0 0 1) (full_range false) false
     = (1%Z, Fs4 (-1) 1 1 (-1))) /\
  (let fs := Fs4 (- (6 # 5) * M_PI) (- (9 # 10) * M_PI) ((1 # 2) * M_PI) M_PI in
   well_formed_ranges true fs /\
   count_ranges fs = 2%Z /\
   fst (intersect_ranges (C := Planar.collaborators) fs (full_range true) true) = 1%Z /\
   fs4_eq (snd (intersect_ranges (C := Planar.collaborators) fs (full_range true) true))
          (Fs4 (- (3 # 2) * M_PI) (- (9 # 10) * M_PI) 1 (-1))) /\
  (let fs := Fs4 (- (2 * M_PI)) (1 # 2) 1 (-1) in
   well_formed_ranges true fs /\
   count_ranges fs = 1%Z /\
   fst (intersect_ranges (C := Planar.collaborators) fs (full_range true) true) = 1%Z /\
   fs4_eq (snd (intersect_ranges (C := Planar.collaborators) fs (full_range true) true))
          (Fs4 (- M_PI) M_PI 1 (-1)) /\
   ~ fs4_eq (snd (intersect_ranges (C := Planar.collaborators) fs (full_range true) true))
            fs).
Proof.
  split; [| split].
  - split; [| split; reflexivity].
    unfold well_formed_ranges; cbn [f_0 f_1 f_2 f_3].
    repeat split; try reflexivity; discriminate.
  - cbv zeta. split; [| split; [reflexivity | split; [reflexivity |]]].
    + unfold well_formed_ranges; cbn [f_0 f_1 f_2 f_3].
      repeat split; try reflexivity; discriminate.
    + unfold fs4_eq. repeat split; reflexivity.
  - cbv zeta. split; [| split; [reflexivity | split; [reflexivity | split]]].
    + unfold well_formed_ranges; cbn [f_0 f_1 f_2 f_3].
      repeat split; try reflexivity; discriminate.
    + unfold fs4_eq. repeat split; reflexivity.
    + intros (H & _). revert H. vm_compute. discriminate.
Qed.

Section RangesFull.

Context {C : Collaborators}.

Lemma pick_one (fs : fs4) (i j : nat) :
  f_3 fs <= f_2 fs -> pick fs i j = at4 fs j.
Proof.
  intro H. unfold pick. cbn [at4].
  apply Qltb_ge in H. rewrite H. reflexivity.
Qed.

Lemma pick_two (fs : fs4) (i j : nat) :
  f_2 fs < f_3 fs -> pick fs i j = at4 fs (2 * i + j).
Proof.
  intro H. unfold pick. cbn [at4].
  apply Qltb_lt in H. rewrite H. reflexivity.
Qed.

Lemma fmax_left (a b : double) : b <= a -> fmax a b = a.
Proof. intro H. unfold fmax. apply Qleb_le in H. now rewrite H. Qed.

Lemma fmin_left (a b : double) : a <= b -> fmin a b = a.
Proof. intro H. unfold fmin. apply Qleb_le in H. now rewrite H. Qed.

Lemma fmax_right (a b : double) : a < b -> fmax a b = b.
Proof. intro H. unfold fmax. apply Qleb_gt in H. now rewrite H. Qed.

Lemma fmin_right (a b : double) : b < a -> fmin a b = b.
Proof. intro H. unfold fmin. apply Qleb_gt in H. now rewrite H. Qed.

Lemma full_range_bounds (closed : bool) :
  f_0 (full_range closed) <= - M_PI /\ M_PI <= f_1 (full_range closed) /\
  f_3 (full_range closed) <= f_2 (full_range closed) /\
  (f_0 (full_range closed) = if closed then - (2 * M_PI) else - M_PI).
Proof.
  pose proof M_PI_pos. destruct closed; cbn; repeat split; try lra; reflexivity.
Qed.

(** The pairwise overlap with the full range gives back the ranges: a
    single range twice, two ranges as they are. *)
Lemma overlap_full_one (closed : bool) (fs : fs4) :
  (if closed then - (2 * M_PI) <= f_0 fs else - M_PI <= f_0 fs) ->
  f_1 fs <= M_PI -> f_3 fs <= f_2 fs ->
  overlap fs (full_range closed) = Fs4 (f_0 fs) (f_1 fs) (f_0 fs) (f_1 fs).
Proof.
  intros Hlo Hhi He.
  destruct (full_range_bounds closed) as (B0 & B1 & B2 & B3).
  unfold overlap, overlap_cell.
  rewrite !(pick_one fs) by exact He.
  rewrite !(pick_one (full_range closed)) by exact B2.
  cbn [at4].
  rewrite fmax_left, fmin_left; [reflexivity | lra |].
  rewrite B3. destruct closed; exact Hlo.
Qed.

Lemma overlap_full_two (closed : bool) (fs : fs4) :
  (if closed then - (2 * M_PI) <= f_0 fs else - M_PI <= f_0 fs) ->
  f_0 fs < f_1 fs -> f_1 fs < f_2 fs -> f_2 fs < f_3 fs -> f_3 fs <= M_PI ->
  overlap fs (full_range closed) = Fs4 (f_0 fs) (f_1 fs) (f_2 fs) (f_3 fs).
Proof.
  intros Hlo H01 H12 H23 Hhi.
  destruct (full_range_bounds closed) as (B0 & B1 & B2 & B3).
  assert (Hlo' : f_0 (full_range closed) <= f_0 fs)
    by (rewrite B3; destruct closed; exact Hlo).
  unfold overlap, overlap_cell.
  rewrite !(pick_two fs) by exact H23.
  rewrite !(pick_one (full_range closed)) by exact B2.
  cbn [at4 Nat.mul Nat.add].
  rewrite !fmax_left, !fmin_left by lra. reflexivity.
Qed.

End RangesFull.

Section RangesNormal.

Context {C : Collaborators}.

Lemma reaches_minus_pi_iff (x : double) :
  ((x <=? - M_PI) || zero (x + M_PI))%bool = true <-> reaches_minus_pi x.
Proof.
  unfold reaches_minus_pi. rewrite orb_true_iff, Qleb_le. reflexivity.
Qed.

Lemma reaches_pi_iff (x : double) :
  ((x >=? M_PI) || zero (x - M_PI))%bool = true <-> reaches_pi x.
Proof.
  unfold reaches_pi. rewrite orb_true_iff, Qleb_le. reflexivity.
Qed.

Lemma union_apoapsis_skip (closed : bool) (fs : fs4) :
  (closed = true -> ~ (reaches_minus_pi (f_0 fs) /\ reaches_pi (f_3 fs))) ->
  union_apoapsis closed fs = fs.
Proof.
  intro H. unfold union_apoapsis.
  destruct (closed && _ && _)%bool eqn:E; [| reflexivity].
  apply andb_true_iff in E. destruct E as [E E3].
  apply andb_true_iff in E. destruct E as [Ec E0].
  exfalso. apply (H Ec). split; [now apply reaches_minus_pi_iff | now apply reaches_pi_iff].
Qed.

Lemma union_periapsis_single (a b : double) :
  a < b -> union_periapsis (Fs4 a b a b) = Fs4 a b 1 (-1).
Proof.
  intro H. unfold union_periapsis; cbn [f_0 f_1 f_2 f_3].
  assert (E1 : (b >=? a) = true) by (apply Qleb_le; lra).
  assert (E2 : (a <? b) = true) by (apply Qltb_lt; lra).
  rewrite E1, E2. reflexivity.
Qed.

Lemma union_periapsis_skip (fs : fs4) :
  f_3 fs <= f_2 fs \/ (f_1 fs < f_2 fs /\ zero (f_1 fs - f_2 fs) = false) ->
  union_periapsis fs = fs.
Proof.
  intro H. unfold union_periapsis.
  destruct H as [H | [H Hz]].
  - apply Qltb_ge in H. rewrite H, andb_false_r. reflexivity.
  - apply Qleb_gt in H. rewrite H, Hz. reflexivity.
Qed.

Lemma rotate_apoapsis_skip (fs : fs4) :
  f_3 fs <= f_2 fs \/ f_3 fs <= M_PI -> rotate_apoapsis fs = fs.
Proof.
  intro H. unfold rotate_apoapsis.
  destruct H as [H | H]; apply Qltb_ge in H; rewrite H;
    [| rewrite andb_false_r]; reflexivity.
Qed.

Lemma compact_ranges_skip (fs : fs4) :
  f_3 fs <= f_2 fs \/ f_0 fs < f_1 fs -> compact_ranges fs = fs.
Proof.
  intro H. unfold compact_ranges.
  destruct H as [H | H].
  - apply Qltb_ge in H. rewrite H. reflexivity.
  - apply Qltb_lt in H. rewrite H, andb_false_r. reflexivity.
Qed.

Lemma full_orbit_skip (fs : fs4) :
  fsub (f_1 fs) (f_0 fs) < 2 * M_PI -> full_orbit fs = fs.
Proof.
  intro H. unfold full_orbit. apply Qleb_gt in H. rewrite H. reflexivity.
Qed.

Lemma full_orbit_fire (fs : fs4) :
  2 * M_PI <= fsub (f_1 fs) (f_0 fs) ->
  full_orbit fs = Fs4 (- M_PI) M_PI (f_2 fs) (f_3 fs).
Proof.
  intro H. unfold full_orbit. apply Qleb_le in H. rewrite H. reflexivity.
Qed.

(** The rules on a single range that is the full orbit -pi..pi. *)
Lemma normalize_full_orbit (closed : bool) (a b : double) :
  a == - M_PI -> b == M_PI ->
  normalize_ranges closed (Fs4 a b a b) = Fs4 (- M_PI) M_PI 1 (-1).
Proof.
  intros Ha Hb. pose proof M_PI_pos as Hpi. unfold normalize_ranges.
  assert (Hab : a < b) by lra.
  destruct closed.
  - unfold union_apoapsis; cbn [f_0 f_1 f_2 f_3 andb].
    assert (E0 : (a <=? - M_PI) = true) by (apply Qleb_le; lra).
    assert (E3 : (b >=? M_PI) = true) by (apply Qleb_le; lra).
    rewrite E0, E3; cbn [orb andb].
    rewrite fmin_right, fmax_left by lra.
    rewrite union_periapsis_skip by (left; cbn; lra).
    rewrite rotate_apoapsis_skip by (left; cbn; lra).
    rewrite compact_ranges_skip by (left; cbn; lra).
    rewrite full_orbit_fire
      by (cbn [f_0 f_1]; rewrite Ha, Hb; vm_compute; discriminate).
    reflexivity.
  - rewrite union_apoapsis_skip by discriminate.
    rewrite union_periapsis_single by exact Hab.
    rewrite rotate_apoapsis_skip by (left; cbn; lra).
    rewrite compact_ranges_skip by (left; cbn; lra).
    rewrite full_orbit_fire
      by (cbn [f_0 f_1]; rewrite Ha, Hb; vm_compute; discriminate).
    reflexivity.
Qed.

(** C7 (amended).  A range pair in normal form comes back unchanged from
    the intersection with the full range (-pi..pi, or -2pi..2pi when
    [closed]): the same count and the same four doubles. *)
Theorem intersect_ranges_full_normal (closed : bool) (fs : fs4) :
  normal_ranges closed fs ->
  fst (intersect_ranges fs (full_range closed) closed) = count_ranges fs /\
  fs4_eq (snd (intersect_ranges fs (full_range closed) closed)) fs.
Proof.
  intros (H01 & Hlo & Hform). pose proof M_PI_pos as Hpi.
  unfold intersect_ranges; cbn [fst snd].
  assert (Hnorm : fs4_eq (normalize_ranges closed (overlap fs (full_range closed))) fs).
  { destruct Hform as [(H2 & H3 & Hhi & Hone) | (H12 & Hz & H23 & Hhi & Hlen & Hap)].
    - rewrite overlap_full_one by (assumption || lra).
      destruct Hone as [[Ha Hb] | [Hlen Hap]].
      + rewrite normalize_full_orbit by assumption.
        unfold fs4_eq; cbn [f_0 f_1 f_2 f_3].
        repeat split; symmetry; assumption.
      + unfold normalize_ranges.
        rewrite union_apoapsis_skip by exact Hap.
        rewrite union_periapsis_single by exact H01.
        rewrite rotate_apoapsis_skip by (left; cbn; lra).
        rewrite compact_ranges_skip by (left; cbn; lra).
        rewrite full_orbit_skip by (cbn [f_0 f_1]; exact Hlen).
        unfold fs4_eq; cbn [f_0 f_1 f_2 f_3].
        repeat split; try reflexivity; symmetry; assumption.
    - rewrite overlap_full_two by assumption.
      unfold normalize_ranges.
      rewrite union_apoapsis_skip by exact Hap.
      rewrite union_periapsis_skip by (right; cbn [f_1 f_2]; split; assumption).
      rewrite rotate_apoapsis_skip by (right; cbn [f_3]; assumption).
      rewrite compact_ranges_skip by (right; cbn [f_0 f_1]; assumption).
      rewrite full_orbit_skip by (cbn [f_0 f_1]; assumption).
      destruct fs; reflexivity. }
  split; [apply count_ranges_proper, Hnorm | exact Hnorm].
Qed.

End RangesNormal.

(** ** intersect_ranges: non-empty ranges come first *)

Section RangesCompact.

Context {C : Collaborators}.

Lemma compact_ranges_front (fs : fs4) :
  f_2 (compact_ranges fs) < f_3 (compact_ranges fs) ->
  f_0 (compact_ranges fs) < f_1 (compact_ranges fs).
Proof.
  unfold compact_ranges.
  destruct (f_2 fs <? f_3 fs) eqn:E2; destruct (f_0 fs <? f_1 fs) eqn:E0;
    cbn [andb negb f_0 f_1 f_2 f_3]; cmp_to_prop; intro H; lra.
Qed.

Lemma full_orbit_front (fs : fs4) :
  (f_2 fs < f_3 fs -> f_0 fs < f_1 fs) ->
  f_2 (full_orbit fs) < f_3 (full_orbit fs) ->
  f_0 (full_orbit fs) < f_1 (full_orbit fs).
Proof.
  pose proof M_PI_pos. unfold full_orbit.
  destruct (fsub (f_1 fs) (f_0 fs) >=? 2 * M_PI); cbn [f_0 f_1 f_2 f_3]; intros Hf H2;
    [lra | auto].
Qed.

(** Whatever the two sources, the buffer [intersect_ranges] writes has its
    non-empty ranges first: the returned count n is 0, 1 or 2, the first n
    pairs have begin < end, and the other pairs are empty (begin >= end). *)
Lemma intersect_ranges_compact (fs1 fs2 : fs4) (closed : bool) :
  let n := fst (intersect_ranges fs1 fs2 closed) in
  let fs := snd (intersect_ranges fs1 fs2 closed) in
  (n = 0%Z /\ f_1 fs <= f_0 fs /\ f_3 fs <= f_2 fs) \/
  (n = 1%Z /\ f_0 fs < f_1 fs /\ f_3 fs <= f_2 fs) \/
  (n = 2%Z /\ f_0 fs < f_1 fs /\ f_2 fs < f_3 fs).
Proof.
  unfold intersect_ranges; cbn [fst snd]. unfold normalize_ranges.
  set (g := rotate_apoapsis _).
  pose proof (full_orbit_front (compact_ranges g) (compact_ranges_front g)) as H.
  set (fs := full_orbit _) in *. unfold count_ranges.
  destruct (f_0 fs <? f_1 fs) eqn:E0; destruct (f_2 fs <? f_3 fs) eqn:E2;
    cbn [b2z Z.add]; cmp_to_prop.
  - right; right. auto.
  - right; left. auto.
  - specialize (H E2). lra.
  - left. auto.
Qed.

End RangesCompact.

(** ** intersect_ranges: a join within the tolerance is not collapsed *)

Section RangesTolerance.

Context {C : Collaborators}.

Hypothesis zero_proper : Proper (Qeq ==> eq) zero.

(** Lines 33-38 join two ranges whose gap [zero] accepts; lines 54-58
    collapse a range to -pi..pi only if its length is at least 2pi.  On a
    closed orbit take the full range -2pi..2pi and two bands of half-width
    pi/2 and pi/2 - g around nodes pi apart, -0.6pi..0.4pi and
    0.4pi+g..1.4pi-g, with a gap g = 1e-9 that [zero] accepts.  The bands are
    joined into one range of length 2pi - g, which is returned as it is:
    its end, 1.4pi - g, is above pi. *)
Lemma intersect_ranges_joined_above_pi :
  let g := 1 # 1000000000 in
  let bands := Fs4 (- (3 # 5) * M_PI) ((2 # 5) * M_PI)
                   ((2 # 5) * M_PI + g) ((7 # 5) * M_PI - g) in
  zero (- g) = true ->
  zero ((2 # 5) * M_PI) = false ->
  fst (intersect_ranges (full_range true) bands true) = 1%Z /\
  fs4_eq (snd (intersect_ranges (full_range true) bands true))
         (Fs4 (- (3 # 5) * M_PI) ((7 # 5) * M_PI - g) 1 (-1)) /\
  M_PI < f_1 (snd (intersect_ranges (full_range true) bands true)).
Proof.
  intros g bands Hg Hfar.
  assert (Hnorm : normalize_ranges true (overlap (full_range true) bands)
                  = Fs4 (f_0 bands) (f_3 bands) 1 (-1)).
  { assert (Eo : overlap (full_range true) bands = bands) by reflexivity.
    rewrite Eo. unfold normalize_ranges.
    assert (E1 : union_apoapsis true bands = bands).
    { unfold union_apoapsis.
      assert (Ez : zero (f_0 bands + M_PI) = false)
        by (rewrite <- Hfar; apply zero_proper; reflexivity).
      rewrite Ez. reflexivity. }
    rewrite E1.
    assert (E2 : union_periapsis bands = Fs4 (f_0 bands) (f_3 bands) 1 (-1)).
    { unfold union_periapsis.
      assert (Ez : zero (f_1 bands - f_2 bands) = true)
        by (rewrite <- Hg; apply zero_proper; reflexivity).
      rewrite Ez. reflexivity. }
    rewrite E2. reflexivity. }
  unfold intersect_ranges; cbn [fst snd]. rewrite Hnorm.
  split; [reflexivity |]. split; [| reflexivity].
  unfold fs4_eq; cbn [f_0 f_1 f_2 f_3 bands]. repeat split; reflexivity.
Qed.

End RangesTolerance.

(** ** intercept_intersect: radial orbits *)

Section IntersectFacts.

Context {C : Collaborators}.

(** C8.  When one of the two orbits is radial, [intercept_intersect]
    returns 0 at once: the count is 0 and the output buffer holds what it
    held on entry (nothing is written).  The outcome is an ordinary return
    value, the count of ranges; no error is raised. *)
Theorem intercept_intersect_radial (orbit1 orbit2 : orbit) (threshold : double) (fs : fs4) :
  orbit_radial orbit1 = true \/ orbit_radial orbit2 = true ->
  intercept_intersect orbit1 orbit2 threshold fs = (0%Z, fs).
Proof.
  intros [H | H]; unfold intercept_intersect; rewrite H.
  - reflexivity.
  - rewrite orb_true_r. reflexivity.
Qed.

(** The count returned by [intercept_intersect] does not depend on what
    the output buffer holds on entry. *)
Lemma intercept_intersect_count (orbit1 orbit2 : orbit) (threshold : double) (fs fs' : fs4) :
  fst (intercept_intersect orbit1 orbit2 threshold fs) =
  fst (intercept_intersect orbit1 orbit2 threshold fs').
Proof.
  unfold intercept_intersect.
  destruct (orbit_radial orbit1 || orbit_radial orbit2); [reflexivity |].
  destruct (_ || _); reflexivity.
Qed.

(** When the count is not 0 the whole buffer was written, so its contents
    on return do not depend on its contents on entry either. *)
Lemma intercept_intersect_written (orbit1 orbit2 : orbit) (threshold : double) (fs fs' : fs4) :
  fst (intercept_intersect orbit1 orbit2 threshold fs) <> 0%Z ->
  snd (intercept_intersect orbit1 orbit2 threshold fs) =
  snd (intercept_intersect orbit1 orbit2 threshold fs').
Proof.
  unfold intercept_intersect.
  destruct (orbit_radial orbit1 || orbit_radial orbit2); [simpl; congruence |].
  destruct (_ || _); [simpl; congruence | reflexivity].
Qed.

End IntersectFacts.

(** ** intercept_search: the horizon, the step budget, the threshold branch *)

Section SearchFacts.

Context {C : Collaborators}.

Lemma search_step_horizon (env : search_env) (step : Z) (s : search) :
  st_end s <= st_end (fst (search_step env step s)).
Proof.
  unfold search_step.
  repeat match goal with
  | |- context [if ?b then _ else _] => destruct b
  | |- context [match prev_time s with _ => _ end] => destruct (prev_time s)
  end; cbn [fst leave advance_time st_end];
  first [ apply Qle_refl | apply fmax_ge_l
        | eapply Qle_trans; [apply fmax_ge_r | apply fmax_ge_l] ].
Qed.

Lemma search_loop_horizon (env : search_env) (todo : nat) :
  forall (step : Z) (s : search), st_end s <= st_end (search_loop env todo step s).
Proof.
  induction todo as [| todo IH]; intros step s; cbn [search_loop].
  - apply Qle_refl.
  - pose proof (search_step_horizon env step s) as H.
    destruct (search_step env step s) as [s' brk]; cbn [fst] in H.
    destruct brk; [exact H |].
    eapply Qle_trans; [exact H | apply IH].
Qed.

(** C10.  The value returned by [intercept_search] is at least [t1]: the
    horizon [t_end] starts at [t1] and every assignment to it is an [fmax]
    with its previous value.  Hence the loop condition [t < t_end] of a
    caller that resumes from the returned value is false.  This holds for
    every input, in particular when [t0 <= t1]. *)
Theorem intercept_search_consumes_interval (orbit1 orbit2 : orbit)
    (t0 t1 threshold target_distance : double) (max_steps : Z) :
  t1 <= fst (intercept_search orbit1 orbit2 t0 t1 threshold target_distance max_steps) /\
  (fst (intercept_search orbit1 orbit2 t0 t1 threshold target_distance max_steps) <? t1)
    = false.
Proof.
  assert (H : t1 <= fst (intercept_search orbit1 orbit2 t0 t1 threshold
                           target_distance max_steps)).
  { unfold intercept_search, search_run; cbn [fst].
    set (env := search_env_of _ _ _ _ _ _ _).
    change t1 with (st_end (search_init env)) at 1.
    apply search_loop_horizon. }
  split; [exact H | apply Qltb_ge; exact H].
Qed.

Lemma search_step_evals (env : search_env) (step : Z) (s : search) :
  evals (fst (search_step env step s)) = S (evals s).
Proof.
  unfold search_step.
  repeat match goal with
  | |- context [if ?b then _ else _] => destruct b
  | |- context [match prev_time s with _ => _ end] => destruct (prev_time s)
  end; reflexivity.
Qed.

Lemma search_loop_evals (env : search_env) (todo : nat) :
  forall (step : Z) (s : search),
    (evals (search_loop env todo step s) <= evals s + todo)%nat.
Proof.
  induction todo as [| todo IH]; intros step s; cbn [search_loop].
  - lia.
  - pose proof (search_step_evals env step s) as H.
    destruct (search_step env step s) as [s' brk]; cbn [fst] in H.
    destruct brk; [lia |].
    specialize (IH (step + 1)%Z s'). lia.
Qed.

(** The loop body runs at most [max_steps] times in one call. *)
Lemma search_evaluations_bound (orbit1 orbit2 : orbit)
    (t0 t1 threshold target_distance : double) (max_steps : Z) :
  (Z.of_nat (search_evaluations orbit1 orbit2 t0 t1 threshold target_distance max_steps)
     <= Z.max 0 max_steps)%Z.
Proof.
  unfold search_evaluations, search_run.
  set (env := search_env_of _ _ _ _ _ _ _).
  pose proof (search_loop_evals env (Z.to_nat max_steps) 0%Z (search_init env)) as H.
  cbn [search_init evals] in H. lia.
Qed.

(** The threshold branch (lines 399-403) at any pass of the loop: the pass
    leaves the loop, and the time is the time of the sample; the step [dt]
    assigned in the branch is not added to it. *)
Lemma search_step_below_threshold (env : search_env) (step : Z) (s : search) :
  let smp := evaluate env (st s) in
  let sgn := to_int (sign (s_vrel smp) * sign (s_dist smp - se_target_distance env)) in
  zero (square (s_dist smp - fmax 0 (se_target_distance env)) / square (se_threshold env))
    = false ->
  (sgn < 0)%Z ->
  s_dist smp < se_threshold env ->
  se_t0 env < st_end s ->
  search_step env step s = (leave s smp, true).
Proof.
  intros smp sgn Hz Hs Hd Ht. unfold search_step.
  fold smp. rewrite Hz. fold sgn.
  apply Z.ltb_lt in Hs. apply Qltb_lt in Hd, Ht.
  rewrite Hs, Hd, Ht. reflexivity.
Qed.

(** C5 (what the code does).  Let the first sample, taken at [t0], be
    approaching the target distance and closer than the threshold, with
    the termination test not yet satisfied.  Then [intercept_search] stops
    after this one sample and the time it records is [t0], the time of the
    sample: the linear-extrapolation step [(target_distance - dist) / vrel]
    is computed and dropped by the [break] that follows it. *)
Theorem intercept_search_threshold_step_dropped (orbit1 orbit2 : orbit)
    (t0 t1 threshold target_distance : double) (max_steps : Z) :
  let env := search_env_of orbit1 orbit2 t0 t1 threshold target_distance max_steps in
  let smp := evaluate env t0 in
  zero (square (s_dist smp - fmax 0 target_distance) / square threshold) = false ->
  (to_int (sign (s_vrel smp) * sign (s_dist smp - target_distance)) < 0)%Z ->
  s_dist smp < threshold ->
  t0 < t1 ->
  (0 < max_steps)%Z ->
  time (snd (intercept_search orbit1 orbit2 t0 t1 threshold target_distance max_steps))
    = t0 /\
  search_evaluations orbit1 orbit2 t0 t1 threshold target_distance max_steps = 1%nat.
Proof.
  intros env smp Hz Hs Hd Ht Hm.
  unfold intercept_search, search_evaluations, search_run. fold env.
  destruct (Z.to_nat max_steps) as [| todo] eqn:E; [lia |].
  cbn [search_loop].
  rewrite (search_step_below_threshold env 0%Z (search_init env) Hz Hs Hd Ht).
  split; reflexivity.
Qed.

End SearchFacts.

(** ** intercept_orbit: the early return and the ranges handed on *)

Section OrbitFacts.

Context {C : Collaborators}.

Lemma search_intervals_calls (orbit1 orbit2 : orbit) (threshold target_distance : double)
    (max_intercepts max_steps : Z) (times : list (double * double)) :
  forall (found : list intercept) (calls : list call),
  exists more,
    snd (search_intervals orbit1 orbit2 threshold target_distance max_intercepts
           max_steps times found calls) = calls ++ more /\
    Forall (fun c => exists t t', c = Call_search orbit1 orbit2 t t') more.
Proof.
  induction times as [| [t_begin t_end] rest IH]; intros found calls; cbn [search_intervals].
  - exists []. rewrite app_nil_r. split; [reflexivity | constructor].
  - destruct ((t_begin <? t_end) && _)%bool.
    + destruct (intercept_search _ _ _ _ _ _ _) as [r icpt].
      match goal with
      | |- context [search_intervals _ _ _ _ _ _ rest ?f ?c] =>
          destruct (IH f c) as (more & E & HF)
      end.
      exists (Call_search orbit1 orbit2 t_begin t_end :: more).
      rewrite E, <- app_assoc. split; [reflexivity |].
      constructor; [now exists t_begin, t_end | exact HF].
    + apply IH.
Qed.

(** C1 (what the code does).  When the Range Intersector yields zero
    ranges, [intercept_orbit] returns at once, having called neither
    [intercept_times] nor [intercept_search] and having written no record;
    but the value it returns is [t1] converted to int (line 484,
    [return t1;]), which is 0 only when [-1 < t1 < 1]. *)
Theorem intercept_orbit_no_ranges_returns_t1 (fuel : nat) (orbit1 orbit2 : orbit)
    (t0 t1 threshold target_distance : double) (max_intercepts max_steps : Z)
    (fs : fs4 * fs4) :
  fst (intercept_intersect orbit1 orbit2 threshold (fst fs)) = 0%Z ->
  intercept_orbit fuel orbit1 orbit2 t0 t1 threshold target_distance
      max_intercepts max_steps fs
    = Some (to_int t1, [], [Call_intersect orbit1 orbit2 threshold]).
Proof.
  intro H. unfold intercept_orbit.
  destruct (intercept_intersect orbit1 orbit2 threshold (fst fs)) as [n0 fs_lo].
  cbn [fst] in H. subst n0. reflexivity.
Qed.

(** C2 (what the code does).  When [intercept_orbit] gets past the two
    runs of the Range Intersector, both runs were
    [intercept_intersect(orbit1, orbit2, ...)] (line 483 does not swap the
    orbits for o = 1), and the eight doubles handed to [intercept_times]
    are the ranges of orbit1 with respect to orbit2 twice: the second four
    are a copy of the first four, not the ranges of orbit2's own true
    anomaly. *)
Theorem intercept_orbit_passes_orbit1_ranges_twice (fuel : nat) (orbit1 orbit2 : orbit)
    (t0 t1 threshold target_distance : double) (max_intercepts max_steps : Z)
    (fs : fs4 * fs4) (n : Z) (found : list intercept) (calls : list call) :
  fst (intercept_intersect orbit1 orbit2 threshold (fst fs)) <> 0%Z ->
  intercept_orbit fuel orbit1 orbit2 t0 t1 threshold target_distance
      max_intercepts max_steps fs = Some (n, found, calls) ->
  let ranges1 := snd (intercept_intersect orbit1 orbit2 threshold (fst fs)) in
  nth_error calls 0 = Some (Call_intersect orbit1 orbit2 threshold) /\
  nth_error calls 1 = Some (Call_intersect orbit1 orbit2 threshold) /\
  nth_error calls 2 =
    Some (Call_times orbit1 orbit2 t0 t1 (ranges1, ranges1) (4 * max_intercepts)).
Proof.
  intros Hn H ranges1. unfold intercept_orbit in H.
  pose proof (intercept_intersect_count orbit1 orbit2 threshold (fst fs) (snd fs)) as Hc.
  pose proof (intercept_intersect_written orbit1 orbit2 threshold (fst fs) (snd fs) Hn) as Hw.
  fold ranges1 in Hw.
  destruct (intercept_intersect orbit1 orbit2 threshold (fst fs)) as [n0 fs_lo].
  destruct (intercept_intersect orbit1 orbit2 threshold (snd fs)) as [n1 fs_hi].
  cbn [fst snd] in *. subst n1 fs_hi. subst ranges1.
  destruct (n0 =? 0)%Z eqn:E0; [apply Z.eqb_eq in E0; contradiction |].
  destruct (intercept_times fuel orbit1 orbit2 t0 t1 (fs_lo, fs_lo) (4 * max_intercepts))
    as [[ts times] |]; [| discriminate].
  destruct (Z.max 0 (4 * max_intercepts) <? 2 * ts)%Z; [discriminate |].
  match type of H with
  | context [search_intervals ?a ?b ?c ?d ?e ?f ?g ?h ?i] =>
      destruct (search_intervals_calls a b c d e f g h i) as (more & E & _);
      destruct (search_intervals a b c d e f g h i) as [fd cl]
  end.
  cbn [snd] in E. inversion H; subst. repeat split; reflexivity.
Qed.

Lemma search_intervals_found (orbit1 orbit2 : orbit) (threshold target_distance : double)
    (max_intercepts max_steps : Z) (times : list (double * double)) :
  forall (found : list intercept) (calls : list call),
    Forall (accepted threshold) found ->
    (Z.of_nat (length found) <= Z.max 0 max_intercepts)%Z ->
    let found' := fst (search_intervals orbit1 orbit2 threshold target_distance
                         max_intercepts max_steps times found calls) in
    Forall (accepted threshold) found' /\
    (Z.of_nat (length found') <= Z.max 0 max_intercepts)%Z.
Proof.
  induction times as [| [t_begin t_end] rest IH]; intros found calls HF HL;
    cbn [search_intervals].
  - split; assumption.
  - destruct ((t_begin <? t_end) && _)%bool eqn:Econd; [| now apply IH].
    apply andb_true_iff in Econd. destruct Econd as [_ Enum]. apply Z.ltb_lt in Enum.
    destruct (intercept_search _ _ _ _ _ _ _) as [r icpt].
    apply IH.
    + destruct (distance icpt) as [d |] eqn:Ed; [| exact HF].
      destruct (d <=? threshold) eqn:El; [| exact HF].
      apply Forall_app. split; [exact HF |].
      constructor; [| constructor]. exists d. split; [exact Ed | now apply Qleb_le].
    + destruct (distance icpt) as [d |]; [| exact HL].
      destruct (d <=? threshold); [| exact HL].
      rewrite length_app; cbn [length]. lia.
Qed.

(** X2.  Whenever [intercept_orbit] has a defined result (the walk of
    [intercept_times] returns and stays within the array [times]), the
    records it leaves in the caller's array are at most [max_intercepts]
    (none for a [max_intercepts] below 0), and each has a distance within
    the threshold. *)
Lemma intercept_orbit_records (fuel : nat) (orbit1 orbit2 : orbit)
    (t0 t1 threshold target_distance : double) (max_intercepts max_steps : Z)
    (fs : fs4 * fs4) (n : Z) (found : list intercept) (calls : list call) :
  intercept_orbit fuel orbit1 orbit2 t0 t1 threshold target_distance
      max_intercepts max_steps fs = Some (n, found, calls) ->
  Forall (accepted threshold) found /\
  (Z.of_nat (length found) <= Z.max 0 max_intercepts)%Z.
Proof.
  unfold intercept_orbit.
  destruct (intercept_intersect orbit1 orbit2 threshold (fst fs)) as [n0 fs_lo].
  destruct (n0 =? 0)%Z.
  { intro H; injection H as _ <- _. split; [constructor | cbn; lia]. }
  destruct (intercept_intersect orbit1 orbit2 threshold (snd fs)) as [n1 fs_hi].
  destruct (n1 =? 0)%Z.
  { intro H; injection H as _ <- _. split; [constructor | cbn; lia]. }
  destruct (intercept_times _ _ _ _ _ _ _) as [[ts times] |]; [| discriminate].
  destruct (Z.max 0 (4 * max_intercepts) <? 2 * ts)%Z; [discriminate |].
  match goal with
  | |- context [search_intervals ?a ?b ?c ?d ?e ?f ?g ?h ?i] =>
      pose proof (search_intervals_found a b c d e f g h i
                    (Forall_nil _) ltac:(cbn; lia)) as H;
      destruct (search_intervals a b c d e f g h i) as [fd cl]
  end.
  cbn [fst] in H. intro E; injection E as _ <- _. exact H.
Qed.

End OrbitFacts.

(** ** intercept_times: the merge walk *)

Section WalkFacts.

Context {C : Collaborators}.

Variable orbits : orbit * orbit.
Variable fs : fs4 * fs4.
Variable times : fs4 * fs4.
Variable periods : double * double.
Variables t0 t1 : double.

Local Abbreviation rend := (range_end times periods).
Local Abbreviation adv := (advance_pos fs).
Local Abbreviation tbeg := (step_begin times periods).
Local Abbreviation tend := (step_end times periods t1).
Local Abbreviation adv_orbit := (advancing times periods).

Lemma wrap_int_range (z : Z) : (INT_MIN <= wrap_int z <= INT_MAX)%Z.
Proof.
  unfold wrap_int, INT_MIN, INT_MAX.
  pose proof (Z.mod_pos_bound (z - -2147483648) (2 ^ 32) ltac:(reflexivity)) as H.
  change (2 ^ 32)%Z with 4294967296%Z in *. lia.
Qed.

Lemma wrap_int_fits (z : Z) : (INT_MIN <= z <= INT_MAX)%Z -> wrap_int z = z.
Proof.
  unfold wrap_int, INT_MIN, INT_MAX. intro H.
  rewrite Z.mod_small; [lia |]. change (2 ^ 32)%Z with 4294967296%Z. lia.
Qed.

(** The period counter of orbit o can be advanced without overflow. *)
Local Abbreviation can_count := (fun (w : walk) (o : nat) =>
  orbit_elliptic (sel2 orbits o) = true ->
  (INT_MIN <= snd (position_of w o) < INT_MAX)%Z).

Lemma walk_step_spec (w w' : walk) (brk : bool) :
  walk_step orbits fs times periods t0 t1 w = (w', brk) ->
  wt w' = fmax t0 (tend w) /\
  itimes w' = (if tbeg w <? tend w
               then record_interval (tbeg w) (tend w) (itimes w)
               else itimes w) /\
  position_of w' (other (adv_orbit w))
    = position_of w (other (adv_orbit w)) /\
  (brk = false -> can_count w (adv_orbit w) ->
   position_of w' (adv_orbit w)
     = adv (adv_orbit w) (position_of w (adv_orbit w))) /\
  (brk = true -> orbit_elliptic (sel2 orbits (adv_orbit w)) = false) /\
  (brk = false -> orbit_elliptic (sel2 orbits (adv_orbit w)) = false ->
   snd (position_of w' (adv_orbit w)) = snd (position_of w (adv_orbit w))).
Proof.
  unfold walk_step, step_begin, step_end, advancing, advance_pos, position_of, range_end.
  cbn [trange fst snd].
  set (e0 := at4 (sel2 times 0) (2 * sel2 (isect w) 0 + 1) + _).
  set (e1 := at4 (sel2 times 1) (2 * sel2 (isect w) 1 + 1) + _).
  destruct (e0 <? e1); cbn [sel2 set2 other fst snd].
  - destruct ((S (fst (isect w)) =? 2)%nat || _)%bool.
    + destruct (orbit_elliptic (fst orbits)); cbn [negb]; intro H; inversion H; subst;
        cbn [wt itimes isect n_orbit sel2 fst snd]; repeat split; try reflexivity;
        try discriminate; try (intros _; reflexivity).
      intros _ Hc. rewrite wrap_int_fits; [reflexivity |].
      specialize (Hc eq_refl). lia.
    + intro H; inversion H; subst.
      cbn [wt itimes isect n_orbit sel2 fst snd]; repeat split; try reflexivity;
        try discriminate.
  - destruct ((S (snd (isect w)) =? 2)%nat || _)%bool.
    + destruct (orbit_elliptic (snd orbits)); cbn [negb]; intro H; inversion H; subst;
        cbn [wt itimes isect n_orbit sel2 fst snd]; repeat split; try reflexivity;
        try discriminate; try (intros _; reflexivity).
      intros _ Hc. rewrite wrap_int_fits; [reflexivity |].
      specialize (Hc eq_refl). lia.
    + intro H; inversion H; subst.
      cbn [wt itimes isect n_orbit sel2 fst snd]; repeat split; try reflexivity;
        try discriminate.
Qed.

(** Whatever the counters do, the range index of the advancing orbit stays
    well formed. *)
Lemma walk_step_counter_range (w w' : walk) (brk : bool) :
  walk_step orbits fs times periods t0 t1 w = (w', brk) ->
  (forall o, (INT_MIN <= sel2 (n_orbit w) o <= INT_MAX)%Z) ->
  forall o, (INT_MIN <= sel2 (n_orbit w') o <= INT_MAX)%Z.
Proof.
  unfold walk_step. cbv zeta. intros H Hr.
  pose proof (Hr 0%nat) as R0. pose proof (Hr 1%nat) as R1. cbn [sel2] in R0, R1.
  pose proof (wrap_int_range (fst (n_orbit w) + 1)) as W0.
  pose proof (wrap_int_range (snd (n_orbit w) + 1)) as W1.
  destruct (snd (trange times periods w 0) <? snd (trange times periods w 1));
    cbn [sel2 set2] in H;
    match type of H with
    | context [((?a =? 2)%nat || ?b)%bool] => destruct ((a =? 2)%nat || b)%bool
    end;
    try match type of H with
    | context [negb ?c] => destruct c; cbn [negb] in H
    end;
    injection H as <- _; intros [| o]; cbn [n_orbit sel2 fst snd]; assumption.
Qed.

Hypothesis period0_nonneg : 0 <= fst periods.
Hypothesis period1_nonneg : 0 <= snd periods.

Lemma period_nonneg (o : nat) : 0 <= sel2 periods o.
Proof. destruct o; assumption. Qed.

Lemma of_int_succ (n : Z) : of_int (n + 1) == of_int n + 1.
Proof. unfold of_int. rewrite inject_Z_plus. reflexivity. Qed.

Lemma range_end_next_period (o i : nat) (n : Z) :
  rend o (i, n) <= rend o (i, (n + 1)%Z).
Proof.
  unfold range_end; cbn [fst snd]. pose proof (period_nonneg o) as Hp.
  rewrite of_int_succ. nra.
Qed.

(** Two advances lead to the same range one period later, or to the first
    range two periods later: never to an earlier end. *)
Lemma advance_twice_end (o : nat) (pos : nat * Z) :
  position_ok fs o pos -> rend o pos <= rend o (adv o (adv o pos)).
Proof.
  destruct pos as [i n]. intros [Hi Htwo]; cbn [fst snd] in *.
  assert (Hcase : i = 0%nat \/ i = 1%nat) by lia.
  destruct Hcase as [-> | ->].
  - unfold advance_pos at 2; cbn [fst snd Nat.eqb orb].
    destruct (at4 (sel2 fs o) (2 * 1 + 0) >=? at4 (sel2 fs o) (2 * 1 + 1)) eqn:E.
    + unfold advance_pos; cbn [fst snd Nat.eqb orb]. rewrite E.
      eapply Qle_trans; apply range_end_next_period.
    + unfold advance_pos; cbn [fst snd Nat.eqb orb].
      apply range_end_next_period.
  - specialize (Htwo eq_refl).
    unfold advance_pos at 2; cbn [fst snd Nat.eqb orb].
    unfold advance_pos; cbn [fst snd Nat.eqb orb].
    assert (E : (at4 (sel2 fs o) (2 * 1 + 0) >=? at4 (sel2 fs o) (2 * 1 + 1)) = false)
      by (apply Qleb_gt; exact Htwo).
    rewrite E. apply range_end_next_period.
Qed.

Lemma position_ok_advance (o : nat) (pos : nat * Z) :
  position_ok fs o pos -> position_ok fs o (adv o pos).
Proof.
  destruct pos as [i n]. intros [Hi _]; cbn [fst snd] in *.
  unfold advance_pos; cbn [fst snd].
  destruct ((S i =? 2)%nat || _)%bool eqn:E; split; cbn [fst snd]; try lia.
  - apply orb_false_iff in E. destruct E as [E _]. apply Nat.eqb_neq in E. lia.
  - intro Hi1. apply orb_false_iff in E. destruct E as [_ E].
    assert (i = 0%nat) by lia. subst i. apply Qleb_gt in E. exact E.
Qed.

Lemma step_end_le_t1 (w : walk) : tend w <= t1.
Proof. apply fmin_le_l. Qed.

Lemma step_end_le_0 (w : walk) : tend w <= rend 0 (position_of w 0).
Proof. eapply Qle_trans; [apply fmin_le_r | apply fmin_le_l]. Qed.

Lemma step_end_le_1 (w : walk) : tend w <= rend 1 (position_of w 1).
Proof. eapply Qle_trans; [apply fmin_le_r | apply fmin_le_r]. Qed.

Lemma step_begin_ge_t (w : walk) : wt w <= tbeg w.
Proof. apply fmax_ge_l. Qed.

(** The end of the overlap is the window end or one of the two range
    ends, so it lies after anything all three lie after. *)
Lemma step_end_gt (w : walk) (b : double) :
  b < t1 -> b < rend 0 (position_of w 0) -> b < rend 1 (position_of w 1) ->
  b < tend w.
Proof.
  intros H H0 H1. unfold step_end.
  destruct (fmin_spec t1 (fmin (rend 0 (position_of w 0)) (rend 1 (position_of w 1))))
    as [[_ ->] | [_ ->]]; [exact H |].
  destruct (fmin_spec (rend 0 (position_of w 0)) (rend 1 (position_of w 1)))
    as [[_ ->] | [_ ->]]; assumption.
Qed.

(** A non-empty overlap ends after the begin of the last written
    interval: merging into that interval keeps it non-empty. *)
Lemma overlap_after_last_begin (w : walk) (b : double) :
  ahead_of fs times periods w b -> b < t1 -> tbeg w < tend w -> b < tend w.
Proof.
  intros (_ & _ & _ & H30 & H31) Hb Hne.
  pose proof (step_begin_ge_t w) as Ht.
  pose proof (step_end_le_0 w) as L0. pose proof (step_end_le_1 w) as L1.
  apply step_end_gt; [exact Hb | |].
  - destruct (Qlt_le_dec b (rend 0 (position_of w 0))) as [? | Hle]; [assumption |].
    specialize (H30 Hle). lra.
  - destruct (Qlt_le_dec b (rend 1 (position_of w 1))) as [? | Hle]; [assumption |].
    specialize (H31 Hle). lra.
Qed.

Lemma descending_head_lt_t1 (b e : double) (rest : list (double * double)) :
  descending t0 t1 ((b, e) :: rest) -> b < t1.
Proof.
  cbn [descending]. unfold interval_in_window; cbn [fst snd].
  intros ((_ & H1 & H2) & _). lra.
Qed.

(** Lines 226-238 keep the written intervals in order. *)
Lemma record_interval_descending (w : walk) :
  t0 <= wt w ->
  descending t0 t1 (itimes w) ->
  match itimes w with
  | (b, _) :: _ => ahead_of fs times periods w b
  | [] => True
  end ->
  tbeg w < tend w ->
  descending t0 t1 (record_interval (tbeg w) (tend w) (itimes w)).
Proof.
  intros Ht Hd Hh Hne.
  pose proof (step_begin_ge_t w) as Hb. pose proof (step_end_le_t1 w) as He.
  unfold record_interval.
  destruct (itimes w) as [| [b e] rest] eqn:E.
  - cbn [descending]. unfold interval_in_window; cbn [fst snd].
    repeat split; try assumption. lra.
  - pose proof (descending_head_lt_t1 b e rest Hd) as Hbt.
    pose proof (overlap_after_last_begin w b Hh Hbt Hne) as Hkey.
    destruct ((tbeg w <=? e) || zero (tbeg w - e))%bool eqn:Em.
    + cbn [descending] in *. unfold interval_in_window in *; cbn [fst snd] in *.
      destruct Hd as ((H1 & H2 & H3) & Hc & Hr).
      repeat split; try assumption.
    + apply orb_false_iff in Em. destruct Em as [Em _]. apply Qleb_gt in Em.
      cbn [descending] in *. unfold interval_in_window in *; cbn [fst snd] in *.
      repeat split; try apply Hd; try assumption. lra.
Qed.

(** The begin of the head of the written intervals after recording. *)
Lemma record_interval_head (tb te : double) (out : list (double * double)) :
  exists b e rest,
    record_interval tb te out = (b, e) :: rest /\
    (b = tb \/ exists e' rest', out = (b, e') :: rest').
Proof.
  unfold record_interval. destruct out as [| [b e] rest].
  - exists tb, te, []. split; [reflexivity | now left].
  - destruct (_ || _)%bool.
    + exists b, te, rest. split; [reflexivity |]. right. now exists e, rest.
    + exists tb, te, ((b, e) :: rest). split; [reflexivity | now left].
Qed.

(** A fresh interval begins before both current range ends. *)
Lemma ahead_of_fresh (w : walk) :
  tbeg w < tend w -> ahead_of fs times periods w (tbeg w).
Proof.
  intro Hne.
  pose proof (step_end_le_0 w) as L0. pose proof (step_end_le_1 w) as L1.
  unfold ahead_of. repeat split; try (left; lra); intro; lra.
Qed.

(** One iteration that does not leave the loop keeps the walk ahead of
    a begin it was ahead of. *)
Lemma ahead_of_step (w w' : walk) (b : double) :
  position_ok fs 0 (position_of w 0) ->
  position_ok fs 1 (position_of w 1) ->
  ahead_of fs times periods w b -> b < t1 ->
  can_count w (adv_orbit w) ->
  walk_step orbits fs times periods t0 t1 w = (w', false) ->
  ahead_of fs times periods w' b.
Proof.
  intros ok0 ok1 (H1 & H20 & H21 & H30 & H31) Hb Hc Hstep.
  destruct (walk_step_spec w w' false Hstep) as (Ht & _ & Hother & Hadv & _).
  specialize (Hadv eq_refl Hc).
  pose proof (advance_twice_end 0 _ ok0) as A0.
  pose proof (advance_twice_end 1 _ ok1) as A1.
  assert (Hw : tend w <= wt w') by (rewrite Ht; apply fmax_ge_r).
  unfold advancing in Hother, Hadv.
  destruct (rend 0 (position_of w 0) <? rend 1 (position_of w 1)) eqn:E;
    cbn [other] in Hother; cmp_to_prop.
  - (* orbit 0 advances; the range of orbit 1 ends after b *)
    assert (Hb1 : b < rend 1 (position_of w 1)) by (destruct H1; lra).
    unfold ahead_of. rewrite Hother, Hadv.
    repeat split.
    + now right.
    + destruct H20 as [H | H]; [right; lra | now left].
    + now left.
    + intro Hle. assert (Hb0 : b < rend 0 (position_of w 0)) by (destruct H20; lra).
      pose proof (step_end_gt w b Hb Hb0 Hb1). lra.
    + intro Hle. lra.
  - (* orbit 1 advances; the range of orbit 0 ends after b *)
    assert (Hb0 : b < rend 0 (position_of w 0)) by (destruct H1; lra).
    unfold ahead_of. rewrite Hother, Hadv.
    repeat split.
    + now left.
    + now left.
    + destruct H21 as [H | H]; [right; lra | now left].
    + intro Hle. lra.
    + intro Hle. assert (Hb1 : b < rend 1 (position_of w 1)) by (destruct H21; lra).
      pose proof (step_end_gt w b Hb Hb0 Hb1). lra.
Qed.

Local Abbreviation inv := (walk_inv fs times periods t0 t1).

(** Whatever the iteration does afterwards, the intervals it leaves in
    the array are in order. *)
Lemma walk_step_descending (w w' : walk) (brk : bool) :
  inv w ->
  walk_step orbits fs times periods t0 t1 w = (w', brk) ->
  descending t0 t1 (itimes w').
Proof.
  intros (ok0 & ok1 & Ht & Hd & Hh) Hstep.
  destruct (walk_step_spec w w' brk Hstep) as (_ & Hout & _).
  rewrite Hout. destruct (tbeg w <? tend w) eqn:E; [| exact Hd].
  apply record_interval_descending; try assumption. now apply Qltb_lt.
Qed.

(** The loop invariant is kept by an iteration that stays in the loop. *)
Lemma walk_step_inv (w w' : walk) :
  inv w ->
  can_count w (adv_orbit w) ->
  walk_step orbits fs times periods t0 t1 w = (w', false) ->
  inv w'.
Proof.
  intros Hinv Hc Hstep.
  pose proof (walk_step_descending w w' false Hinv Hstep) as Hd'.
  destruct Hinv as (ok0 & ok1 & Ht & Hd & Hh).
  destruct (walk_step_spec w w' false Hstep) as (Hwt & Hout & Hother & Hadv & _).
  specialize (Hadv eq_refl Hc).
  unfold walk_inv. split; [| split; [| split; [| split]]].
  - (* position of orbit 0 *)
    unfold advancing in Hother, Hadv.
    destruct (rend 0 (position_of w 0) <? rend 1 (position_of w 1));
      cbn [other] in Hother.
    + rewrite Hadv. apply position_ok_advance, ok0.
    + rewrite Hother. apply ok0.
  - unfold advancing in Hother, Hadv.
    destruct (rend 0 (position_of w 0) <? rend 1 (position_of w 1));
      cbn [other] in Hother.
    + rewrite Hother. apply ok1.
    + rewrite Hadv. apply position_ok_advance, ok1.
  - rewrite Hwt. apply fmax_ge_l.
  - exact Hd'.
  - (* the head of the written intervals *)
    destruct (itimes w') as [| [b' e'] rest'] eqn:E'; [exact I |].
    pose proof (descending_head_lt_t1 b' e' rest' Hd') as Hb't1.
    apply (ahead_of_step w w' b' ok0 ok1); [| exact Hb't1 | exact Hc | exact Hstep].
    clear E'.
    destruct (tbeg w <? tend w) eqn:Ene.
    + apply Qltb_lt in Ene.
      destruct (record_interval_head (tbeg w) (tend w) (itimes w))
        as (b & e & rest & Er & Hb).
      rewrite Er in Hout. injection Hout as Eb Ee Erest. subst b' e' rest'.
      destruct Hb as [-> | (e0 & rest0 & Eold)].
      * apply ahead_of_fresh, Ene.
      * rewrite Eold in Hh. exact Hh.
    + rewrite <- Hout in Hh. exact Hh.
Qed.

Lemma record_interval_length (tb te : double) (out : list (double * double)) :
  (length (record_interval tb te out) <= S (length out))%nat.
Proof.
  unfold record_interval. destruct out as [| [b e] rest]; cbn [length]; [lia |].
  destruct (_ || _)%bool; cbn [length]; lia.
Qed.

Lemma walk_step_count (w w' : walk) (brk : bool) :
  walk_step orbits fs times periods t0 t1 w = (w', brk) ->
  (num_times w' <= num_times w + 1)%Z.
Proof.
  intro Hstep. destruct (walk_step_spec w w' brk Hstep) as (_ & Hout & _).
  unfold num_times. rewrite Hout.
  destruct (tbeg w <? tend w); [| lia].
  pose proof (record_interval_length (tbeg w) (tend w) (itimes w)). lia.
Qed.


End WalkFacts.

(** ** intercept_times: the merge walk terminates *)

Section WalkTermination.

Context {C : Collaborators}.

Variable orbits : orbit * orbit.
Variable fs : fs4 * fs4.
Variable times : fs4 * fs4.
Variable periods : double * double.
Variables t0 t1 : double.
Variable max_times : Z.

(** Period numbers from which every range of an orbit that goes round
    ends at or after [t1]. *)
Variables nstar0 nstar1 : Z.

Local Abbreviation rend := (range_end times periods).
Local Abbreviation adv := (advance_pos fs).
Local Abbreviation tend := (step_end times periods t1).
Local Abbreviation adv_orbit := (advancing times periods).
Local Abbreviation nstar := (fun o : nat => sel2 (nstar0, nstar1) o).

Hypothesis late0 : orbit_elliptic (fst orbits) = true ->
  forall (i : nat) (n : Z), (nstar0 <= n)%Z -> t1 <= rend 0 (i, n).
Hypothesis late1 : orbit_elliptic (snd orbits) = true ->
  forall (i : nat) (n : Z), (nstar1 <= n)%Z -> t1 <= rend 1 (i, n).

(** An orbit that goes round gets there before its counter overflows. *)
Hypothesis bound0 : orbit_elliptic (fst orbits) = true -> (nstar0 < INT_MAX)%Z.
Hypothesis bound1 : orbit_elliptic (snd orbits) = true -> (nstar1 < INT_MAX)%Z.

Local Abbreviation term_inv := (walk_term_inv fs orbits nstar0 nstar1).
Local Abbreviation to_go := (walk_to_go nstar0 nstar1).
Local Abbreviation counters := (walk_counters orbits nstar0 nstar1).

Lemma advance_pos_counter (o : nat) (pos : nat * Z) :
  (snd pos <= snd (adv o pos) <= snd pos + 1)%Z.
Proof.
  unfold advance_pos. destruct (_ || _)%bool; cbn [snd]; lia.
Qed.

Lemma advancing_cases (w : walk) : adv_orbit w = 0%nat \/ adv_orbit w = 1%nat.
Proof. unfold advancing. destruct (_ <? _); [now left | now right]. Qed.

Lemma counters_can_count (w : walk) (o : nat) :
  (o = 0 \/ o = 1)%nat -> counters w ->
  orbit_elliptic (sel2 orbits o) = true ->
  (INT_MIN <= snd (position_of w o) < INT_MAX)%Z.
Proof.
  intros Ho (R0 & R1 & B0 & B1) E.
  destruct Ho as [-> | ->]; cbn [sel2 position_of fst snd] in *.
  - specialize (B0 E). specialize (bound0 E). lia.
  - specialize (B1 E). specialize (bound1 E). lia.
Qed.

Lemma periods_to_go_advance (o : nat) (N : Z) (pos : nat * Z) :
  position_ok fs o pos -> (snd pos < N)%Z ->
  (periods_to_go N (adv o pos) < periods_to_go N pos)%nat.
Proof.
  destruct pos as [i n]. intros [Hi _] Hn; cbn [fst snd] in *.
  unfold advance_pos, periods_to_go; cbn [fst snd].
  destruct ((S i =? 2)%nat || _)%bool eqn:E; cbn [fst snd]; [lia |].
  apply orb_false_iff in E. destruct E as [E _]. apply Nat.eqb_neq in E. lia.
Qed.

(** An orbit whose current range ends before [t1] has advances left. *)
Lemma early_range_has_to_go (w : walk) (o : nat) :
  (o = 0 \/ o = 1)%nat -> term_inv w ->
  rend o (position_of w o) < t1 ->
  (snd (position_of w o) < nstar o)%Z.
Proof.
  intros Ho (_ & _ & H0 & H1) Hend.
  destruct Ho as [-> | ->]; cbn [sel2 fst snd] in *.
  - destruct (orbit_elliptic (fst orbits)) eqn:E; [| now apply H0].
    destruct (Z.lt_ge_cases (fst (n_orbit w)) nstar0) as [? | Hge];
      [assumption |].
    pose proof (late0 eq_refl (fst (isect w)) (fst (n_orbit w)) Hge) as Hl.
    unfold position_of in Hend; cbn [sel2] in Hend. lra.
  - destruct (orbit_elliptic (snd orbits)) eqn:E; [| now apply H1].
    destruct (Z.lt_ge_cases (snd (n_orbit w)) nstar1) as [? | Hge]; [assumption |].
    pose proof (late1 eq_refl (snd (isect w)) (snd (n_orbit w)) Hge) as Hl.
    unfold position_of in Hend; cbn [sel2] in Hend. lra.
Qed.

Lemma walk_loop_done (fuel : nat) (w : walk) :
  t1 <= wt w ->
  walk_loop fuel orbits fs times periods t0 t1 max_times w = Some w.
Proof.
  intro H. apply Qltb_ge in H.
  destruct fuel; cbn [walk_loop]; rewrite H; reflexivity.
Qed.

(** When both current ranges end at or after [t1], the iteration moves
    the time to [t1] or beyond. *)
Lemma walk_step_exit (w w1 : walk) (brk : bool) :
  walk_step orbits fs times periods t0 t1 w = (w1, brk) ->
  t1 <= rend 0 (position_of w 0) -> t1 <= rend 1 (position_of w 1) ->
  t1 <= wt w1.
Proof.
  intros Hstep H0 H1.
  destruct (walk_step_spec orbits fs times periods t0 t1 w w1 brk Hstep) as (Ht & _).
  rewrite Ht. unfold step_end.
  rewrite (fmin_left t1).
  - apply fmax_ge_r.
  - destruct (fmin_spec (rend 0 (position_of w 0)) (rend 1 (position_of w 1)))
      as [[_ ->] | [_ ->]]; assumption.
Qed.

(** The orbit that advances is one whose range ends first. *)
Lemma advancing_min (w : walk) :
  rend (adv_orbit w) (position_of w (adv_orbit w)) <= rend 0 (position_of w 0) /\
  rend (adv_orbit w) (position_of w (adv_orbit w)) <= rend 1 (position_of w 1).
Proof.
  unfold advancing.
  destruct (rend 0 (position_of w 0) <? rend 1 (position_of w 1)) eqn:E;
    cmp_to_prop; split; lra.
Qed.

(** A range that ends before [t1] is in a period before [nstar]. *)
Lemma early_range_not_late (w : walk) (o : nat) :
  (o = 0 \/ o = 1)%nat ->
  orbit_elliptic (sel2 orbits o) = true ->
  rend o (position_of w o) < t1 ->
  (snd (position_of w o) < nstar o)%Z.
Proof.
  intros Ho E Hend.
  destruct Ho as [-> | ->]; cbn [sel2 fst snd] in *.
  - destruct (Z.lt_ge_cases (fst (n_orbit w)) nstar0) as [? | Hge]; [assumption |].
    pose proof (late0 E (fst (isect w)) (fst (n_orbit w)) Hge) as Hl.
    unfold position_of in Hend; cbn [sel2] in Hend. lra.
  - destruct (Z.lt_ge_cases (snd (n_orbit w)) nstar1) as [? | Hge]; [assumption |].
    pose proof (late1 E (snd (isect w)) (snd (n_orbit w)) Hge) as Hl.
    unfold position_of in Hend; cbn [sel2] in Hend. lra.
Qed.

(** An iteration that stays in the loop and leaves a range that ends
    before [t1] keeps the counters below their bounds. *)
Lemma walk_step_counters (w w1 : walk) :
  counters w ->
  walk_step orbits fs times periods t0 t1 w = (w1, false) ->
  rend (adv_orbit w) (position_of w (adv_orbit w)) < t1 ->
  counters w1.
Proof.
  intros Hc Hstep Hlt.
  pose proof (counters_can_count w (adv_orbit w) (advancing_cases w) Hc) as Hcan.
  pose proof (early_range_not_late w (adv_orbit w) (advancing_cases w)) as Hearly.
  destruct (walk_step_spec orbits fs times periods t0 t1 w w1 false Hstep)
    as (_ & _ & Hother & Hadv & _ & Hopen).
  specialize (Hadv eq_refl Hcan). specialize (Hopen eq_refl).
  assert (Hr : forall o, (INT_MIN <= sel2 (n_orbit w1) o <= INT_MAX)%Z).
  { apply (walk_step_counter_range orbits fs times periods t0 t1 w w1 false Hstep).
    destruct Hc as (R0 & R1 & _). intros [| o]; cbn [sel2]; assumption. }
  pose proof (Hr 0%nat) as R0'. pose proof (Hr 1%nat) as R1'. cbn [sel2] in R0', R1'.
  pose proof (advance_pos_counter (adv_orbit w) (position_of w (adv_orbit w))) as Hstep1.
  rewrite <- Hadv in Hstep1.
  destruct Hc as (_ & _ & B0 & B1).
  unfold walk_counters. split; [exact R0' |]. split; [exact R1' |].
  destruct (advancing_cases w) as [Ea | Ea]; rewrite Ea in *;
    cbn [other sel2 position_of fst snd] in *.
  - split.
    + intro E. specialize (Hearly E Hlt). lia.
    + intro E. injection Hother as _ ->. exact (B1 E).
  - split.
    + intro E. injection Hother as _ ->. exact (B0 E).
    + intro E. specialize (Hearly E Hlt). lia.
Qed.

(** An iteration that stays in the loop keeps the invariant, and uses up
    one advance when the range it leaves ends before [t1]. *)
Lemma walk_step_term (w w1 : walk) :
  term_inv w -> counters w ->
  walk_step orbits fs times periods t0 t1 w = (w1, false) ->
  term_inv w1 /\
  (rend (adv_orbit w) (position_of w (adv_orbit w)) < t1 -> (to_go w1 < to_go w)%nat).
Proof.
  intros Hinv Hc Hstep.
  pose proof (counters_can_count w (adv_orbit w) (advancing_cases w) Hc) as Hcan.
  destruct (walk_step_spec orbits fs times periods t0 t1 w w1 false Hstep)
    as (_ & _ & Hother & Hadv & _ & Hopen).
  specialize (Hadv eq_refl Hcan). specialize (Hopen eq_refl).
  pose proof (early_range_has_to_go w 0 (or_introl eq_refl) Hinv) as G0.
  pose proof (early_range_has_to_go w 1 (or_intror eq_refl) Hinv) as G1.
  destruct Hinv as (ok0 & ok1 & N0 & N1).
  unfold walk_to_go.
  destruct (adv_orbit w) eqn:Ea; cbn [other sel2 fst snd] in *.
  - rewrite Hother. split.
    + unfold walk_term_inv. rewrite Hother, Hadv.
      split; [apply position_ok_advance, ok0 |].
      split; [exact ok1 |].
      split; [| exact N1].
      intro E. rewrite <- Hadv, (Hopen E). exact (N0 E).
    + intro Hlt. rewrite Hadv.
      pose proof (periods_to_go_advance 0 nstar0 _ ok0 (G0 Hlt)). lia.
  - assert (En : adv_orbit w = 1%nat).
    { unfold advancing in *. destruct (_ <? _); [discriminate | reflexivity]. }
    rewrite Ea in En. rewrite En in *. cbn [other sel2 fst snd] in *.
    rewrite Hother. split.
    + unfold walk_term_inv. rewrite Hother, Hadv.
      split; [exact ok0 |].
      split; [apply position_ok_advance, ok1 |].
      split; [exact N0 |].
      intro E. rewrite <- Hadv, (Hopen E). exact (N1 E).
    + intro Hlt. rewrite Hadv.
      pose proof (periods_to_go_advance 1 nstar1 _ ok1 (G1 Hlt)). lia.
Qed.

(** With more fuel than advances left, the loop returns. *)
Lemma walk_loop_terminates (fuel : nat) :
  forall w : walk,
    term_inv w -> counters w -> (to_go w < fuel)%nat ->
    exists w', walk_loop fuel orbits fs times periods t0 t1 max_times w = Some w'.
Proof.
  induction fuel as [| fuel IH]; intros w Hinv Hc Hfuel; [lia |].
  cbn [walk_loop].
  destruct ((wt w <? t1) && (num_times w <? max_times)%Z)%bool;
    [| eexists; reflexivity].
  destruct (walk_step orbits fs times periods t0 t1 w) as [w1 brk] eqn:Estep.
  destruct brk; [eexists; reflexivity |].
  destruct (walk_step_term w w1 Hinv Hc Estep) as [Hinv1 Hdec].
  destruct (Qlt_le_dec (rend (adv_orbit w) (position_of w (adv_orbit w))) t1)
    as [Hlt | Hge].
  - apply IH; [exact Hinv1 | exact (walk_step_counters w w1 Hc Estep Hlt) |].
    specialize (Hdec Hlt). lia.
  - exists w1. apply walk_loop_done.
    destruct (advancing_min w) as [M0 M1].
    apply (walk_step_exit w w1 false Estep); lra.
Qed.

Hypothesis periods0 : 0 <= fst periods.
Hypothesis periods1 : 0 <= snd periods.

(** The loop: on exit the intervals are in order and their number is at
    most [max_times] (or what it was on entry, if that was more). *)
Lemma walk_loop_inv (fuel : nat) :
  forall w w' : walk,
    walk_inv fs times periods t0 t1 w -> counters w ->
    walk_loop fuel orbits fs times periods t0 t1 max_times w = Some w' ->
    descending t0 t1 (itimes w') /\
    (num_times w' <= Z.max (num_times w) max_times)%Z.
Proof.
  induction fuel as [| fuel IH]; intros w w' Hinv Hc; cbn [walk_loop];
    destruct ((wt w <? t1) && (num_times w <? max_times)%Z)%bool eqn:Econd;
    try discriminate.
  - intro H; inversion H; subst. split; [apply Hinv | lia].
  - destruct (walk_step orbits fs times periods t0 t1 w) as [w1 brk] eqn:Estep.
    apply andb_true_iff in Econd. destruct Econd as [_ Enum]. apply Z.ltb_lt in Enum.
    pose proof (walk_step_count orbits fs times periods t0 t1 w w1 brk Estep) as Hcount.
    pose proof (walk_step_descending orbits fs times periods t0 t1 w w1 brk Hinv Estep)
      as Hd1.
    destruct brk.
    + intro H; inversion H; subst. split; [exact Hd1 | lia].
    + pose proof (counters_can_count w (adv_orbit w) (advancing_cases w) Hc) as Hcan.
      destruct (Qlt_le_dec (rend (adv_orbit w) (position_of w (adv_orbit w))) t1)
        as [Hlt | Hge].
      * intro H.
        destruct (IH w1 w'
                    (walk_step_inv orbits fs times periods t0 t1 periods0 periods1
                       w w1 Hinv Hcan Estep)
                    (walk_step_counters w w1 Hc Estep Hlt) H) as [Hd Hn].
        split; [exact Hd | lia].
      * rewrite walk_loop_done.
        -- intro H; inversion H; subst. split; [exact Hd1 | lia].
        -- destruct (advancing_min w) as [M0 M1].
           apply (walk_step_exit w w1 false Estep); lra.
  - intro H; inversion H; subst. split; [apply Hinv | lia].
Qed.

End WalkTermination.

(** ** intercept_times: the intervals written *)

Lemma descending_older (t0 t1 : double) (l : list (double * double)) :
  descending t0 t1 l ->
  match l with
  | [] => True
  | iv :: rest => forall b, In b rest -> snd b < fst iv
  end.
Proof.
  induction l as [| iv rest IH]; [trivial |].
  intros (Hiv & Hc & Hr) b Hin. specialize (IH Hr).
  destruct rest as [| older rest']; [contradiction |].
  destruct Hin as [<- | Hin]; [exact Hc |].
  specialize (IH b Hin).
  cbn [descending] in Hr. destruct Hr as ((_ & Ho & _) & _). lra.
Qed.

Lemma descending_window (t0 t1 : double) (l : list (double * double)) :
  descending t0 t1 l -> Forall (interval_in_window t0 t1) l.
Proof.
  induction l as [| iv rest IH]; intro H; constructor.
  - apply H.
  - apply IH, H.
Qed.

Lemma pairwise_before_snoc (l : list (double * double)) (x : double * double) :
  pairwise_before l -> (forall a, In a l -> snd a < fst x) ->
  pairwise_before (l ++ [x]).
Proof.
  intros Hl Hx i j a b Hij Ha Hb.
  destruct (Nat.lt_ge_cases j (length l)) as [Hj | Hj].
  - rewrite nth_error_app1 in Ha, Hb by lia. exact (Hl i j a b Hij Ha Hb).
  - rewrite nth_error_app2 in Hb by lia.
    destruct (j - length l)%nat as [| k] eqn:Ek.
    + cbn in Hb. injection Hb as <-.
      rewrite nth_error_app1 in Ha by lia.
      apply Hx. eapply nth_error_In, Ha.
    + destruct k; discriminate Hb.
Qed.

(** In array order the written intervals are pairwise disjoint and
    ascending. *)
Lemma descending_rev (t0 t1 : double) (l : list (double * double)) :
  descending t0 t1 l ->
  Forall (interval_in_window t0 t1) (rev l) /\ pairwise_before (rev l).
Proof.
  intro H. split.
  - apply Forall_rev, descending_window, H.
  - induction l as [| iv rest IH].
    + intros i j a b _ Ha. destruct i; discriminate Ha.
    + cbn [rev]. apply pairwise_before_snoc.
      * apply IH, H.
      * intros a Ha. apply in_rev in Ha.
        exact (descending_older t0 t1 (iv :: rest) H a Ha).
Qed.

Section TimesFacts.

Context {C : Collaborators}.

Lemma orbit_times_period (mu t0 t1 : double) (o : orbit) (fs : fs4) :
  mean_motion_positive mu o ->
  0 <= snd (fst (orbit_times mu t0 t1 o fs)).
Proof.
  intro Hn. unfold orbit_times, mean_motion_positive in *.
  destruct (conic_closed (orbit_eccentricity o)); cbn [fst snd]; [| apply Qle_refl].
  specialize (Hn eq_refl). pose proof M_PI_pos.
  apply Qle_shift_div_l; [exact Hn | lra].
Qed.

(** The loop invariant holds on entry. *)
Lemma walk_init_inv (orbit1 orbit2 : orbit) (t0 t1 : double) (fs : fs4 * fs4) :
  mean_motion_positive (orbit_gravity_parameter orbit1) orbit1 ->
  mean_motion_positive (orbit_gravity_parameter orbit1) orbit2 ->
  let '(times, periods, w0) := walk_init orbit1 orbit2 t0 t1 fs in
  walk_inv fs times periods t0 t1 w0 /\ 0 <= fst periods /\ 0 <= snd periods.
Proof.
  intros H1 H2. unfold walk_init.
  pose proof (orbit_times_period _ t0 t1 orbit1 (fst fs) H1) as P1.
  pose proof (orbit_times_period _ t0 t1 orbit2 (snd fs) H2) as P2.
  destruct (orbit_times _ t0 t1 orbit1 (fst fs)) as [[times0 per0] n0].
  destruct (orbit_times _ t0 t1 orbit2 (snd fs)) as [[times1 per1] n1].
  cbn [fst snd] in *. split; [| split; assumption].
  unfold walk_inv, position_ok, position_of; cbn [isect n_orbit wt itimes sel2 fst snd].
  repeat split; try lia; try discriminate; try apply Qle_refl.
Qed.

Lemma orbit_times_counter_range (mu t0 t1 : double) (o : orbit) (fs : fs4) :
  (INT_MIN <= snd (orbit_times mu t0 t1 o fs) <= INT_MAX)%Z.
Proof.
  unfold orbit_times.
  destruct (conic_closed (orbit_eccentricity o)); cbn [snd];
    [apply to_int_range | unfold INT_MIN, INT_MAX; lia].
Qed.

(** From the period number of [period_counter_fits] on, every range of the
    orbit ends at or after t1. *)
Lemma period_counter_late (mu t0 t1 : double) (o : orbit) (fs : fs4) :
  mean_motion_positive mu o -> period_counter_fits mu t0 t1 o fs ->
  exists N : Z,
    (orbit_elliptic o = true ->
     (snd (orbit_times mu t0 t1 o fs) <= N < INT_MAX)%Z) /\
    (orbit_elliptic o = true ->
     forall (i : nat) (n : Z), (N <= n)%Z ->
       t1 <= at4 (fst (fst (orbit_times mu t0 t1 o fs))) (2 * i + 1)
             + of_int n * snd (fst (orbit_times mu t0 t1 o fs))) /\
    (orbit_elliptic o = false -> (snd (orbit_times mu t0 t1 o fs) < N)%Z).
Proof.
  intros Hn Hfit. pose proof (orbit_times_period mu t0 t1 o fs Hn) as HP.
  destruct (orbit_elliptic o) eqn:E.
  - destruct (Hfit E) as (N & HN & H1 & H3). cbv zeta in H1, H3.
    exists N. split; [intros _; exact HN |]. split; [| discriminate].
    intros _ i n Hle.
    assert (Hz : of_int N <= of_int n) by (unfold of_int; rewrite <- Zle_Qle; exact Hle).
    set (P := snd (fst (orbit_times mu t0 t1 o fs))) in *.
    assert (Hm : of_int N * P <= of_int n * P) by nra.
    destruct (at4_odd (fst (fst (orbit_times mu t0 t1 o fs))) i) as [-> | ->]; lra.
  - exists (snd (orbit_times mu t0 t1 o fs) + 1)%Z.
    split; [discriminate |]. split; [discriminate | intros _; lia].
Qed.

(** C4.  The intervals [intercept_times] writes are, in array order,
    pairwise disjoint and ascending (each ends before the next begins),
    each is non-empty and lies in the window [t0, t1], and the returned
    count is the number of intervals written and does not exceed
    [max_times] (a [max_times] below 0 counts as 0).  This holds when
    the collaborators give a closed orbit a positive mean motion and the
    int period counter can follow each orbit that goes round to the end of
    the window: some period below [INT_MAX], not before the one the walk
    starts in, has both time ranges of the orbit end at or after t1.
    Where the counter overflows instead, the walk comes back to periods
    it has been through and the intervals are no longer in order. *)
Theorem intercept_times_intervals (fuel : nat) (orbit1 orbit2 : orbit)
    (t0 t1 : double) (fs : fs4 * fs4) (max_times n : Z)
    (ivs : list (double * double)) :
  mean_motion_positive (orbit_gravity_parameter orbit1) orbit1 ->
  mean_motion_positive (orbit_gravity_parameter orbit1) orbit2 ->
  period_counter_fits (orbit_gravity_parameter orbit1) t0 t1 orbit1 (fst fs) ->
  period_counter_fits (orbit_gravity_parameter orbit1) t0 t1 orbit2 (snd fs) ->
  intercept_times fuel orbit1 orbit2 t0 t1 fs max_times = Some (n, ivs) ->
  pairwise_before ivs /\
  Forall (interval_in_window t0 t1) ivs /\
  n = Z.of_nat (length ivs) /\
  (n <= Z.max 0 max_times)%Z.
Proof.
  intros H1 H2 F1 F2 Hrun. unfold intercept_times in Hrun.
  pose proof (walk_init_inv orbit1 orbit2 t0 t1 fs H1 H2) as Hinit.
  destruct (period_counter_late _ t0 t1 orbit1 (fst fs) H1 F1) as (N0 & B0 & L0 & _).
  destruct (period_counter_late _ t0 t1 orbit2 (snd fs) H2 F2) as (N1 & B1 & L1 & _).
  pose proof (orbit_times_counter_range (orbit_gravity_parameter orbit1) t0 t1
                orbit1 (fst fs)) as R0.
  pose proof (orbit_times_counter_range (orbit_gravity_parameter orbit1) t0 t1
                orbit2 (snd fs)) as R1.
  unfold walk_init in *.
  destruct (orbit_times _ t0 t1 orbit1 (fst fs)) as [[times0 per0] n0].
  destruct (orbit_times _ t0 t1 orbit2 (snd fs)) as [[times1 per1] n1].
  cbn [fst snd] in *.
  destruct Hinit as (Hinv & Hp0 & Hp1).
  set (w0 := Walk (0%nat, 0%nat) (n0, n1) t0 []) in *.
  destruct (walk_loop fuel (orbit1, orbit2) fs (times0, times1) (per0, per1) t0 t1
              max_times w0) as [w |] eqn:Eloop; [| discriminate].
  injection Hrun as <- <-.
  assert (Hc : walk_counters (orbit1, orbit2) N0 N1 w0).
  { unfold walk_counters, w0; cbn [n_orbit fst snd].
    split; [exact R0 |]. split; [exact R1 |].
    split; intro E; [specialize (B0 E) | specialize (B1 E)]; lia. }
  destruct (walk_loop_inv (orbit1, orbit2) fs (times0, times1) (per0, per1) t0 t1
              max_times N0 N1 L0 L1
              (fun E => proj2 (B0 E)) (fun E => proj2 (B1 E)) Hp0 Hp1
              fuel w0 w Hinv Hc Eloop) as [Hd Hn].
  destruct (descending_rev t0 t1 (itimes w) Hd) as [Hw Hp].
  unfold num_times in *. cbn [itimes w0 length Z.of_nat] in Hn.
  repeat split; try assumption; try lia.
  now rewrite length_rev.
Qed.

End TimesFacts.
Section TimesTermination.

Context {C : Collaborators}.

(** The merge walk of [intercept_times] terminates: from some amount of
    fuel on, the model returns a result. *)
Lemma intercept_times_terminates (orbit1 orbit2 : orbit) (t0 t1 : double)
    (fs : fs4 * fs4) (max_times : Z) :
  mean_motion_positive (orbit_gravity_parameter orbit1) orbit1 ->
  mean_motion_positive (orbit_gravity_parameter orbit1) orbit2 ->
  period_counter_fits (orbit_gravity_parameter orbit1) t0 t1 orbit1 (fst fs) ->
  period_counter_fits (orbit_gravity_parameter orbit1) t0 t1 orbit2 (snd fs) ->
  exists fuel0 : nat,
    forall fuel : nat, (fuel0 <= fuel)%nat ->
    exists r, intercept_times fuel orbit1 orbit2 t0 t1 fs max_times = Some r.
Proof.
  intros Hn1 Hn2 F1 F2. unfold intercept_times, walk_init.
  destruct (period_counter_late _ t0 t1 orbit1 (fst fs) Hn1 F1) as (N0 & B0 & L0 & O0).
  destruct (period_counter_late _ t0 t1 orbit2 (snd fs) Hn2 F2) as (N1 & B1 & L1 & O1).
  pose proof (orbit_times_counter_range (orbit_gravity_parameter orbit1) t0 t1
                orbit1 (fst fs)) as R0.
  pose proof (orbit_times_counter_range (orbit_gravity_parameter orbit1) t0 t1
                orbit2 (snd fs)) as R1.
  destruct (orbit_times _ t0 t1 orbit1 (fst fs)) as [[times0 per0] n0].
  destruct (orbit_times _ t0 t1 orbit2 (snd fs)) as [[times1 per1] n1].
  cbn [fst snd] in *.
  set (w0 := Walk (0%nat, 0%nat) (n0, n1) t0 []).
  exists (S (walk_to_go N0 N1 w0)). intros fuel Hfuel.
  destruct (walk_loop_terminates (orbit1, orbit2) fs (times0, times1) (per0, per1)
              t0 t1 max_times N0 N1 L0 L1
              (fun E => proj2 (B0 E)) (fun E => proj2 (B1 E)) fuel w0) as [w' E].
  - unfold walk_term_inv, position_ok, position_of, w0;
      cbn [isect n_orbit sel2 fst snd].
    repeat split; try lia; try discriminate; assumption.
  - unfold walk_counters, w0; cbn [n_orbit fst snd].
    split; [exact R0 |]. split; [exact R1 |].
    split; intro E; [specialize (B0 E) | specialize (B1 E)]; lia.
  - lia.
  - rewrite E. eexists; reflexivity.
Qed.

(** C9.  Every loop of the core terminates where the period counter can
    follow.  [intercept_search] makes at most [max_steps] passes through
    its loop body, each evaluating the two orbits once (none for a
    [max_steps] below 0), for every input.  The merge walk of
    [intercept_times] returns once the collaborators give a closed orbit a
    positive mean motion and the window ends before the period counter of
    an orbit that goes round overflows: with enough fuel, and then with
    any larger amount, the model yields a result. *)
Theorem core_loops_terminate (orbit1 orbit2 : orbit) (t0 t1 : double)
    (fs : fs4 * fs4) (max_times : Z) :
  mean_motion_positive (orbit_gravity_parameter orbit1) orbit1 ->
  mean_motion_positive (orbit_gravity_parameter orbit1) orbit2 ->
  period_counter_fits (orbit_gravity_parameter orbit1) t0 t1 orbit1 (fst fs) ->
  period_counter_fits (orbit_gravity_parameter orbit1) t0 t1 orbit2 (snd fs) ->
  (forall (s0 s1 threshold target_distance : double) (max_steps : Z),
     (Z.of_nat (search_evaluations orbit1 orbit2 s0 s1 threshold target_distance
                  max_steps) <= Z.max 0 max_steps)%Z) /\
  (exists fuel0 : nat,
     forall fuel : nat, (fuel0 <= fuel)%nat ->
     exists r, intercept_times fuel orbit1 orbit2 t0 t1 fs max_times = Some r).
Proof.
  intros Hn1 Hn2 F1 F2. split.
  - intros. apply search_evaluations_bound.
  - apply intercept_times_terminates; assumption.
Qed.

End TimesTermination.

(** ** intercept_times: a window beyond the reach of the period counter *)

Section CounterExhausted.

Context {C : Collaborators}.

Variable orbits : orbit * orbit.
Variable fs : fs4 * fs4.
Variable times : fs4 * fs4.
Variable periods : double * double.
Variables t0 t1 : double.
Variable max_times : Z.

Hypothesis round0 : orbit_elliptic (fst orbits) = true.
Hypothesis round1 : orbit_elliptic (snd orbits) = true.
Hypothesis window : t0 < t1.
Hypothesis room : (0 < max_times)%Z.

(** One of the two orbits has all the ranges an int can number end at or
    before t0. *)
Variable short : nat.
Hypothesis short_orbit : short = 0%nat \/ short = 1%nat.
Hypothesis short_period : 0 <= sel2 periods short.
Hypothesis short_1 : f_1 (sel2 times short) + of_int INT_MAX * sel2 periods short <= t0.
Hypothesis short_3 : f_3 (sel2 times short) + of_int INT_MAX * sel2 periods short <= t0.

(** The walk has recorded nothing, has not moved on from t0, and its
    counters are machine integers. *)
Local Abbreviation stuck := (fun w : walk =>
  wt w = t0 /\ itimes w = [] /\
  forall o, (INT_MIN <= sel2 (n_orbit w) o <= INT_MAX)%Z).

Lemma short_range_end (w : walk) :
  (forall o, (INT_MIN <= sel2 (n_orbit w) o <= INT_MAX)%Z) ->
  range_end times periods short (position_of w short) <= t0.
Proof.
  intro Hr. specialize (Hr short). unfold range_end, position_of; cbn [fst snd].
  assert (Hz : of_int (sel2 (n_orbit w) short) <= of_int INT_MAX)
    by (unfold of_int; rewrite <- Zle_Qle; lia).
  assert (Hm : of_int (sel2 (n_orbit w) short) * sel2 periods short
               <= of_int INT_MAX * sel2 periods short) by nra.
  destruct (at4_odd (sel2 times short) (sel2 (isect w) short)) as [-> | ->]; lra.
Qed.

Lemma stuck_step (w w1 : walk) (brk : bool) :
  stuck w ->
  walk_step orbits fs times periods t0 t1 w = (w1, brk) ->
  brk = false /\ stuck w1.
Proof.
  intros (Ht & Hi & Hr) Hstep.
  assert (Ha : advancing times periods w = 0%nat \/ advancing times periods w = 1%nat)
    by (unfold advancing; destruct (_ <? _); [now left | now right]).
  destruct (walk_step_spec orbits fs times periods t0 t1 w w1 brk Hstep)
    as (Hwt & Hout & _ & _ & Hbrk & _).
  pose proof (short_range_end w Hr) as Hend.
  assert (Htend : step_end times periods t1 w <= t0).
  { unfold step_end.
    eapply Qle_trans; [apply fmin_le_r |].
    destruct short_orbit as [E | E]; rewrite E in Hend;
      (eapply Qle_trans; [| exact Hend]); [apply fmin_le_l | apply fmin_le_r]. }
  split.
  - destruct brk; [| reflexivity]. specialize (Hbrk eq_refl).
    destruct Ha as [Ha | Ha]; rewrite Ha in Hbrk; cbn [sel2] in Hbrk; congruence.
  - split; [| split].
    + rewrite Hwt. apply fmax_left. exact Htend.
    + rewrite Hout, Hi.
      assert (E : (step_begin times periods w <? step_end times periods t1 w) = false).
      { apply Qltb_ge. eapply Qle_trans; [exact Htend |].
        rewrite <- Ht. unfold step_begin. apply fmax_ge_l. }
      rewrite E. reflexivity.
    + exact (walk_step_counter_range orbits fs times periods t0 t1 w w1 brk Hstep Hr).
Qed.

Lemma stuck_loop (fuel : nat) :
  forall w : walk,
    stuck w -> walk_loop fuel orbits fs times periods t0 t1 max_times w = None.
Proof.
  induction fuel as [| fuel IH]; intros w Hs; cbn [walk_loop];
    assert (Econd : (wt w <? t1) && (num_times w <? max_times)%Z = true)
      by (destruct Hs as (Ht & Hi & _); unfold num_times; rewrite Ht, Hi;
          apply andb_true_iff; split; [apply Qltb_lt; exact window
                                      | apply Z.ltb_lt; exact room]);
    rewrite Econd; [reflexivity |].
  destruct (walk_step orbits fs times periods t0 t1 w) as [w1 brk] eqn:Estep.
  destruct (stuck_step w w1 brk Hs Estep) as [-> Hs1].
  apply IH, Hs1.
Qed.

End CounterExhausted.

Section TimesNeverReturns.

Context {C : Collaborators}.


End TimesNeverReturns.

(** ** intercept_times: a window in which the period counter overflows *)

Section CounterWraps.

Context {C : Collaborators}.

Variable orbits : orbit * orbit.
Variable fs : fs4 * fs4.
Variable times : fs4 * fs4.
Variable periods : double * double.
Variables t0 t1 : double.
Variable max_times : Z.

Lemma walk_loop_step (fuel : nat) (w w' : walk) :
  (wt w <? t1) && (num_times w <? max_times)%Z = true ->
  walk_step orbits fs times periods t0 t1 w = (w', false) ->
  walk_loop (S fuel) orbits fs times periods t0 t1 max_times w
  = walk_loop fuel orbits fs times periods t0 t1 max_times w'.
Proof.
  intros Hc Hs. cbn [walk_loop]. rewrite Hc, Hs. reflexivity.
Qed.

(** The first orbit goes round and has two ranges; up to period [K],
    below [INT_MAX], both end before t0. *)
Hypothesis round0 : orbit_elliptic (fst orbits) = true.
Hypothesis window : t0 < t1.
Hypothesis period0 : 0 <= fst periods.
Hypothesis second_range : f_2 (fst fs) < f_3 (fst fs).

Variable K : Z.
Hypothesis K_fits : (K < INT_MAX)%Z.
Hypothesis early_1 : f_1 (fst times) + of_int K * fst periods < t0.
Hypothesis early_3 : f_3 (fst times) + of_int K * fst periods < t0.

(** The second orbit is on range [i1] of period [n1], which ends at or
    after t0. *)
Variable i1 : nat.
Variable n1 : Z.
Hypothesis late : t0 <= range_end times periods 1 (i1, n1).

(** While the first orbit is in a period up to [K] an iteration writes
    nothing, sets the time back to t0 and moves the first orbit on. *)
Lemma quiet_step (i : nat) (k : Z) (t : double) (out : list (double * double)) :
  (i <= 1)%nat -> (INT_MIN <= k <= K)%Z -> t0 <= t ->
  walk_step orbits fs times periods t0 t1 (Walk (i, i1) (k, n1) t out)
  = (Walk (fst (advance_pos fs 0 (i, k)), i1) (snd (advance_pos fs 0 (i, k)), n1) t0 out,
     false).
Proof.
  intros Hi Hk Ht. set (w := Walk (i, i1) (k, n1) t out).
  assert (He0 : range_end times periods 0 (position_of w 0) < t0).
  { unfold range_end, position_of, w; cbn [isect n_orbit sel2 fst snd].
    assert (Hz : of_int k <= of_int K) by (unfold of_int; rewrite <- Zle_Qle; lia).
    assert (Hm : of_int k * fst periods <= of_int K * fst periods) by nra.
    destruct (at4_odd (fst times) i) as [-> | ->]; lra. }
  assert (He1 : t0 <= range_end times periods 1 (position_of w 1)) by exact late.
  assert (Ha : advancing times periods w = 0%nat).
  { unfold advancing.
    assert (E : (range_end times periods 0 (position_of w 0)
                 <? range_end times periods 1 (position_of w 1)) = true)
      by (apply Qltb_lt; lra).
    rewrite E. reflexivity. }
  destruct (walk_step orbits fs times periods t0 t1 w) as [w' brk] eqn:Estep.
  destruct (walk_step_spec orbits fs times periods t0 t1 w w' brk Estep)
    as (Hwt & Hout & Hother & Hadv & Hbrk & _).
  rewrite Ha in Hother, Hadv, Hbrk. cbn [other sel2] in Hother, Hadv, Hbrk.
  assert (Eb : brk = false).
  { destruct brk; [| reflexivity]. specialize (Hbrk eq_refl). congruence. }
  subst brk. specialize (Hadv eq_refl).
  assert (Hpos : position_of w' 0 = advance_pos fs 0 (position_of w 0)).
  { apply Hadv. intros _. unfold position_of, w; cbn [n_orbit sel2 fst snd]. lia. }
  assert (Htend : step_end times periods t1 w < t0).
  { unfold step_end.
    eapply Qle_lt_trans; [apply fmin_le_r |].
    eapply Qle_lt_trans; [apply fmin_le_l | exact He0]. }
  assert (Hwt' : wt w' = t0).
  { rewrite Hwt. apply fmax_left. lra. }
  assert (Hout' : itimes w' = out).
  { rewrite Hout.
    assert (E : (step_begin times periods w <? step_end times periods t1 w) = false).
    { apply Qltb_ge. unfold step_begin.
      pose proof (fmax_ge_l (wt w)
                    (fmax (fst (trange times periods w 0))
                          (fst (trange times periods w 1)))) as Hb.
      change (wt w) with t in Hb at 1. lra. }
    rewrite E. reflexivity. }
  destruct w' as [[i0' i1'] [k' n1'] t' out'].
  unfold position_of in Hpos, Hother; cbn [isect n_orbit sel2 fst snd w] in Hpos, Hother.
  cbn [wt] in Hwt'. cbn [itimes] in Hout'. subst t' out'.
  injection Hother as -> ->. rewrite <- Hpos. reflexivity.
Qed.

(** Two iterations take the first orbit through a period it is early
    in. *)
Lemma quiet_period (fuel : nat) (k : Z) (t : double) (out : list (double * double)) :
  (INT_MIN <= k <= K)%Z -> t0 <= t -> t < t1 ->
  (Z.of_nat (length out) < max_times)%Z ->
  walk_loop (S (S fuel)) orbits fs times periods t0 t1 max_times
    (Walk (0%nat, i1) (k, n1) t out)
  = walk_loop fuel orbits fs times periods t0 t1 max_times
      (Walk (0%nat, i1) ((k + 1)%Z, n1) t0 out).
Proof.
  intros Hk Ht Ht1 Hroom.
  assert (E2 : (f_2 (fst fs) >=? f_3 (fst fs)) = false)
    by (apply Qleb_gt; exact second_range).
  rewrite (walk_loop_step (S fuel) _ (Walk (1%nat, i1) (k, n1) t0 out)).
  - rewrite (walk_loop_step fuel _ (Walk (0%nat, i1) ((k + 1)%Z, n1) t0 out)).
    + reflexivity.
    + unfold num_times; cbn [wt itimes]. apply andb_true_iff.
      split; [apply Qltb_lt; exact window | apply Z.ltb_lt; exact Hroom].
    + rewrite quiet_step; [| lia | exact Hk | apply Qle_refl].
      unfold advance_pos; cbn [fst snd Nat.eqb orb]. reflexivity.
  - unfold num_times; cbn [wt itimes]. apply andb_true_iff.
    split; [apply Qltb_lt; exact Ht1 | apply Z.ltb_lt; exact Hroom].
  - rewrite quiet_step; [| lia | exact Hk | exact Ht].
    unfold advance_pos; cbn [fst snd Nat.eqb orb sel2 at4 Nat.mul Nat.add].
    rewrite E2. reflexivity.
Qed.

(** So the walk goes through any number of such periods, two iterations
    for each, and comes out as it went in but for the period counter. *)
Lemma quiet_phase (m : nat) :
  forall (fuel : nat) (k : Z) (out : list (double * double)),
    (INT_MIN <= k)%Z -> (k + Z.of_nat m <= K + 1)%Z ->
    (Z.of_nat (length out) < max_times)%Z ->
    walk_loop (m + m + fuel) orbits fs times periods t0 t1 max_times
      (Walk (0%nat, i1) (k, n1) t0 out)
    = walk_loop fuel orbits fs times periods t0 t1 max_times
        (Walk (0%nat, i1) ((k + Z.of_nat m)%Z, n1) t0 out).
Proof.
  induction m as [| m IH]; intros fuel k out Hk Hm Hroom.
  - replace (k + Z.of_nat 0)%Z with k by lia. reflexivity.
  - replace (S m + S m + fuel)%nat with (S (S (m + m + fuel))) by lia.
    rewrite quiet_period; [| lia | apply Qle_refl | exact window | exact Hroom].
    rewrite IH; [| lia | lia | exact Hroom].
    replace (k + 1 + Z.of_nat m)%Z with (k + Z.of_nat (S m))%Z by lia.
    reflexivity.
Qed.

End CounterWraps.

(** [intercept_times] is the walk from the state [walk_init] sets up. *)
Lemma intercept_times_walk {C : Collaborators} (fuel : nat) (orbit1 orbit2 : orbit)
    (t0 t1 : double) (fs : fs4 * fs4) (max_times : Z) :
  intercept_times fuel orbit1 orbit2 t0 t1 fs max_times
  = match walk_loop fuel (orbit1, orbit2) fs
            (fst (fst (walk_init orbit1 orbit2 t0 t1 fs)))
            (snd (fst (walk_init orbit1 orbit2 t0 t1 fs)))
            t0 t1 max_times (snd (walk_init orbit1 orbit2 t0 t1 fs)) with
    | Some w => Some (num_times w, rev (itimes w))
    | None => None
    end.
Proof.
  unfold intercept_times.
  destruct (walk_init orbit1 orbit2 t0 t1 fs) as [[times periods] w0]. reflexivity.
Qed.

(** * Further properties of intersect_ranges *)

Section RangesBounds.

Context {C : Collaborators}.

Lemma M_PI_gt_3 : 3 < M_PI.
Proof. reflexivity. Qed.

Lemma at4_within (fs : fs4) (k : nat) :
  within_pi fs -> - M_PI <= at4 fs k /\ at4 fs k <= M_PI.
Proof.
  intros (h0 & h1 & h2 & h3). destruct k as [|[|[|k]]]; cbn [at4]; assumption.
Qed.

Lemma overlap_within (fs1 fs2 : fs4) :
  within_pi fs1 -> within_pi fs2 -> within_pi (overlap fs1 fs2).
Proof.
  intros H1 H2.
  assert (Hc : forall i j, - M_PI <= overlap_cell fs1 fs2 i j /\
                           overlap_cell fs1 fs2 i j <= M_PI).
  { intros i j. unfold overlap_cell, pick.
    set (a := at4 fs1 _). set (b := at4 fs2 _).
    assert (Ha : - M_PI <= a /\ a <= M_PI) by apply at4_within, H1.
    assert (Hb : - M_PI <= b /\ b <= M_PI) by apply at4_within, H2.
    destruct j.
    - destruct (fmax_spec a b) as [[_ ->]|[_ ->]]; assumption.
    - destruct (fmin_spec a b) as [[_ ->]|[_ ->]]; assumption. }
  unfold overlap, within_pi; cbn [f_0 f_1 f_2 f_3]. repeat split; apply Hc.
Qed.

Lemma normalize_open_within (fs : fs4) :
  within_pi fs -> within_pi (normalize_ranges false fs).
Proof.
  pose proof M_PI_gt_3 as Hpi.
  intros H. unfold normalize_ranges, union_apoapsis. cbn [andb].
  assert (Hu : within_pi (union_periapsis fs)).
  { unfold union_periapsis. destruct (_ && _); [| exact H].
    destruct H as (h0 & h1 & h2 & h3).
    unfold within_pi; cbn [f_0 f_1 f_2 f_3]. repeat split; try tauto; lra. }
  set (g := union_periapsis fs) in *.
  assert (Hr : rotate_apoapsis g = g).
  { unfold rotate_apoapsis. destruct Hu as (_ & _ & _ & _ & h3).
    destruct (f_2 g <? f_3 g); cbn [andb]; [| reflexivity].
    destruct (f_3 g >? M_PI) eqn:E; [| reflexivity]. cmp_to_prop. lra. }
  rewrite Hr.
  assert (Hc : within_pi (compact_ranges g)).
  { unfold compact_ranges. destruct (_ && _); [| exact Hu].
    destruct Hu as (h0 & h1 & h2 & h3).
    unfold within_pi; cbn [f_0 f_1 f_2 f_3]. repeat split; try tauto; lra. }
  set (h := compact_ranges g) in *.
  unfold full_orbit. destruct (_ >=? _); [| exact Hc].
  destruct Hc as (h0 & h1 & h2 & h3).
  unfold within_pi; cbn [f_0 f_1 f_2 f_3]. repeat split; try tauto; lra.
Qed.

(** X4.  On an orbit that is not closed, [intersect_ranges] stays in the
    principal range: when every bound of both sources lies in -pi..pi, so
    does every bound it writes. *)
Lemma intersect_ranges_open_within_pi (fs1 fs2 : fs4) :
  within_pi fs1 -> within_pi fs2 ->
  within_pi (snd (intersect_ranges fs1 fs2 false)).
Proof.
  intros H1 H2. unfold intersect_ranges; cbn [snd].
  apply normalize_open_within, overlap_within; assumption.
Qed.

Lemma normalize_no_ranges (closed : bool) (g : fs4) :
  zero_below_pi ->
  f_1 g <= f_0 g -> f_3 g <= f_2 g -> f_3 g <= f_0 g ->
  normalize_ranges closed g = g.
Proof.
  pose proof M_PI_pos as Hpi.
  intros Hz h10 h32 h30. unfold normalize_ranges.
  assert (Ha : union_apoapsis closed g = g).
  { apply union_apoapsis_skip. intros _ [Ea Eb].
    assert (f_0 g < 0) by (destruct Ea as [Ea|Ea]; [lra | apply Hz in Ea; lra]).
    assert (0 < f_3 g) by (destruct Eb as [Eb|Eb]; [lra | apply Hz in Eb; lra]).
    lra. }
  rewrite Ha.
  assert (E32 : (f_2 g <? f_3 g) = false) by (apply Qltb_ge; assumption).
  assert (Hp : union_periapsis g = g).
  { unfold union_periapsis. rewrite E32, andb_false_r. reflexivity. }
  rewrite Hp.
  assert (Hr : rotate_apoapsis g = g).
  { unfold rotate_apoapsis. rewrite E32. reflexivity. }
  rewrite Hr.
  assert (Hc : compact_ranges g = g).
  { unfold compact_ranges. rewrite E32. reflexivity. }
  rewrite Hc.
  unfold full_orbit. destruct (_ >=? _) eqn:E; [| reflexivity].
  cmp_to_prop. pose proof (fsub_nonpos (f_1 g) (f_0 g) h10). lra.
Qed.

Lemma overlap_no_ranges_l (fs1 fs2 : fs4) :
  no_ranges fs1 ->
  let g := overlap fs1 fs2 in
  f_1 g <= f_0 g /\ f_3 g <= f_2 g /\ f_3 g <= f_0 g.
Proof.
  intros [h10 h32]. unfold overlap; cbn [f_0 f_1 f_2 f_3 overlap_cell].
  assert (Hp : forall i j, pick fs1 i j = at4 fs1 j).
  { intros i j. unfold pick.
    replace (at4 fs1 2 <? at4 fs1 3) with false; [reflexivity |].
    symmetry. apply Qltb_ge. exact h32. }
  rewrite !Hp. cbn [at4].
  pose proof (fmax_ge_l (f_0 fs1) (pick fs2 0 0)).
  pose proof (fmax_ge_l (f_0 fs1) (pick fs2 1 0)).
  pose proof (fmin_le_l (f_1 fs1) (pick fs2 0 1)).
  pose proof (fmin_le_l (f_1 fs1) (pick fs2 1 1)).
  repeat split; lra.
Qed.

Lemma overlap_no_ranges_r (fs1 fs2 : fs4) :
  no_ranges fs2 ->
  let g := overlap fs1 fs2 in
  f_1 g <= f_0 g /\ f_3 g <= f_2 g /\ f_3 g <= f_0 g.
Proof.
  intros [h10 h32]. unfold overlap; cbn [f_0 f_1 f_2 f_3 overlap_cell].
  assert (Hp : forall i j, pick fs2 i j = at4 fs2 j).
  { intros i j. unfold pick.
    replace (at4 fs2 2 <? at4 fs2 3) with false; [reflexivity |].
    symmetry. apply Qltb_ge. exact h32. }
  rewrite !Hp. cbn [at4].
  pose proof (fmax_ge_r (pick fs1 0 0) (f_0 fs2)).
  pose proof (fmax_ge_r (pick fs1 1 0) (f_0 fs2)).
  pose proof (fmin_le_r (pick fs1 0 1) (f_1 fs2)).
  pose proof (fmin_le_r (pick fs1 1 1) (f_1 fs2)).
  repeat split; lra.
Qed.

Lemma count_no_ranges (g : fs4) :
  f_1 g <= f_0 g -> f_3 g <= f_2 g -> count_ranges g = 0%Z.
Proof.
  intros h10 h32. unfold count_ranges.
  replace (f_0 g <? f_1 g) with false by (symmetry; apply Qltb_ge; assumption).
  replace (f_2 g <? f_3 g) with false by (symmetry; apply Qltb_ge; assumption).
  reflexivity.
Qed.

(** X5.  A source without ranges (both pairs empty) leaves nothing: with a
    [zero] tolerance below pi, [intersect_ranges] returns 0 whichever side
    the empty source is on, whatever the other source and [closed]. *)
Lemma intersect_ranges_no_ranges (fs1 fs2 : fs4) (closed : bool) :
  zero_below_pi -> no_ranges fs1 ->
  fst (intersect_ranges fs1 fs2 closed) = 0%Z /\
  fst (intersect_ranges fs2 fs1 closed) = 0%Z.
Proof.
  intros Hz H1. unfold intersect_ranges; cbn [fst]. split.
  - destruct (overlap_no_ranges_l fs1 fs2 H1) as (h10 & h32 & h30).
    rewrite (normalize_no_ranges closed _ Hz h10 h32 h30).
    apply count_no_ranges; assumption.
  - destruct (overlap_no_ranges_r fs2 fs1 H1) as (h10 & h32 & h30).
    rewrite (normalize_no_ranges closed _ Hz h10 h32 h30).
    apply count_no_ranges; assumption.
Qed.

End RangesBounds.

Section RangesSingle.

Context {C : Collaborators}.

(** X6.  Two sources of one range each (second pair empty) give the plain
    intersection of the two ranges, from the larger begin to the smaller
    end: one range when that is not empty, none otherwise.  This holds
    when the length of the intersection as line 54 computes it (the
    rounded difference of its two doubles) is below 2*M_PI and, on a
    closed orbit, the intersection does not reach apoapsis from both
    sides. *)
Lemma intersect_ranges_single (fs1 fs2 : fs4) (closed : bool) :
  f_3 fs1 <= f_2 fs1 -> f_3 fs2 <= f_2 fs2 ->
  let lo := fmax (f_0 fs1) (f_0 fs2) in
  let hi := fmin (f_1 fs1) (f_1 fs2) in
  (closed = true -> ~ (reaches_minus_pi lo /\ reaches_pi hi)) ->
  fsub hi lo < 2 * M_PI ->
  intersect_ranges fs1 fs2 closed =
    if lo <? hi then (1%Z, Fs4 lo hi 1 (-1)) else (0%Z, Fs4 lo hi lo hi).
Proof.
  intros H1 H2 lo hi Hap Hlen.
  assert (Eo : overlap fs1 fs2 = Fs4 lo hi lo hi).
  { unfold overlap, overlap_cell. rewrite !(pick_one fs1), !(pick_one fs2) by assumption.
    reflexivity. }
  unfold intersect_ranges, normalize_ranges. rewrite Eo.
  rewrite union_apoapsis_skip by exact Hap.
  destruct (lo <? hi) eqn:E; cmp_to_prop.
  - rewrite union_periapsis_single by exact E.
    rewrite rotate_apoapsis_skip by (left; cbn [f_2 f_3]; discriminate).
    rewrite compact_ranges_skip by (left; cbn [f_2 f_3]; discriminate).
    rewrite full_orbit_skip by exact Hlen.
    unfold count_ranges; cbn [f_0 f_1 f_2 f_3].
    apply Qltb_lt in E. rewrite E. reflexivity.
  - rewrite union_periapsis_skip by (left; exact E).
    rewrite rotate_apoapsis_skip by (left; exact E).
    rewrite compact_ranges_skip by (left; exact E).
    rewrite full_orbit_skip by exact Hlen.
    unfold count_ranges; cbn [f_0 f_1 f_2 f_3].
    apply Qltb_ge in E. rewrite E. reflexivity.
Qed.

End RangesSingle.

(** * Further properties of intercept_intersect *)

Section IntersectFacts.

Context {C : Collaborators}.

Lemma bands_apart_test (orbit1 orbit2 : orbit) (threshold : double) :
  bands_apart orbit1 orbit2 threshold <->
  (closed_orbit orbit1 && (apoapsis_of orbit1 <=? fsub (periapsis_of orbit2) threshold)) ||
  (closed_orbit orbit2 && (apoapsis_of orbit2 <=? fsub (periapsis_of orbit1) threshold))
  = true.
Proof.
  unfold bands_apart.
  rewrite orb_true_iff, !andb_true_iff, !Qleb_le. reflexivity.
Qed.

Lemma intercept_intersect_pruned (orbit1 orbit2 : orbit) (threshold : double) (fs : fs4) :
  bands_apart orbit1 orbit2 threshold ->
  intercept_intersect orbit1 orbit2 threshold fs = (0%Z, fs).
Proof.
  intro H. apply bands_apart_test in H. unfold intercept_intersect.
  destruct (orbit_radial orbit1 || orbit_radial orbit2); [reflexivity |].
  unfold closed_orbit, apoapsis_of, periapsis_of in H. cbv zeta. rewrite H.
  reflexivity.
Qed.

(** X7.  Orbits whose radial bands are further apart than the threshold
    have no intersection, in either order of the arguments: the count is 0
    and the caller's buffer is left as it was. *)
Lemma intercept_intersect_bands_apart (orbit1 orbit2 : orbit) (threshold : double)
    (fs : fs4) :
  bands_apart orbit1 orbit2 threshold ->
  intercept_intersect orbit1 orbit2 threshold fs = (0%Z, fs) /\
  intercept_intersect orbit2 orbit1 threshold fs = (0%Z, fs).
Proof.
  intro H. split; apply intercept_intersect_pruned; [exact H |].
  unfold bands_apart in *. tauto.
Qed.

(** X8.  A circular orbit1 in the plane of orbit2, with radial bands that
    the test of lines 87-88 (on the rounded differences) does not find
    apart, may meet orbit2 anywhere: the result is the one range -pi..pi,
    the full orbit. *)
Lemma intercept_intersect_circular_coplanar (orbit1 orbit2 : orbit) (threshold : double)
    (fs : fs4) :
  orbit_radial orbit1 = false -> orbit_radial orbit2 = false ->
  ~ bands_apart orbit1 orbit2 threshold ->
  closed_orbit orbit1 = true ->
  conic_circular (orbit_eccentricity orbit1) = true ->
  M_PI <= conic_max_true_anomaly (orbit_eccentricity orbit1) ->
  zero 0 = true ->
  coplanar_orbits orbit1 orbit2 ->
  intercept_intersect orbit1 orbit2 threshold fs = (1%Z, Fs4 (- M_PI) M_PI 1 (-1)).
Proof.
  pose proof M_PI_pos as Hpi.
  intros Hr1 Hr2 Hb Hcl Hci Hmax Hz Hco.
  rewrite bands_apart_test in Hb. apply not_true_is_false in Hb.
  unfold closed_orbit, apoapsis_of, periapsis_of in Hb, Hcl.
  unfold intercept_intersect. rewrite Hr1, Hr2. cbn [orb]. cbv zeta.
  rewrite Hb, Hci, Hcl. cbn [orb].
  set (maxf := conic_max_true_anomaly _) in *.
  assert (E1 : fmin maxf 0 = 0) by (apply fmin_right; lra).
  assert (E2 : fmax maxf 0 = maxf) by (apply fmax_left; lra).
  rewrite E1, E2. unfold radius_ranges. rewrite Hz.
  assert (E3 : (maxf <? M_PI) = false) by (apply Qltb_ge; exact Hmax).
  rewrite E3. cbn [andb negb].
  unfold plane_ranges. cbv zeta.
  unfold coplanar_orbits in Hco. cbv zeta in Hco. apply Qltb_lt in Hco. rewrite Hco.
  vm_compute. reflexivity.
Qed.

(** X9.  The buffer on return from [intercept_intersect] and the count
    agree: a returned 1 means the first pair is a range (begin < end) and
    the second pair is empty, a returned 2 means both pairs are ranges, and
    nothing else but 0 is returned. *)
Lemma intercept_intersect_compact (orbit1 orbit2 : orbit) (threshold : double)
    (fs : fs4) :
  let n := fst (intercept_intersect orbit1 orbit2 threshold fs) in
  let fs' := snd (intercept_intersect orbit1 orbit2 threshold fs) in
  n = 0%Z \/
  (n = 1%Z /\ f_0 fs' < f_1 fs' /\ f_3 fs' <= f_2 fs') \/
  (n = 2%Z /\ f_0 fs' < f_1 fs' /\ f_2 fs' < f_3 fs').
Proof.
  unfold intercept_intersect.
  destruct (orbit_radial orbit1 || orbit_radial orbit2); [left; reflexivity |].
  cbv zeta. destruct (_ || _); [left; reflexivity |].
  unfold intersect_ranges; cbn [fst snd]. unfold normalize_ranges.
  set (g := rotate_apoapsis _).
  pose proof (full_orbit_front (compact_ranges g) (compact_ranges_front g)) as H.
  set (fs' := full_orbit _) in *. unfold count_ranges.
  destruct (f_0 fs' <? f_1 fs') eqn:E0; destruct (f_2 fs' <? f_3 fs') eqn:E2;
    cbn [b2z Z.add]; cmp_to_prop; auto.
  specialize (H E2). lra.
Qed.

End IntersectFacts.

(** * Further properties of intercept_times *)

Section TimesEdges.

Context {C : Collaborators}.

Lemma walk_loop_no_entry (fuel : nat) (orbits : orbit * orbit) (fs times : fs4 * fs4)
    (periods : double * double) (t0 t1 : double) (max_times : Z) (w : walk) :
  t1 <= wt w \/ (max_times <= num_times w)%Z ->
  walk_loop fuel orbits fs times periods t0 t1 max_times w = Some w.
Proof.
  intro H.
  assert (E : (wt w <? t1) && (num_times w <? max_times)%Z = false).
  { apply andb_false_iff. destruct H as [H | H].
    - left. apply Qltb_ge. exact H.
    - right. apply Z.ltb_ge. exact H. }
  destruct fuel; cbn [walk_loop]; rewrite E; reflexivity.
Qed.

Lemma walk_init_state (orbit1 orbit2 : orbit) (t0 t1 : double) (fs : fs4 * fs4) :
  let w0 := snd (walk_init orbit1 orbit2 t0 t1 fs) in
  wt w0 = t0 /\ itimes w0 = [].
Proof.
  unfold walk_init.
  destruct (orbit_times _ t0 t1 orbit1 (fst fs)) as [[times0 P0] n0].
  destruct (orbit_times _ t0 t1 orbit2 (snd fs)) as [[times1 P1] n1].
  split; reflexivity.
Qed.

(** X10.  An empty time window (t1 <= t0) or an output array without room
    (max_times <= 0) gives no interval: [intercept_times] returns 0 and
    writes nothing, without entering its loop. *)
Lemma intercept_times_nothing_to_do (fuel : nat) (orbit1 orbit2 : orbit)
    (t0 t1 : double) (fs : fs4 * fs4) (max_times : Z) :
  t1 <= t0 \/ (max_times <= 0)%Z ->
  intercept_times fuel orbit1 orbit2 t0 t1 fs max_times = Some (0%Z, []).
Proof.
  intro H. unfold intercept_times.
  pose proof (walk_init_state orbit1 orbit2 t0 t1 fs) as Hw.
  destruct (walk_init orbit1 orbit2 t0 t1 fs) as [[times periods] w0].
  cbn [snd] in Hw. destruct Hw as [Ht Hi].
  rewrite walk_loop_no_entry.
  - unfold num_times. rewrite Hi. reflexivity.
  - unfold num_times. rewrite Ht, Hi. cbn [length Z.of_nat]. exact H.
Qed.

(** What one iteration preserves about the written intervals is preserved
    by the loop. *)
Lemma walk_loop_itimes (P : list (double * double) -> Prop)
    (orbits : orbit * orbit) (fs times : fs4 * fs4) (periods : double * double)
    (t0 t1 : double) (max_times : Z) :
  (forall w, P (itimes w) ->
             P (itimes (fst (walk_step orbits fs times periods t0 t1 w)))) ->
  forall (fuel : nat) (w w' : walk),
    P (itimes w) ->
    walk_loop fuel orbits fs times periods t0 t1 max_times w = Some w' ->
    P (itimes w').
Proof.
  intros Hstep. induction fuel as [| fuel IH]; intros w w' Hw; cbn [walk_loop];
    destruct ((wt w <? t1) && (num_times w <? max_times)%Z)%bool;
    try discriminate; try (intro H; inversion H; subst; exact Hw).
  specialize (Hstep w Hw).
  destruct (walk_step orbits fs times periods t0 t1 w) as [w1 brk].
  cbn [fst] in Hstep. destruct brk.
  - intro H; inversion H; subst. exact Hstep.
  - apply IH. exact Hstep.
Qed.





Lemma record_interval_gapped (tb te : double) (out : list (double * double)) :
  gapped out -> gapped (record_interval tb te out).
Proof.
  unfold record_interval. destruct out as [| [b e] rest]; [cbn; auto |].
  intros [Hh Hr].
  destruct (tb <=? e) eqn:Ele; cbn [orb].
  - cbn [gapped fst snd] in *. split; assumption.
  - destruct (zero (tb - e)) eqn:Ez.
    + cbn [gapped fst snd] in *. split; assumption.
    + cbn [gapped fst snd] in *. repeat split; assumption.
Qed.

Lemma gaps_snoc (l : list (double * double)) (x : double * double) :
  gaps_beyond_tolerance l ->
  (forall a, nth_error l (pred (length l)) = Some a -> zero (fst x - snd a) = false) ->
  gaps_beyond_tolerance (l ++ [x]).
Proof.
  intros Hl Hx i a b Ha Hb.
  destruct (Nat.lt_ge_cases (S i) (length l)) as [Hj | Hj].
  - rewrite nth_error_app1 in Ha, Hb by lia. exact (Hl i a b Ha Hb).
  - rewrite nth_error_app2 in Hb by lia.
    destruct (S i - length l)%nat as [| k] eqn:Ek.
    + cbn in Hb. injection Hb as <-.
      rewrite nth_error_app1 in Ha by lia.
      apply Hx. replace (pred (length l)) with i by lia. exact Ha.
    + destruct k; discriminate Hb.
Qed.

Lemma nth_error_rev_last {A : Type} (x : A) (l : list A) :
  nth_error (rev (x :: l)) (pred (length (rev (x :: l)))) = Some x.
Proof.
  cbn [rev]. rewrite length_app. cbn [length].
  rewrite nth_error_app2 by lia.
  replace (pred (length (rev l) + 1) - length (rev l))%nat with 0%nat by lia.
  reflexivity.
Qed.

Lemma gapped_rev (l : list (double * double)) :
  gapped l -> gaps_beyond_tolerance (rev l).
Proof.
  induction l as [| iv rest IH].
  - intros _ i a b Ha. destruct i; discriminate Ha.
  - intros [Hh Hr]. cbn [rev]. apply gaps_snoc; [apply IH, Hr |].
    intros a Ha. destruct rest as [| older rest'].
    + discriminate Ha.
    + rewrite nth_error_rev_last in Ha. injection Ha as <-. exact Hh.
Qed.

(** X12.  Consecutive intervals of the output are kept apart: the gap from
    the end of one to the begin of the next is more than the [zero]
    tolerance, since an overlap that begins within the tolerance of the
    last interval is merged into it. *)
Lemma intercept_times_gaps (fuel : nat) (orbit1 orbit2 : orbit)
    (t0 t1 : double) (fs : fs4 * fs4) (max_times n : Z)
    (ivs : list (double * double)) :
  intercept_times fuel orbit1 orbit2 t0 t1 fs max_times = Some (n, ivs) ->
  gaps_beyond_tolerance ivs.
Proof.
  unfold intercept_times.
  pose proof (walk_init_state orbit1 orbit2 t0 t1 fs) as Hw.
  destruct (walk_init orbit1 orbit2 t0 t1 fs) as [[times periods] w0].
  cbn [snd] in Hw. destruct Hw as [_ Hi].
  destruct (walk_loop _ _ _ _ _ _ _ _ _) as [w |] eqn:E; [| discriminate].
  intro R. inversion R; subst. apply gapped_rev.
  apply (walk_loop_itimes gapped (orbit1, orbit2) fs times periods t0 t1
           max_times) with (fuel := fuel) (w := w0); [| rewrite Hi; exact I | exact E].
  intros w1 H1.
  destruct (walk_step (orbit1, orbit2) fs times periods t0 t1 w1) as [w' brk] eqn:Es.
  destruct (walk_step_spec _ fs times periods t0 t1 w1 w' brk Es) as (_ & Hout & _).
  cbn [fst]. rewrite Hout.
  destruct (_ <? _); [apply record_interval_gapped |]; exact H1.
Qed.

End TimesEdges.

(** * orbit_times: the period number at t0 *)

Section PeriodNumber.

Context {C : Collaborators}.

Lemma quot_nonneg (x : Q) :
  0 <= x ->
  inject_Z (Z.quot (Qnum x) (Z.pos (Qden x))) <= x /\
  x < inject_Z (Z.quot (Qnum x) (Z.pos (Qden x))) + 1.
Proof.
  intro Hx.
  assert (Hn : (0 <= Qnum x)%Z).
  { destruct x as [n d]. unfold Qle in Hx. cbn in *. lia. }
  rewrite Z.quot_div_nonneg by (try exact Hn; reflexivity).
  assert (E : (Qnum x / Z.pos (Qden x))%Z = Qfloor x) by (destruct x; reflexivity).
  rewrite E. split; [apply Qfloor_le |].
  pose proof (Qlt_floor x) as H. rewrite inject_Z_plus in H. exact H.
Qed.

Lemma quot_nonpos (x : Q) :
  x <= 0 ->
  x <= inject_Z (Z.quot (Qnum x) (Z.pos (Qden x))) /\
  inject_Z (Z.quot (Qnum x) (Z.pos (Qden x))) < x + 1.
Proof.
  intro Hx.
  destruct (quot_nonneg (- x)) as [Hl Hu]; [lra |].
  assert (E : Z.quot (Qnum (- x)) (Z.pos (Qden (- x)))
              = (- Z.quot (Qnum x) (Z.pos (Qden x)))%Z).
  { destruct x as [n d]. cbn [Qopp Qnum Qden]. apply Z.quot_opp_l. discriminate. }
  rewrite E, inject_Z_opp in Hl, Hu. split; lra.
Qed.

(** Within the range of int, adding -1/2 below zero and 1/2 from zero on,
    as the machine adds, and truncating gives an integer within 1 of x (a
    nearest one but for the rounding of the sum). *)
Lemma to_int_rounds (x : double) (below : bool) :
  (below = true -> x < 0) -> (below = false -> 0 <= x) ->
  Qabs x <= of_int (INT_MAX - 1) ->
  let k := of_int (to_int (fadd x (if below then - (1 # 2) else 1 # 2))) in
  x - 1 <= k /\ k <= x + 1.
Proof.
  intros Hb Hnb Hr. apply Qabs_Qle_condition in Hr. destruct Hr as [Hlo Hhi].
  unfold of_int, INT_MAX in Hlo, Hhi.
  change (inject_Z (2147483647 - 1)) with (2147483646 # 1) in Hlo, Hhi.
  unfold fadd.
  set (s := x + (if below then - (1 # 2) else 1 # 2)).
  assert (Hs : x - (1 # 2) <= s /\ s <= x + (1 # 2))
    by (unfold s; destruct below; split; lra).
  destruct Hs as [Hs1 Hs2].
  assert (He : Qabs (round_double s - s) <= 1 # 2).
  { apply round_double_error. apply Qabs_Qlt_condition.
    change (inject_Z (2 ^ 53)) with (9007199254740992 # 1). split; lra. }
  apply Qabs_Qle_condition in He. destruct He as [He1 He2].
  pose proof (round_double_sign s) as [Hneg Hpos].
  set (y := round_double s) in *.
  assert (Hy : x - 1 <= inject_Z (Z.quot (Qnum y) (Z.pos (Qden y))) /\
               inject_Z (Z.quot (Qnum y) (Z.pos (Qden y))) <= x + 1).
  { destruct below.
    - specialize (Hb eq_refl).
      assert (Es : s == x - (1 # 2)) by (unfold s; lra).
      assert (Hs0 : s <= 0) by lra. specialize (Hneg Hs0).
      destruct (quot_nonpos y Hneg) as [Hl Hu]. split; lra.
    - specialize (Hnb eq_refl).
      assert (Es : s == x + (1 # 2)) by (unfold s; lra).
      assert (Hs0 : 0 <= s) by lra. specialize (Hpos Hs0).
      destruct (quot_nonneg y Hpos) as [Hl Hu]. split; lra. }
  destruct Hy as [Hl Hu].
  assert (Hz : (INT_MIN <= Z.quot (Qnum y) (Z.pos (Qden y)) <= INT_MAX)%Z).
  { set (q := Z.quot (Qnum y) (Z.pos (Qden y))) in *.
    assert (H1 : inject_Z (-2147483648) < inject_Z q)
      by (change (inject_Z (-2147483648)) with (-2147483648 # 1); lra).
    assert (H2 : inject_Z q < inject_Z 2147483648)
      by (change (inject_Z 2147483648) with (2147483648 # 1); lra).
    rewrite <- Zlt_Qlt in H1, H2. unfold INT_MIN, INT_MAX. lia. }
  cbv zeta. unfold to_int. cbv zeta.
  destruct Hz as [Hz1 Hz2]. apply Z.leb_le in Hz1, Hz2. rewrite Hz1, Hz2.
  cbn [andb]. unfold of_int. split; assumption.
Qed.

(** X13.  On a closed orbit with a positive mean motion, and a t0 whose
    period number is within the range of int, the period number
    [intercept_times] starts from is that of a periapsis passage at most
    one period away from t0.  (Without rounding it would be the nearest
    passage, at most half a period away; the sum of line 203 can round up
    to the next integer.) *)
Lemma orbit_times_period_near_t0 (mu t0 t1 : double) (o : orbit) (fs : fs4) :
  closed_orbit o = true -> mean_motion_positive mu o ->
  let P := snd (fst (orbit_times mu t0 t1 o fs)) in
  let k := snd (orbit_times mu t0 t1 o fs) in
  Qabs ((t0 - orbit_periapsis_time o) / P) <= of_int (INT_MAX - 1) ->
  0 < P /\ Qabs (t0 - (orbit_periapsis_time o + of_int k * P)) <= P.
Proof.
  intros Hc Hn. unfold closed_orbit in Hc. specialize (Hn Hc).
  unfold orbit_times. rewrite Hc. cbn [fst snd].
  set (n := conic_mean_motion _ _ _) in *.
  set (t_pe := orbit_periapsis_time o).
  set (P := 2 * M_PI / n).
  assert (HP : 0 < P).
  { pose proof M_PI_pos. apply Qlt_shift_div_l; [exact Hn | lra]. }
  set (x := (t0 - t_pe) / P).
  assert (Ex : x * P == t0 - t_pe) by (unfold x; field; lra).
  set (below := t_pe >? t0).
  intro Hr.
  destruct (to_int_rounds x below) as [Hl Hu].
  { unfold below. intro E. cmp_to_prop. nra. }
  { unfold below. intro E. cmp_to_prop. nra. }
  { exact Hr. }
  set (k := of_int _) in *.
  split; [exact HP |].
  apply Qabs_Qle_condition. split; nra.
Qed.

End PeriodNumber.

(** * Further properties of intercept_search *)

Section SearchFacts.

Context {C : Collaborators}.

Lemma search_step_sample (env : search_env) (step : Z) (s : search) :
  let s' := fst (search_step env step s) in
  last s' = Some (evaluate env (st s)) /\ E s' = s_E (evaluate env (st s)) /\
  (snd (search_step env step s) = true -> st s' = st s).
Proof.
  unfold search_step.
  repeat match goal with
  | |- context [if ?b then _ else _] => destruct b
  | |- context [match prev_time s with _ => _ end] => destruct (prev_time s)
  end; cbn [fst snd leave advance_time last E st]; repeat split; try reflexivity;
  discriminate.
Qed.

Lemma search_loop_sample (env : search_env) (todo : nat) :
  forall (step : Z) (s : search),
    (0 < todo)%nat ->
    exists t, last (search_loop env todo step s) = Some (evaluate env t) /\
              E (search_loop env todo step s) = s_E (evaluate env t).
Proof.
  induction todo as [| todo IH]; intros step s Htodo; [lia |].
  cbn [search_loop].
  pose proof (search_step_sample env step s) as (Hl & HE & _).
  destruct (search_step env step s) as [s1 brk]; cbn [fst] in Hl, HE.
  destruct brk; [exists (st s); split; assumption |].
  destruct todo as [| todo'].
  - cbn [search_loop]. exists (st s); split; assumption.
  - apply IH. lia.
Qed.

Lemma search_loop_left_early (env : search_env) (todo : nat) :
  forall (step : Z) (s : search),
    let s' := search_loop env todo step s in
    (evals s' < evals s + todo)%nat ->
    last s' = Some (evaluate env (st s')) /\ E s' = s_E (evaluate env (st s')).
Proof.
  induction todo as [| todo IH]; intros step s; cbn [search_loop]; [cbv zeta; lia |].
  pose proof (search_step_sample env step s) as (Hl & HE & Hst).
  pose proof (search_step_evals env step s) as Hev.
  destruct (search_step env step s) as [s1 brk]; cbn [fst snd] in Hl, HE, Hst, Hev.
  destruct brk.
  - cbv zeta. intros _. rewrite (Hst eq_refl). split; assumption.
  - cbv zeta. intro H. apply IH. lia.
Qed.

(** X14.  After at least one pass of the loop (max_steps > 0) the record
    [intercept_search] writes is of one piece: positions and velocities
    are those of the two orbits at the recorded eccentric anomalies E1 and
    E2, the relative vectors are their differences, the distance is the
    magnitude of the relative position, and, where that distance is not
    zero, the speed is the closing rate dot(dr, dv) / distance.  (At
    distance zero line 385 divides by zero.) *)
Lemma intercept_search_record_consistent (orbit1 orbit2 : orbit)
    (t0 t1 threshold target_distance : double) (max_steps : Z) :
  (0 < max_steps)%Z ->
  let r := snd (intercept_search orbit1 orbit2 t0 t1 threshold target_distance
                  max_steps) in
  position r = (orbit_position_eccentric orbit1 (E1 r),
                orbit_position_eccentric orbit2 (E2 r)) /\
  velocity r = (orbit_velocity_eccentric orbit1 (E1 r),
                orbit_velocity_eccentric orbit2 (E2 r)) /\
  relative_position r = vsub (snd (position r)) (fst (position r)) /\
  relative_velocity r = vsub (snd (velocity r)) (fst (velocity r)) /\
  distance r = Some (mag (relative_position r)) /\
  (~ mag (relative_position r) == 0 ->
   speed r = Some (dot (relative_position r) (relative_velocity r) /
                   mag (relative_position r))).
Proof.
  intro Hms. unfold intercept_search, search_run; cbn [snd].
  set (env := search_env_of _ _ _ _ _ _ _).
  destruct (search_loop_sample env (Z.to_nat max_steps) 0%Z (search_init env))
    as (t & Hl & HE); [lia |].
  unfold intercept_of. rewrite Hl, HE.
  cbn [position velocity relative_position relative_velocity distance speed E1 E2].
  unfold evaluate. cbn [s_pos s_vel s_dr s_dv s_dist s_vrel s_E fst snd].
  repeat split; reflexivity.
Qed.

(** X15.  When the loop is left before the step budget is used up, the
    recorded state is the state at the recorded time: E1 and E2 are the
    eccentric anomalies of the two orbits at [time]. *)
Lemma intercept_search_state_at_time (orbit1 orbit2 : orbit)
    (t0 t1 threshold target_distance : double) (max_steps : Z) :
  (Z.of_nat (search_evaluations orbit1 orbit2 t0 t1 threshold target_distance max_steps)
     < max_steps)%Z ->
  let r := snd (intercept_search orbit1 orbit2 t0 t1 threshold target_distance
                  max_steps) in
  let mu := orbit_gravity_parameter orbit1 in
  E1 r = eccentric_anomaly_at mu orbit1 (time r) /\
  E2 r = eccentric_anomaly_at mu orbit2 (time r).
Proof.
  unfold search_evaluations, intercept_search, search_run; cbn [snd].
  set (env := search_env_of _ _ _ _ _ _ _). intro Hev.
  destruct (search_loop_left_early env (Z.to_nat max_steps) 0%Z (search_init env))
    as (Hl & HE).
  { cbn [search_init evals]. lia. }
  unfold intercept_of. rewrite Hl, HE.
  cbn [time E1 E2]. split; reflexivity.
Qed.

Lemma Qdiv_nonneg (a b : Q) : 0 <= a -> 0 <= b -> 0 <= a / b.
Proof.
  intros Ha Hb. unfold Qdiv. apply Qmult_le_0_compat; [exact Ha |].
  apply Qinv_le_0_compat. exact Hb.
Qed.

Lemma skip_ahead_ge (env : search_env) (dist dt : double) :
  dt <= skip_ahead env dist dt.
Proof.
  unfold skip_ahead. cbn [fold_left isfinite].
  eapply Qle_trans; [| apply fmax_ge_l]. apply fmax_ge_l.
Qed.

Lemma search_step_time (env : search_env) (t0 : double) (step : Z) (s : search) :
  search_inv t0 s -> search_inv t0 (fst (search_step env step s)).
Proof.
  unfold search_inv. intros (Ht & Hdt & Hp).
  pose proof (skip_ahead_ge env (s_dist (evaluate env (st s))) (min_dt s)) as Hskip.
  unfold search_step.
  destruct (prev_time s) as [pt |] eqn:Ep;
  repeat match goal with
  | |- context [if ?b then _ else _] => destruct b
  end; cbn [fst leave advance_time st min_dt prev_time]; try rewrite Ep;
  try (repeat split; solve [assumption | tauto | lra]).
  destruct Hp as [Hp0 Hp1].
  assert (Hh : 0 <= (st s - pt) / 2) by (apply Qdiv_nonneg; lra).
  repeat split; lra.
Qed.

Lemma search_loop_time (env : search_env) (t0 : double) (todo : nat) :
  forall (step : Z) (s : search),
    search_inv t0 s -> search_inv t0 (search_loop env todo step s).
Proof.
  induction todo as [| todo IH]; intros step s Hs; cbn [search_loop]; [exact Hs |].
  pose proof (search_step_time env t0 step s Hs) as H1.
  destruct (search_step env step s) as [s1 brk]; cbn [fst] in H1.
  destruct brk; [exact H1 | apply IH, H1].
Qed.

(** X16.  On a window t0 <= t1 the recorded time is never before t0: the
    search steps forward, and moves back only to a time it has visited.
    (For max_steps = 1 the initial step (t1-t0)/(max_steps/2) is a
    division by zero; that case is left out.) *)
Lemma intercept_search_time_from_t0 (orbit1 orbit2 : orbit)
    (t0 t1 threshold target_distance : double) (max_steps : Z) :
  t0 <= t1 -> max_steps <> 1%Z ->
  t0 <= time (snd (intercept_search orbit1 orbit2 t0 t1 threshold target_distance
                     max_steps)).
Proof.
  intros Hw Hne. unfold intercept_search, search_run; cbn [snd].
  set (env := search_env_of _ _ _ _ _ _ _).
  assert (Ht : forall s, time (intercept_of (orbit_gravity_parameter orbit1) s) = st s).
  { intro s. unfold intercept_of. destruct (last s); reflexivity. }
  rewrite Ht.
  destruct (Z.le_gt_cases max_steps 0) as [Hms | Hms].
  - replace (Z.to_nat max_steps) with 0%nat by lia. cbn. apply Qle_refl.
  - apply (search_loop_time env t0). unfold search_inv, search_init.
    cbn [st min_dt prev_time]. subst env. cbn [se_t0 se_t1 se_max_steps search_env_of].
    split; [apply Qle_refl |]. split; [| exact I].
    apply Qle_shift_div_l; [| lra].
    unfold of_int. change 0 with (inject_Z 0). rewrite <- Zlt_Qlt.
    apply Z.quot_str_pos. lia.
Qed.

(** X17.  Without a step budget (max_steps <= 0) the loop body never runs:
    [intercept_search] evaluates nothing, returns t1, and writes a record
    with time t0 whose distance and speed are NAN. *)
Lemma intercept_search_no_steps (orbit1 orbit2 : orbit)
    (t0 t1 threshold target_distance : double) (max_steps : Z) :
  (max_steps <= 0)%Z ->
  let r := intercept_search orbit1 orbit2 t0 t1 threshold target_distance max_steps in
  fst r = t1 /\ time (snd r) = t0 /\
  distance (snd r) = None /\ speed (snd r) = None /\
  search_evaluations orbit1 orbit2 t0 t1 threshold target_distance max_steps = 0%nat.
Proof.
  intro Hms. unfold search_evaluations, intercept_search, search_run.
  replace (Z.to_nat max_steps) with 0%nat by lia.
  cbn. repeat split; reflexivity.
Qed.

Lemma search_step_break (env : search_env) (step : Z) (s : search) :
  snd (search_step env step s) = true ->
  let d := s_dist (evaluate env (st s)) in
  zero (square (d - fmax 0 (se_target_distance env)) / square (se_threshold env)) = true \/
  d < se_threshold env \/ se_t1 env < st s.
Proof.
  unfold search_step. cbv zeta.
  destruct (zero _) eqn:Ez; [intros _; left; reflexivity |].
  destruct ((_ <? 0)%Z && (_ <? _) && (_ >? _))%bool eqn:Eb.
  { intros _. right; left.
    apply andb_true_iff in Eb. destruct Eb as [Eb _].
    apply andb_true_iff in Eb. destruct Eb as [_ Eb]. apply Qltb_lt. exact Eb. }
  destruct (prev_time s) as [pt |].
  - destruct (_ && _ && _ && _)%bool; [discriminate |].
    destruct (st s >? se_t1 env) eqn:Et; [| discriminate].
    intros _. right; right. apply Qltb_lt. exact Et.
  - destruct (st s >? se_t1 env) eqn:Et; [| discriminate].
    intros _. right; right. apply Qltb_lt. exact Et.
Qed.

Lemma search_loop_stop_reason (env : search_env) (todo : nat) :
  forall (step : Z) (s : search),
    let s' := search_loop env todo step s in
    (evals s' < evals s + todo)%nat ->
    exists smp,
      last s' = Some smp /\
      (zero (square (s_dist smp - fmax 0 (se_target_distance env)) /
             square (se_threshold env)) = true \/
       s_dist smp < se_threshold env \/ se_t1 env < st s').
Proof.
  induction todo as [| todo IH]; intros step s; cbn [search_loop]; [cbv zeta; lia |].
  pose proof (search_step_sample env step s) as (Hl & _ & Hst).
  pose proof (search_step_evals env step s) as Hev.
  pose proof (search_step_break env step s) as Hbr.
  destruct (search_step env step s) as [s1 brk]; cbn [fst snd] in Hl, Hst, Hev, Hbr.
  destruct brk.
  - cbv zeta. intros _. exists (evaluate env (st s)). split; [exact Hl |].
    rewrite (Hst eq_refl). exact (Hbr eq_refl).
  - cbv zeta. intro H. apply IH. lia.
Qed.

(** X24.  Why a search stops early.  When [intercept_search] leaves its
    loop before the step budget is used up, the recorded distance is a
    number d, and one of the three breaks was taken: d is at the target
    distance within the [zero] tolerance (minimization finished), or d is
    below the threshold, or the recorded time is past t1 (search
    exhausted). *)
Lemma intercept_search_early_exit (orbit1 orbit2 : orbit)
    (t0 t1 threshold target_distance : double) (max_steps : Z) :
  (Z.of_nat (search_evaluations orbit1 orbit2 t0 t1 threshold target_distance max_steps)
     < max_steps)%Z ->
  let r := snd (intercept_search orbit1 orbit2 t0 t1 threshold target_distance
                  max_steps) in
  exists d,
    distance r = Some d /\
    (zero (square (d - fmax 0 target_distance) / square threshold) = true \/
     d < threshold \/ t1 < time r).
Proof.
  unfold search_evaluations, intercept_search, search_run; cbn [snd].
  set (env := search_env_of _ _ _ _ _ _ _). intro Hev.
  destruct (search_loop_stop_reason env (Z.to_nat max_steps) 0%Z (search_init env))
    as (smp & Hl & Hr).
  { cbn [search_init evals]. lia. }
  unfold intercept_of. rewrite Hl. cbn [distance time].
  exists (s_dist smp). split; [reflexivity | exact Hr].
Qed.

End SearchFacts.

(** * Further properties of intercept_orbit *)

Section OrbitSearches.

Context {C : Collaborators}.

Lemma search_no_steps_distance (orbit1 orbit2 : orbit)
    (t0 t1 threshold target_distance : double) (max_steps : Z) :
  (max_steps <= 0)%Z ->
  distance (snd (intercept_search orbit1 orbit2 t0 t1 threshold target_distance
                   max_steps)) = None.
Proof.
  intro Hms. unfold intercept_search, search_run.
  replace (Z.to_nat max_steps) with 0%nat by lia. reflexivity.
Qed.

Lemma search_intervals_no_steps (orbit1 orbit2 : orbit) (threshold target_distance : double)
    (max_intercepts max_steps : Z) (times : list (double * double)) :
  (max_steps <= 0)%Z ->
  forall (found : list intercept) (calls : list call),
    fst (search_intervals orbit1 orbit2 threshold target_distance max_intercepts
           max_steps times found calls) = found.
Proof.
  intro Hms. induction times as [| [t_begin t_end] rest IH]; intros found calls;
    cbn [search_intervals]; [reflexivity |].
  destruct ((t_begin <? t_end) && _)%bool; [| apply IH].
  pose proof (search_no_steps_distance orbit1 orbit2 t_begin t_end threshold
                target_distance max_steps Hms) as Hd.
  destruct (intercept_search _ _ _ _ _ _ _) as [r icpt]. cbn [snd] in Hd.
  rewrite Hd. apply IH.
Qed.

(** X18.  Without a step budget (max_steps <= 0) [intercept_orbit] finds
    nothing: every search comes back with a NAN distance, which the
    acceptance test rejects, so no record is written.  (For every call
    with a defined result: the walk of [intercept_times] returns and stays
    within the array [times].) *)
Lemma intercept_orbit_no_steps (fuel : nat) (orbit1 orbit2 : orbit)
    (t0 t1 threshold target_distance : double) (max_intercepts max_steps : Z)
    (fs : fs4 * fs4) (n : Z) (found : list intercept) (calls : list call) :
  (max_steps <= 0)%Z ->
  intercept_orbit fuel orbit1 orbit2 t0 t1 threshold target_distance
      max_intercepts max_steps fs = Some (n, found, calls) ->
  found = [].
Proof.
  intro Hms. unfold intercept_orbit.
  destruct (intercept_intersect orbit1 orbit2 threshold (fst fs)) as [n0 fs_lo].
  destruct (n0 =? 0)%Z.
  { intro H; injection H as _ <- _. reflexivity. }
  destruct (intercept_intersect orbit1 orbit2 threshold (snd fs)) as [n1 fs_hi].
  destruct (n1 =? 0)%Z.
  { intro H; injection H as _ <- _. reflexivity. }
  destruct (intercept_times _ _ _ _ _ _ _) as [[ts times] |]; [| discriminate].
  destruct (Z.max 0 (4 * max_intercepts) <? 2 * ts)%Z; [discriminate |].
  match goal with
  | |- context [search_intervals ?a ?b ?c ?d ?e ?f ?g ?h ?i] =>
      pose proof (search_intervals_no_steps a b c d e f g Hms h i) as H;
      destruct (search_intervals a b c d e f g h i) as [fd cl]
  end.
  cbn [fst] in H. intro E; injection E as _ <- _. exact H.
Qed.

Lemma search_intervals_full (orbit1 orbit2 : orbit) (threshold target_distance : double)
    (max_intercepts max_steps : Z) (times : list (double * double)) :
  forall (found : list intercept) (calls : list call),
    (max_intercepts <= Z.of_nat (length found))%Z ->
    search_intervals orbit1 orbit2 threshold target_distance max_intercepts
      max_steps times found calls = (found, calls).
Proof.
  induction times as [| [t_begin t_end] rest IH]; intros found calls Hfull;
    cbn [search_intervals]; [reflexivity |].
  replace (Z.of_nat (length found) <? max_intercepts)%Z with false
    by (symmetry; apply Z.ltb_ge; exact Hfull).
  rewrite andb_false_r. apply IH, Hfull.
Qed.

Lemma search_intervals_trace (orbit1 orbit2 : orbit) (threshold target_distance : double)
    (max_intercepts max_steps : Z) (times : list (double * double)) :
  forall (found : list intercept) (calls : list call),
  exists k : nat,
    let kept := firstn k (filter nonempty_interval times) in
    let r := search_intervals orbit1 orbit2 threshold target_distance max_intercepts
               max_steps times found calls in
    snd r = calls ++ map (search_on orbit1 orbit2) kept /\
    (length (fst r) <= length found + length kept)%nat.
Proof.
  induction times as [| [t_begin t_end] rest IH]; intros found calls;
    cbn [search_intervals].
  - exists 0%nat. cbn. rewrite app_nil_r. split; [reflexivity | lia].
  - cbn [filter].
    replace (nonempty_interval (t_begin, t_end)) with (t_begin <? t_end) by reflexivity.
    destruct (t_begin <? t_end) eqn:Ene; cbn [andb]; [| apply IH].
    destruct (Z.of_nat (length found) <? max_intercepts)%Z eqn:Ecap.
    + destruct (intercept_search _ _ _ _ _ _ _) as [r icpt].
      match goal with
      | |- context [search_intervals _ _ _ _ _ _ rest ?f ?c] =>
          destruct (IH f c) as (k & Hc & Hf);
          assert (Hlen : (length f <= S (length found))%nat)
      end.
      { destruct (distance icpt) as [d |]; [| lia].
        destruct (d <=? threshold); [| lia].
        rewrite length_app; cbn [length]. lia. }
      exists (S k). cbv zeta in *. cbn [firstn map length].
      rewrite Hc, <- app_assoc. split; [reflexivity | lia].
    + apply Z.ltb_ge in Ecap.
      rewrite search_intervals_full by exact Ecap.
      exists 0%nat. cbn. rewrite app_nil_r. split; [reflexivity | lia].
Qed.

Lemma filter_search_on (orbit1 orbit2 : orbit) (l : list (double * double)) :
  filter is_search (map (search_on orbit1 orbit2) l) = map (search_on orbit1 orbit2) l.
Proof.
  induction l as [| iv l IH]; [reflexivity |].
  cbn [map filter search_on is_search]. rewrite IH. reflexivity.
Qed.

(** X19.  [intercept_orbit] searches each time interval at most once, from
    the begin of the interval to its end, in the order [intercept_times]
    wrote them, and stops searching for good once [max_intercepts] records
    are accepted: its calls of [intercept_search] are those on a prefix of
    the non-empty intervals.  There are at least as many searches as
    records.  (For every call with a defined result: the walk of
    [intercept_times] returns and stays within the array [times].) *)
Lemma intercept_orbit_searches (fuel : nat) (orbit1 orbit2 : orbit)
    (t0 t1 threshold target_distance : double) (max_intercepts max_steps : Z)
    (fs : fs4 * fs4) (n ts : Z) (found : list intercept) (calls : list call)
    (times : list (double * double)) :
  intercept_orbit fuel orbit1 orbit2 t0 t1 threshold target_distance
      max_intercepts max_steps fs = Some (n, found, calls) ->
  intercept_times fuel orbit1 orbit2 t0 t1
      (snd (intercept_intersect orbit1 orbit2 threshold (fst fs)),
       snd (intercept_intersect orbit1 orbit2 threshold (snd fs)))
      (4 * max_intercepts) = Some (ts, times) ->
  let searches := filter is_search calls in
  (length found <= length searches)%nat /\
  exists k : nat,
    searches = map (search_on orbit1 orbit2) (firstn k (filter nonempty_interval times)).
Proof.
  unfold intercept_orbit.
  destruct (intercept_intersect orbit1 orbit2 threshold (fst fs)) as [n0 fs_lo].
  destruct (n0 =? 0)%Z.
  { intro H; injection H as _ <- <-. intros _. cbn. split; [lia | now exists 0%nat]. }
  destruct (intercept_intersect orbit1 orbit2 threshold (snd fs)) as [n1 fs_hi].
  destruct (n1 =? 0)%Z.
  { intro H; injection H as _ <- <-. intros _. cbn. split; [lia | now exists 0%nat]. }
  cbn [snd]. intros H Ht. rewrite Ht in H.
  destruct (Z.max 0 (4 * max_intercepts) <? 2 * ts)%Z; [discriminate |].
  match type of H with
  | context [search_intervals ?a ?b ?c ?d ?e ?f ?g ?h ?i] =>
      destruct (search_intervals_trace a b c d e f g h i) as (k & Hc & Hf);
      destruct (search_intervals a b c d e f g h i) as [fd cl]
  end.
  cbv zeta in Hc, Hf. cbn [fst snd length] in Hc, Hf.
  injection H as _ <- <-. rewrite Hc.
  cbv zeta. rewrite filter_app. cbn [filter is_search app].
  rewrite filter_search_on, length_map. split; [lia | now exists k].
Qed.

End OrbitSearches.

Section OrbitNothing.

Context {C : Collaborators}.

(** X20.  On an empty time window (t1 <= t0) [intercept_orbit] returns
    without a single call of [intercept_search] and without a record,
    whatever the orbits. *)
Lemma intercept_orbit_empty_window (fuel : nat) (orbit1 orbit2 : orbit)
    (t0 t1 threshold target_distance : double) (max_intercepts max_steps : Z)
    (fs : fs4 * fs4) :
  t1 <= t0 ->
  exists (n : Z) (calls : list call),
    intercept_orbit fuel orbit1 orbit2 t0 t1 threshold target_distance
      max_intercepts max_steps fs = Some (n, [], calls) /\
    filter is_search calls = [].
Proof.
  intro H. unfold intercept_orbit.
  destruct (intercept_intersect orbit1 orbit2 threshold (fst fs)) as [n0 fs_lo].
  destruct (n0 =? 0)%Z; [eexists; eexists; split; reflexivity |].
  destruct (intercept_intersect orbit1 orbit2 threshold (snd fs)) as [n1 fs_hi].
  destruct (n1 =? 0)%Z; [eexists; eexists; split; reflexivity |].
  assert (Ht : intercept_times fuel orbit1 orbit2 t0 t1 (fs_lo, fs_hi)
                 (4 * max_intercepts) = Some (0%Z, [])).
  { unfold intercept_times.
    pose proof (walk_init_state orbit1 orbit2 t0 t1 (fs_lo, fs_hi)) as Hw.
    destruct (walk_init orbit1 orbit2 t0 t1 (fs_lo, fs_hi)) as [[times periods] w0].
    cbn [snd] in Hw. destruct Hw as [Hwt Hit].
    rewrite walk_loop_no_entry.
    - unfold num_times. rewrite Hit. reflexivity.
    - left. rewrite Hwt. exact H. }
  rewrite Ht.
  replace (Z.max 0 (4 * max_intercepts) <? 2 * 0)%Z with false
    by (symmetry; apply Z.ltb_ge; lia).
  cbn [search_intervals].
  eexists; eexists; split; reflexivity.
Qed.

End OrbitNothing.

Section OrbitTimesArray.

Context {C : Collaborators}.

(** X26.  The array [times] of [intercept_orbit] has room for half of what
    [intercept_times] may write into it.  Line 487 sets [max_times] to
    4 * max_intercepts, line 488 declares [double times[max_times]], and
    line 489 lets [intercept_times] write up to [max_times] intervals of
    two doubles each (lines 234-236).  When both calls of
    [intercept_intersect] find ranges and the walk finds more than
    2 * max_intercepts intervals, it writes past the end of the array and
    [intercept_orbit] has no defined result. *)
Lemma intercept_orbit_times_overflow (fuel : nat) (orbit1 orbit2 : orbit)
    (t0 t1 threshold target_distance : double) (max_intercepts max_steps : Z)
    (fs : fs4 * fs4) (ts : Z) (times : list (double * double)) :
  fst (intercept_intersect orbit1 orbit2 threshold (fst fs)) <> 0%Z ->
  fst (intercept_intersect orbit1 orbit2 threshold (snd fs)) <> 0%Z ->
  intercept_times fuel orbit1 orbit2 t0 t1
      (snd (intercept_intersect orbit1 orbit2 threshold (fst fs)),
       snd (intercept_intersect orbit1 orbit2 threshold (snd fs)))
      (4 * max_intercepts) = Some (ts, times) ->
  (0 <= max_intercepts)%Z -> (2 * max_intercepts < ts)%Z ->
  intercept_orbit fuel orbit1 orbit2 t0 t1 threshold target_distance
    max_intercepts max_steps fs = None.
Proof.
  unfold intercept_orbit.
  destruct (intercept_intersect orbit1 orbit2 threshold (fst fs)) as [n0 fs_lo].
  destruct (intercept_intersect orbit1 orbit2 threshold (snd fs)) as [n1 fs_hi].
  cbn [fst snd]. intros H0 H1 Ht Hm Hts.
  apply Z.eqb_neq in H0, H1. rewrite H0, H1, Ht.
  replace (Z.max 0 (4 * max_intercepts) <? 2 * ts)%Z with true
    by (symmetry; apply Z.ltb_lt; lia).
  reflexivity.
Qed.

End OrbitTimesArray.

(** * intercept_dump: the sampling grid *)

Section DumpFacts.

Context {C : Collaborators}.

Lemma intercept_dump_line (orbit1 orbit2 : orbit) (t0 t1 : double) (i : nat)
    (line : double * double * double) :
  nth_error (snd (intercept_dump orbit1 orbit2 t0 t1)) i = Some line ->
  (i < 100)%nat /\
  fst (fst line) = t0 + (of_int (Z.of_nat i) / of_int 99) * (t1 - t0).
Proof.
  unfold intercept_dump. cbn [snd].
  change (Z.to_nat 100) with 100%nat.
  rewrite nth_error_map, nth_error_seq.
  destruct (i <? 100)%nat eqn:Ei; [| discriminate].
  apply Nat.ltb_lt in Ei. cbn [option_map Nat.add].
  intro H. injection H as <-. split; [exact Ei | reflexivity].
Qed.

Lemma intercept_dump_nth (orbit1 orbit2 : orbit) (t0 t1 : double) (i : nat) :
  (i < 100)%nat ->
  exists line, nth_error (snd (intercept_dump orbit1 orbit2 t0 t1)) i = Some line.
Proof.
  intro Hi. unfold intercept_dump. cbn [snd].
  change (Z.to_nat 100) with 100%nat.
  rewrite nth_error_map, nth_error_seq.
  apply Nat.ltb_lt in Hi. rewrite Hi. cbn [option_map]. eexists. reflexivity.
Qed.

(** X21.  [intercept_dump] returns 0 and writes 100 lines, whatever the
    orbits and the window.  The first line is for t0, the last one for t1,
    and on a window t0 <= t1 the times of the lines ascend: the samples
    cover the window from end to end. *)
Lemma intercept_dump_grid (orbit1 orbit2 : orbit) (t0 t1 : double) :
  let r := intercept_dump orbit1 orbit2 t0 t1 in
  fst r = 0%Z /\ length (snd r) = 100%nat /\
  (exists line, nth_error (snd r) 0 = Some line /\ fst (fst line) == t0) /\
  (exists line, nth_error (snd r) 99 = Some line /\ fst (fst line) == t1) /\
  (t0 <= t1 ->
   forall (i j : nat) (a b : double * double * double),
     (i <= j)%nat -> nth_error (snd r) i = Some a -> nth_error (snd r) j = Some b ->
     fst (fst a) <= fst (fst b)).
Proof.
  cbv zeta. split; [reflexivity |]. split.
  { unfold intercept_dump. cbn [snd]. rewrite length_map, length_seq. reflexivity. }
  split; [| split].
  - destruct (intercept_dump_nth orbit1 orbit2 t0 t1 0) as [line Hl]; [lia |].
    exists line. split; [exact Hl |].
    apply intercept_dump_line in Hl. destruct Hl as [_ ->].
    assert (E : of_int (Z.of_nat 0) / of_int 99 == 0) by reflexivity.
    rewrite E. ring.
  - destruct (intercept_dump_nth orbit1 orbit2 t0 t1 99) as [line Hl]; [lia |].
    exists line. split; [exact Hl |].
    apply intercept_dump_line in Hl. destruct Hl as [_ ->].
    assert (E : of_int (Z.of_nat 99) / of_int 99 == 1) by reflexivity.
    rewrite E. ring.
  - intros Hw i j a b Hij Ha Hb.
    apply intercept_dump_line in Ha, Hb.
    destruct Ha as [_ ->]. destruct Hb as [_ ->].
    assert (Hz : of_int (Z.of_nat i) <= of_int (Z.of_nat j)).
    { unfold of_int. rewrite <- Zle_Qle. lia. }
    assert (Hq : of_int (Z.of_nat i) / of_int 99 <= of_int (Z.of_nat j) / of_int 99).
    { unfold Qdiv. apply Qmult_le_compat_r; [exact Hz | discriminate]. }
    assert (Hd : 0 <= t1 - t0) by lra.
    pose proof (Qmult_le_compat_r _ _ (t1 - t0) Hq Hd). lra.
Qed.

End DumpFacts.

(** * intercept_times on orbits that are not elliptic *)

Section OpenWalk.

Context {C : Collaborators}.

Variable orbits : orbit * orbit.
Variable fs : fs4 * fs4.
Variable times : fs4 * fs4.
Variable periods : double * double.
Variables t0 t1 : double.
Variable max_times : Z.

Hypothesis open0 : orbit_elliptic (fst orbits) = false.
Hypothesis open1 : orbit_elliptic (snd orbits) = false.

(** An iteration that does not leave the loop moves one orbit from its
    first range to its second. *)
Lemma walk_step_open (w w' : walk) :
  walk_step orbits fs times periods t0 t1 w = (w', false) ->
  (fst (isect w) <= 1)%nat -> (snd (isect w) <= 1)%nat ->
  (fst (isect w') <= 1)%nat /\ (snd (isect w') <= 1)%nat /\
  (fst (isect w') + snd (isect w') = S (fst (isect w) + snd (isect w)))%nat.
Proof.
  unfold walk_step. cbv zeta.
  destruct (snd (trange times periods w 0) <? snd (trange times periods w 1));
    cbn [sel2];
    match goal with
    | |- context [((?a =? 2)%nat || ?b)%bool] =>
        destruct ((a =? 2)%nat || b)%bool eqn:E
    end;
    rewrite ?open0, ?open1; cbn [negb]; try discriminate;
    apply orb_false_iff in E; destruct E as [E _]; apply Nat.eqb_neq in E;
    intro H; injection H as <-; cbn [isect set2 fst snd]; intros; lia.
Qed.

Lemma walk_loop_open (fuel : nat) :
  forall w : walk,
    (fst (isect w) <= 1)%nat -> (snd (isect w) <= 1)%nat ->
    (3 <= fuel + fst (isect w) + snd (isect w))%nat ->
    exists w',
      walk_loop fuel orbits fs times periods t0 t1 max_times w = Some w' /\
      (length (itimes w') + fst (isect w) + snd (isect w) <= length (itimes w) + 3)%nat.
Proof.
  induction fuel as [| fuel IH]; intros w H0 H1 Hfuel; [lia |].
  cbn [walk_loop].
  destruct ((wt w <? t1) && (num_times w <? max_times)%Z)%bool;
    [| exists w; split; [reflexivity | lia]].
  destruct (walk_step orbits fs times periods t0 t1 w) as [w1 brk] eqn:Estep.
  pose proof (walk_step_count orbits fs times periods t0 t1 w w1 brk Estep) as Hc.
  unfold num_times in Hc.
  destruct brk.
  - exists w1. split; [reflexivity | lia].
  - destruct (walk_step_open w w1 Estep H0 H1) as (G0 & G1 & Gs).
    destruct (IH w1 G0 G1) as (w' & Hw' & Hlen); [lia |].
    exists w'. split; [exact Hw' | lia].
Qed.

End OpenWalk.

Section OpenOrbits.

Context {C : Collaborators}.

(** X22.  When neither orbit is elliptic the merge walk of
    [intercept_times] is over after three passes at most: it returns, and
    it has written at most three intervals. *)
Lemma intercept_times_open_orbits (fuel : nat) (orbit1 orbit2 : orbit)
    (t0 t1 : double) (fs : fs4 * fs4) (max_times : Z) :
  orbit_elliptic orbit1 = false -> orbit_elliptic orbit2 = false ->
  (3 <= fuel)%nat ->
  exists (n : Z) (ivs : list (double * double)),
    intercept_times fuel orbit1 orbit2 t0 t1 fs max_times = Some (n, ivs) /\
    (length ivs <= 3)%nat.
Proof.
  intros Ho1 Ho2 Hfuel. unfold intercept_times.
  assert (Hw : let w0 := snd (walk_init orbit1 orbit2 t0 t1 fs) in
               isect w0 = (0%nat, 0%nat) /\ itimes w0 = []).
  { unfold walk_init.
    destruct (orbit_times _ t0 t1 orbit1 (fst fs)) as [[times0 P0] n0].
    destruct (orbit_times _ t0 t1 orbit2 (snd fs)) as [[times1 P1] n1].
    split; reflexivity. }
  destruct (walk_init orbit1 orbit2 t0 t1 fs) as [[times periods] w0].
  cbn [snd] in Hw. destruct Hw as [Hi Ht].
  destruct (walk_loop_open (orbit1, orbit2) fs times periods t0 t1 max_times
              Ho1 Ho2 fuel w0) as (w' & Hw' & Hlen);
    try (rewrite Hi; cbn [fst snd]; lia).
  rewrite Hw'. exists (num_times w'), (rev (itimes w')).
  split; [reflexivity |].
  rewrite length_rev. rewrite Hi, Ht in Hlen. cbn [fst snd length] in Hlen. lia.
Qed.

End OpenOrbits.

(** * intersect_ranges: the anomalies covered *)

Section RangesMeaning.

Context {C : Collaborators}.

Lemma union_periapsis_within (fs : fs4) :
  within_pi fs -> within_pi (union_periapsis fs).
Proof.
  pose proof M_PI_gt_3 as Hpi. intro H.
  unfold union_periapsis. destruct (_ && _); [| exact H].
  destruct H as (h0 & h1 & h2 & h3).
  unfold within_pi; cbn [f_0 f_1 f_2 f_3]. repeat split; try tauto; lra.
Qed.

Lemma compact_ranges_within (fs : fs4) :
  within_pi fs -> within_pi (compact_ranges fs).
Proof.
  pose proof M_PI_gt_3 as Hpi. intro H.
  unfold compact_ranges. destruct (_ && _); [| exact H].
  destruct H as (h0 & h1 & h2 & h3).
  unfold within_pi; cbn [f_0 f_1 f_2 f_3]. repeat split; try tauto; lra.
Qed.

Lemma compact_ranges_covers (fs : fs4) (x : double) :
  in_ranges (compact_ranges fs) x <-> in_ranges fs x.
Proof.
  unfold compact_ranges.
  destruct (f_2 fs <? f_3 fs) eqn:E2; destruct (f_0 fs <? f_1 fs) eqn:E0;
    cbn [andb negb]; try reflexivity.
  cmp_to_prop. unfold in_ranges; cbn [f_0 f_1 f_2 f_3]. split.
  - intros [H | H]; [right; exact H | lra].
  - intros [H | H]; [lra | left; exact H].
Qed.

Lemma full_orbit_covers (fs : fs4) (x : double) :
  within_pi fs -> length_test_exact (f_0 fs) (f_1 fs) ->
  (in_ranges (full_orbit fs) x <-> in_ranges fs x).
Proof.
  pose proof M_PI_pos as Hpi. intros (h0 & h1 & h2 & h3) Hex.
  unfold full_orbit. destruct (_ >=? _) eqn:E; [| reflexivity].
  cmp_to_prop. specialize (Hex E).
  unfold in_ranges; cbn [f_0 f_1 f_2 f_3]. split.
  - intros [H | H]; [left; lra | right; exact H].
  - intros [H | H]; [left; lra | right; exact H].
Qed.

Lemma rotate_apoapsis_within (fs : fs4) :
  within_pi fs -> rotate_apoapsis fs = fs.
Proof.
  intros (_ & _ & _ & _ & h3). apply rotate_apoapsis_skip. right. exact h3.
Qed.

(** The overlap of two sorted sources: the same range twice when both
    sources have one range, two ranges in order otherwise. *)
Lemma overlap_sorted (fs1 fs2 : fs4) :
  sorted_ranges fs1 -> sorted_ranges fs2 ->
  let g := overlap fs1 fs2 in
  (f_2 g = f_0 g /\ f_3 g = f_1 g) \/ f_1 g < f_2 g.
Proof.
  intros S1 S2. unfold overlap, overlap_cell; cbn [f_0 f_1 f_2 f_3].
  destruct (Qlt_le_dec (f_2 fs1) (f_3 fs1)) as [T1 | T1];
    destruct (Qlt_le_dec (f_2 fs2) (f_3 fs2)) as [T2 | T2].
  - right. rewrite !(pick_two fs1), !(pick_two fs2) by assumption. cbn [Nat.mul Nat.add at4].
    pose proof (fmin_le_l (f_1 fs1) (f_1 fs2)). pose proof (fmax_ge_l (f_2 fs1) (f_2 fs2)).
    specialize (S1 T1). lra.
  - right. rewrite !(pick_two fs1), !(pick_one fs2) by assumption. cbn [Nat.mul Nat.add at4].
    pose proof (fmin_le_l (f_1 fs1) (f_1 fs2)). pose proof (fmax_ge_l (f_2 fs1) (f_0 fs2)).
    specialize (S1 T1). lra.
  - right. rewrite !(pick_one fs1), !(pick_two fs2) by assumption. cbn [Nat.mul Nat.add at4].
    pose proof (fmin_le_r (f_1 fs1) (f_1 fs2)). pose proof (fmax_ge_r (f_0 fs1) (f_2 fs2)).
    specialize (S2 T2). lra.
  - left. rewrite !(pick_one fs1), !(pick_one fs2) by assumption. split; reflexivity.
Qed.

Lemma union_periapsis_covers (g : fs4) (x : double) :
  (f_2 g = f_0 g /\ f_3 g = f_1 g) \/ (f_1 g < f_2 g /\ zero (f_1 g - f_2 g) = false) ->
  (in_ranges (union_periapsis g) x <-> in_ranges g x).
Proof.
  intros [[E2 E3] | H].
  - unfold union_periapsis. rewrite E2, E3.
    destruct (f_0 g <? f_1 g) eqn:E.
    + assert (E' : (f_1 g >=? f_0 g) = true) by (cmp_to_prop; apply Qleb_le; lra).
      rewrite E'. cbn [orb andb]. unfold in_ranges; cbn [f_0 f_1 f_2 f_3].
      rewrite E2, E3. cmp_to_prop. split.
      * intros [H | H]; [left; exact H | lra].
      * intros [H | H]; left; exact H.
    + rewrite andb_false_r. reflexivity.
  - rewrite union_periapsis_skip by (right; exact H). reflexivity.
Qed.

Lemma pick_covers (fs : fs4) (i : nat) (x : double) :
  (i <= 1)%nat ->
  pick fs i 0 < pick fs i 1 -> pick fs i 0 <= x -> x <= pick fs i 1 ->
  in_ranges fs x.
Proof.
  intro Hi. unfold pick, in_ranges. cbn [at4].
  destruct (f_2 fs <? f_3 fs) eqn:E; cmp_to_prop.
  - assert (Hc : i = 0%nat \/ i = 1%nat) by lia.
    destruct Hc as [-> | ->]; cbn [Nat.mul Nat.add at4]; intros; [left | right];
      repeat split; assumption.
  - cbn [Nat.add at4]. intros. left. repeat split; assumption.
Qed.

Lemma overlap_sound (fs1 fs2 : fs4) (x : double) :
  in_ranges (overlap fs1 fs2) x -> in_ranges fs1 x /\ in_ranges fs2 x.
Proof.
  unfold overlap, overlap_cell. unfold in_ranges at 1. cbn [f_0 f_1 f_2 f_3].
  intros [(Hne & Hlo & Hhi) | (Hne & Hlo & Hhi)].
  - pose proof (fmax_ge_l (pick fs1 0 0) (pick fs2 0 0)).
    pose proof (fmax_ge_r (pick fs1 0 0) (pick fs2 0 0)).
    pose proof (fmin_le_l (pick fs1 0 1) (pick fs2 0 1)).
    pose proof (fmin_le_r (pick fs1 0 1) (pick fs2 0 1)).
    split; apply (pick_covers _ 0); try lia; lra.
  - pose proof (fmax_ge_l (pick fs1 1 0) (pick fs2 1 0)).
    pose proof (fmax_ge_r (pick fs1 1 0) (pick fs2 1 0)).
    pose proof (fmin_le_l (pick fs1 1 1) (pick fs2 1 1)).
    pose proof (fmin_le_r (pick fs1 1 1) (pick fs2 1 1)).
    split; apply (pick_covers _ 1); try lia; lra.
Qed.

(** The first range on arrival at line 54 is one of the two ranges of
    the overlap. *)
Lemma first_range_of_overlap (g : fs4) :
  (f_2 g = f_0 g /\ f_3 g = f_1 g) \/ (f_1 g < f_2 g /\ zero (f_1 g - f_2 g) = false) ->
  let h := compact_ranges (union_periapsis g) in
  (f_0 h = f_0 g /\ f_1 h = f_1 g) \/ (f_0 h = f_2 g /\ f_1 h = f_3 g).
Proof.
  intros [[E2 E3] | H].
  - unfold union_periapsis. rewrite E2, E3.
    destruct ((_ || _) && _)%bool; unfold compact_ranges; cbn [f_0 f_1 f_2 f_3].
    + change (1 <? -1) with false. cbn [andb f_0 f_1]. left; split; reflexivity.
    + rewrite E2, E3. destruct (f_0 g <? f_1 g); cbn [andb negb];
        left; split; reflexivity.
  - rewrite union_periapsis_skip by (right; exact H).
    unfold compact_ranges. destruct (_ && _)%bool; cbn [f_0 f_1];
      [right | left]; split; reflexivity.
Qed.

(** X23.  What [intersect_ranges] computes on an orbit that is not closed.
    For two sources in the principal range -pi..pi, each with its ranges in
    order, the rules applied after the pairwise overlap (lines 24-58) do
    not change the set of true anomalies covered: an anomaly lies in a
    range of the result exactly when it lies in a range of the pairwise
    overlap of lines 16-22; and then it lies in a range of each source.
    This holds when the two ranges of the overlap are not within the
    [zero] tolerance of each other and the length test of line 54 is not
    decided by rounding on either of them. *)
Lemma intersect_ranges_open_covers (fs1 fs2 : fs4) (x : double) :
  within_pi fs1 -> within_pi fs2 ->
  sorted_ranges fs1 -> sorted_ranges fs2 ->
  (f_1 (overlap fs1 fs2) < f_2 (overlap fs1 fs2) ->
   zero (f_1 (overlap fs1 fs2) - f_2 (overlap fs1 fs2)) = false) ->
  length_test_exact (f_0 (overlap fs1 fs2)) (f_1 (overlap fs1 fs2)) ->
  length_test_exact (f_2 (overlap fs1 fs2)) (f_3 (overlap fs1 fs2)) ->
  (in_ranges (snd (intersect_ranges fs1 fs2 false)) x <->
   in_ranges (overlap fs1 fs2) x) /\
  (in_ranges (snd (intersect_ranges fs1 fs2 false)) x ->
   in_ranges fs1 x /\ in_ranges fs2 x).
Proof.
  intros W1 W2 S1 S2 Hgap X1 X2.
  assert (Hiff : in_ranges (snd (intersect_ranges fs1 fs2 false)) x <->
                 in_ranges (overlap fs1 fs2) x).
  { pose proof (overlap_within fs1 fs2 W1 W2) as Wg.
    pose proof (overlap_sorted fs1 fs2 S1 S2) as Hs. cbv zeta in Hs.
    set (g := overlap fs1 fs2) in *.
    assert (Hs' : (f_2 g = f_0 g /\ f_3 g = f_1 g) \/
                  (f_1 g < f_2 g /\ zero (f_1 g - f_2 g) = false)).
    { destruct Hs as [Hs | Hs]; [left; exact Hs
                                | right; split; [exact Hs | exact (Hgap Hs)]]. }
    unfold intersect_ranges; cbn [snd]. fold g.
    unfold normalize_ranges, union_apoapsis. cbn [andb].
    pose proof (union_periapsis_within g Wg) as Wu.
    rewrite (rotate_apoapsis_within _ Wu).
    rewrite full_orbit_covers.
    - rewrite compact_ranges_covers. apply union_periapsis_covers, Hs'.
    - apply compact_ranges_within; exact Wu.
    - destruct (first_range_of_overlap g Hs') as [[-> ->] | [-> ->]]; assumption. }
  split; [exact Hiff |].
  intro H. apply overlap_sound, Hiff, H.
Qed.

End RangesMeaning.

(** * The theorems at concrete inputs *)

Lemma planar_zero_proper : Proper (Qeq ==> eq) (@zero Planar.collaborators).
Proof.
  intros x y H. cbn [zero Planar.collaborators]. unfold Planar.zero.
  rewrite H. reflexivity.
Defined.

(** C6 at two range pairs of a closed orbit. *)
Lemma intersect_ranges_comm_witness :
  fst (intersect_ranges (C := Planar.collaborators)
         (Fs4 (-4) (-2) (-1) 1) (Fs4 (-3) 0 (1 # 2) 3) true) =
  fst (intersect_ranges (C := Planar.collaborators)
         (Fs4 (-3) 0 (1 # 2) 3) (Fs4 (-4) (-2) (-1) 1) true) /\
  fs4_eq
    (snd (intersect_ranges (C := Planar.collaborators)
            (Fs4 (-4) (-2) (-1) 1) (Fs4 (-3) 0 (1 # 2) 3) true))
    (snd (intersect_ranges (C := Planar.collaborators)
            (Fs4 (-3) 0 (1 # 2) 3) (Fs4 (-4) (-2) (-1) 1) true)).
Proof.
  exact (@intersect_ranges_comm Planar.collaborators planar_zero_proper
           (Fs4 (-4) (-2) (-1) 1) (Fs4 (-3) 0 (1 # 2) 3) true).
Defined.

(** C7 (amended) at two separated ranges of a closed orbit, the first
    below -pi. *)
Lemma intersect_ranges_full_normal_witness :
  normal_ranges (C := Planar.collaborators) true (Fs4 (-4) (-2) (-1) 1) /\
  fst (intersect_ranges (C := Planar.collaborators)
         (Fs4 (-4) (-2) (-1) 1) (full_range true) true) = 2%Z /\
  fs4_eq (snd (intersect_ranges (C := Planar.collaborators)
                 (Fs4 (-4) (-2) (-1) 1) (full_range true) true))
         (Fs4 (-4) (-2) (-1) 1).
Proof.
  assert (H : normal_ranges (C := Planar.collaborators) true (Fs4 (-4) (-2) (-1) 1)).
  { unfold normal_ranges; cbn [f_0 f_1 f_2 f_3].
    split; [reflexivity |]. split; [discriminate |]. right.
    repeat split; try reflexivity; try discriminate.
    intros _ [_ [Hpi | Hpi]]; [revert Hpi | discriminate].
    unfold M_PI. unfold Qle; cbn. lia. }
  split; [exact H |].
  exact (intersect_ranges_full_normal (C := Planar.collaborators) true
           (Fs4 (-4) (-2) (-1) 1) H).
Defined.

(** C8 at a radial first orbit. *)
Lemma intercept_intersect_radial_witness :
  intercept_intersect (C := Planar.collaborators)
    Planar.radial_orbit (Planar.circular 2) (1 # 10) (Fs4 7 8 9 10)
  = (0%Z, Fs4 7 8 9 10).
Proof.
  apply (intercept_intersect_radial (C := Planar.collaborators)).
  left. reflexivity.
Defined.

(** C5 at two nearby circular orbits, the inner one catching up: the
    distance at t0 = -1/10 is 211/4200, below the threshold 1/5, and the
    closing rate is negative.  The recorded time is t0. *)
Lemma intercept_search_threshold_step_dropped_witness :
  time (snd (intercept_search (C := Planar.collaborators)
               (Planar.circular 1) (Planar.circular (21 # 20))
               (- (1 # 10)) 1 (1 # 5) 0 10)) = - (1 # 10) /\
  search_evaluations (C := Planar.collaborators)
    (Planar.circular 1) (Planar.circular (21 # 20)) (- (1 # 10)) 1 (1 # 5) 0 10 = 1%nat.
Proof.
  apply (intercept_search_threshold_step_dropped (C := Planar.collaborators)
           (Planar.circular 1) (Planar.circular (21 # 20)) (- (1 # 10)) 1 (1 # 5) 0 10).
  - vm_compute. reflexivity.
  - vm_compute. reflexivity.
  - vm_compute. reflexivity.
  - reflexivity.
  - reflexivity.
Defined.

(** C1 at a radial first orbit and t1 = 1000: the value returned is 1000. *)
Lemma intercept_orbit_no_ranges_returns_t1_witness :
  intercept_orbit (C := Planar.collaborators) 0 Planar.radial_orbit (Planar.circular 2)
    0 1000 (1 # 10) 0 2 10 (Fs4 0 0 0 0, Fs4 0 0 0 0)
  = Some (1000%Z, [],
          [Call_intersect (C := Planar.collaborators)
             Planar.radial_orbit (Planar.circular 2) (1 # 10)]).
Proof.
  apply (intercept_orbit_no_ranges_returns_t1 (C := Planar.collaborators) 0
           Planar.radial_orbit (Planar.circular 2) 0 1000 (1 # 10) 0 2 10
           (Fs4 0 0 0 0, Fs4 0 0 0 0)).
  reflexivity.
Defined.

(** C2 at an elliptic first orbit and a circular second one. *)
Lemma intercept_orbit_passes_orbit1_ranges_twice_witness :
  exists n found calls,
    intercept_orbit (C := Planar.collaborators) 100
      (Planar.conic (3 # 2) (1 # 2)) (Planar.circular 2)
      0 20 (1 # 10) 0 2 10 (Fs4 0 0 0 0, Fs4 0 0 0 0) = Some (n, found, calls) /\
    let ranges1 :=
      snd (intercept_intersect (C := Planar.collaborators)
             (Planar.conic (3 # 2) (1 # 2)) (Planar.circular 2) (1 # 10) (Fs4 0 0 0 0)) in
    nth_error calls 2 =
      Some (Call_times (C := Planar.collaborators)
              (Planar.conic (3 # 2) (1 # 2)) (Planar.circular 2) 0 20
              (ranges1, ranges1) 8).
Proof.
  assert (H : match intercept_orbit (C := Planar.collaborators) 100
                       (Planar.conic (3 # 2) (1 # 2)) (Planar.circular 2)
                       0 20 (1 # 10) 0 2 10 (Fs4 0 0 0 0, Fs4 0 0 0 0)
               with Some _ => true | None => false end = true)
    by (vm_compute; reflexivity).
  destruct (intercept_orbit (C := Planar.collaborators) 100
              (Planar.conic (3 # 2) (1 # 2)) (Planar.circular 2)
              0 20 (1 # 10) 0 2 10 (Fs4 0 0 0 0, Fs4 0 0 0 0))
    as [[[n found] calls] |] eqn:E.
  - exists n, found, calls. split; [reflexivity |].
    apply (intercept_orbit_passes_orbit1_ranges_twice (C := Planar.collaborators) 100
             (Planar.conic (3 # 2) (1 # 2)) (Planar.circular 2)
             0 20 (1 # 10) 0 2 10 (Fs4 0 0 0 0, Fs4 0 0 0 0) n found calls);
      [vm_compute; discriminate | exact E].
  - discriminate H.
Defined.

Lemma planar_mean_motion_positive (r : double) :
  0 < r ->
  mean_motion_positive (C := Planar.collaborators) 1 (Planar.circular r).
Proof.
  intros Hr _. cbn. unfold Planar.conic_mean_motion.
  apply Qlt_shift_div_l; [exact Hr | lra].
Defined.

(** Over the window 0..40 the circular orbits of radius 1 and 2 are in
    period 0 at t0 and past the window in period 7. *)
Lemma planar_counter_fits_1 :
  period_counter_fits (C := Planar.collaborators) 1 0 40 (Planar.circular 1)
    (Fs4 (-1) 1 2 3).
Proof.
  intros _. exists 7%Z. split; [split; [vm_compute; discriminate | reflexivity] |].
  cbv zeta. split; vm_compute; discriminate.
Qed.

Lemma planar_counter_fits_2 :
  period_counter_fits (C := Planar.collaborators) 1 0 40 (Planar.circular 2)
    (Fs4 (-1) 0 1 2).
Proof.
  intros _. exists 7%Z. split; [split; [vm_compute; discriminate | reflexivity] |].
  cbv zeta. split; vm_compute; discriminate.
Qed.

(** C4 at two circular orbits of radius 1 and 2 over the window 0..40,
    with two ranges per orbit and room for 8 intervals: 7 are written. *)
Lemma intercept_times_intervals_witness :
  exists n ivs,
    intercept_times (C := Planar.collaborators) 100
      (Planar.circular 1) (Planar.circular 2) 0 40
      (Fs4 (-1) 1 2 3, Fs4 (-1) 0 1 2) 8 = Some (n, ivs) /\
    length ivs = 7%nat /\
    pairwise_before ivs /\
    Forall (interval_in_window 0 40) ivs /\
    n = Z.of_nat (length ivs) /\
    (n <= Z.max 0 8)%Z.
Proof.
  assert (H : match intercept_times (C := Planar.collaborators) 100
                      (Planar.circular 1) (Planar.circular 2) 0 40
                      (Fs4 (-1) 1 2 3, Fs4 (-1) 0 1 2) 8
              with Some (_, ivs) => length ivs | None => 0%nat end = 7%nat)
    by (vm_compute; reflexivity).
  destruct (intercept_times (C := Planar.collaborators) 100
              (Planar.circular 1) (Planar.circular 2) 0 40
              (Fs4 (-1) 1 2 3, Fs4 (-1) 0 1 2) 8) as [[n ivs] |] eqn:E;
    [| discriminate H].
  exists n, ivs. split; [reflexivity |]. split; [exact H |].
  apply (intercept_times_intervals (C := Planar.collaborators) 100
           (Planar.circular 1) (Planar.circular 2) 0 40
           (Fs4 (-1) 1 2 3, Fs4 (-1) 0 1 2) 8 n ivs).
  - apply (planar_mean_motion_positive 1). reflexivity.
  - apply (planar_mean_motion_positive 2). reflexivity.
  - exact planar_counter_fits_1.
  - exact planar_counter_fits_2.
  - exact E.
Defined.

(** C4 does not hold for every input.  Two circular orbits of radius 1
    (period 2pi, ranges -1..0 and 1/2..1) and 4 (period 8pi, range -3..3)
    over the window 13493037696 .. 13493037700, which lies in period
    [INT_MAX] = 2147483647 of the first orbit, with room for three
    intervals.  Both orbits have a positive mean motion.  The walk writes
    two intervals, the period counter of the first orbit overflows to
    [INT_MIN], and 2^32 periods later the walk is on the same two ranges
    again with the time set back to t0: the first range is merged into the
    interval written last, whose end moves back before its begin, and the
    second is written a second time.  The call returns 3 intervals of
    which the second ends before it begins. *)
Lemma intercept_times_counter_wraps :
  mean_motion_positive (C := Planar.collaborators) 1 (Planar.circular 1) /\
  mean_motion_positive (C := Planar.collaborators) 1 (Planar.circular 4) /\
  exists (fuel : nat) (ivs : list (double * double)) (b e : double),
    intercept_times (C := Planar.collaborators) fuel
      (Planar.circular 1) (Planar.circular 4) 13493037696 13493037700
      (Fs4 (-1) 0 (1 # 2) 1, Fs4 (-3) 3 1 (-1)) 3 = Some (3%Z, ivs) /\
    nth_error ivs 1 = Some (b, e) /\ e < b.
Proof.
  split; [apply (planar_mean_motion_positive 1); reflexivity |].
  split; [apply (planar_mean_motion_positive 4); reflexivity |].
  destruct (Z_of_nat_complete 4294967294 ltac:(discriminate)) as [m Hm].
  pose (o1 := Planar.circular 1). pose (o2 := Planar.circular 4).
  pose (FS := (Fs4 (-1) 0 (1 # 2) 1, Fs4 (-3) 3 1 (-1))).
  pose (init := walk_init (C := Planar.collaborators) o1 o2 13493037696 13493037700 FS).
  pose (times := fst (fst init)). pose (periods := snd (fst init)).
  pose (w0 := snd init).
  pose (stp := walk_step (C := Planar.collaborators) (o1, o2) FS times periods
                 13493037696 13493037700).
  pose (w1 := fst (stp w0)). pose (w2 := fst (stp w1)).
  pose (out := itimes w2).
  pose (res := walk_loop (C := Planar.collaborators) 2 (o1, o2) FS times periods
                 13493037696 13493037700 3
                 (Walk (0%nat, 0%nat) (INT_MAX, 536870912%Z) 13493037696 out)).
  pose (ivs := match res with Some w => rev (itimes w) | None => [] end).
  exists (S (S (S (S (m + m + 2))))), ivs,
         (fst (nth 1 ivs (0, 0))), (snd (nth 1 ivs (0, 0))).
  split; [| split; vm_compute; reflexivity].
  rewrite intercept_times_walk.
  change (match walk_loop (C := Planar.collaborators) (S (S (S (S (m + m + 2)))))
                  (o1, o2) FS times periods 13493037696 13493037700 3 w0 with
          | Some w => Some (num_times w, rev (itimes w))
          | None => None
          end = Some (3%Z, ivs)).
  (* the two ranges of period INT_MAX *)
  rewrite (walk_loop_step (C := Planar.collaborators) (o1, o2) FS times periods
             13493037696 13493037700 3 (S (S (S (m + m + 2)))) w0 w1);
    [| vm_compute; reflexivity | vm_compute; reflexivity].
  rewrite (walk_loop_step (C := Planar.collaborators) (o1, o2) FS times periods
             13493037696 13493037700 3 (S (S (m + m + 2))) w1 w2);
    [| vm_compute; reflexivity | vm_compute; reflexivity].
  replace w2 with (Walk (0%nat, 0%nat) (INT_MIN, 536870912%Z) (wt w2) out)
    by (vm_compute; reflexivity).
  (* the periods INT_MIN .. INT_MAX - 1 *)
  assert (Hround : @orbit_elliptic Planar.collaborators (fst (o1, o2)) = true)
    by reflexivity.
  assert (Hwindow : 13493037696 < 13493037700) by reflexivity.
  assert (Hperiod : 0 <= fst periods) by (vm_compute; discriminate).
  assert (Hsecond : f_2 (fst FS) < f_3 (fst FS)) by reflexivity.
  assert (HK : (2147483646 < INT_MAX)%Z) by reflexivity.
  assert (He1 : f_1 (fst times) + of_int 2147483646 * fst periods < 13493037696)
    by (vm_compute; reflexivity).
  assert (He3 : f_3 (fst times) + of_int 2147483646 * fst periods < 13493037696)
    by (vm_compute; reflexivity).
  assert (Hlate : 13493037696
                  <= range_end times periods 1
                       (0%nat, 536870912%Z))
    by (vm_compute; discriminate).
  assert (Hroom : (Z.of_nat (length out) < 3)%Z) by (vm_compute; reflexivity).
  rewrite (quiet_period (C := Planar.collaborators) (o1, o2) FS times periods
             13493037696 13493037700 3 Hround Hwindow Hperiod Hsecond
             2147483646 HK He1 He3 0%nat 536870912 Hlate
             (m + m + 2) INT_MIN (wt w2) out);
    [| vm_compute; split; discriminate | vm_compute; discriminate
     | vm_compute; reflexivity | exact Hroom].
  rewrite (quiet_phase (C := Planar.collaborators) (o1, o2) FS times periods
             13493037696 13493037700 3 Hround Hwindow Hperiod Hsecond
             2147483646 HK He1 He3 0%nat 536870912 Hlate
             m 2 (INT_MIN + 1)%Z out);
    [| discriminate | rewrite <- Hm; discriminate | exact Hroom].
  rewrite <- Hm.
  (* the two ranges of period INT_MAX again *)
  vm_compute. reflexivity.
Qed.

(** C9 does not hold for every input with a positive mean motion.  The
    circular orbits of radius 1 and 2 over the window 1.5e10 .. 1.5e10 + 40:
    t0 lies in period 2387324146 of the first orbit, the conversion of
    line 203 leaves [INT_MIN] in its counter, and no period an int can
    number reaches t0.  The loop never returns, whatever the fuel. *)
Lemma intercept_times_never_returns :
  mean_motion_positive (C := Planar.collaborators) 1 (Planar.circular 1) /\
  mean_motion_positive (C := Planar.collaborators) 1 (Planar.circular 2) /\
  forall fuel : nat,
    intercept_times (C := Planar.collaborators) fuel
      (Planar.circular 1) (Planar.circular 2) 15000000000 15000000040
      (Fs4 (-1) 1 2 3, Fs4 (-1) 0 1 2) 8 = None.
Proof.
  split; [apply (planar_mean_motion_positive 1); reflexivity |].
  split; [apply (planar_mean_motion_positive 2); reflexivity |].
  intro fuel. rewrite intercept_times_walk.
  set (init := walk_init (C := Planar.collaborators)
                 (Planar.circular 1) (Planar.circular 2) 15000000000 15000000040
                 (Fs4 (-1) 1 2 3, Fs4 (-1) 0 1 2)).
  assert (HP : 0 <= sel2 (snd (fst init)) 0) by (vm_compute; discriminate).
  assert (H1 : f_1 (sel2 (fst (fst init)) 0) + of_int INT_MAX * sel2 (snd (fst init)) 0
               <= 15000000000) by (vm_compute; discriminate).
  assert (H3 : f_3 (sel2 (fst (fst init)) 0) + of_int INT_MAX * sel2 (snd (fst init)) 0
               <= 15000000000) by (vm_compute; discriminate).
  assert (Hs : wt (snd init) = 15000000000 /\ itimes (snd init) = [] /\
               forall o, (INT_MIN <= sel2 (n_orbit (snd init)) o <= INT_MAX)%Z).
  { split; [reflexivity |]. split; [reflexivity |].
    intros [| o]; vm_compute; split; discriminate. }
  exact (f_equal
           (fun r : option walk =>
              match r with
              | Some w => Some (num_times w, rev (itimes w))
              | None => None
              end)
           (stuck_loop (C := Planar.collaborators)
              (Planar.circular 1, Planar.circular 2)
              (Fs4 (-1) 1 2 3, Fs4 (-1) 0 1 2) (fst (fst init)) (snd (fst init))
              15000000000 15000000040 8 eq_refl eq_refl eq_refl eq_refl
              0%nat (or_introl eq_refl) HP H1 H3 fuel (snd init) Hs)).
Qed.

(** C9 at the circular orbits of radius 1 and 2 over the window 0..40. *)
Lemma core_loops_terminate_witness :
  (forall (s0 s1 threshold target_distance : double) (max_steps : Z),
     (Z.of_nat (search_evaluations (C := Planar.collaborators)
                  (Planar.circular 1) (Planar.circular 2)
                  s0 s1 threshold target_distance max_steps) <= Z.max 0 max_steps)%Z) /\
  (exists fuel0 : nat,
     forall fuel : nat, (fuel0 <= fuel)%nat ->
     exists r,
       intercept_times (C := Planar.collaborators) fuel
         (Planar.circular 1) (Planar.circular 2) 0 40
         (Fs4 (-1) 1 2 3, Fs4 (-1) 0 1 2) 8 = Some r).
Proof.
  apply (core_loops_terminate (C := Planar.collaborators)
           (Planar.circular 1) (Planar.circular 2) 0 40
           (Fs4 (-1) 1 2 3, Fs4 (-1) 0 1 2) 8).
  - apply (planar_mean_motion_positive 1). reflexivity.
  - apply (planar_mean_motion_positive 2). reflexivity.
  - exact planar_counter_fits_1.
  - exact planar_counter_fits_2.
Defined.


(** The records of [intercept_orbit] at two nearby circular orbits: one
    record is accepted. *)
Lemma intercept_orbit_records_witness :
  exists n found calls,
    intercept_orbit (C := Planar.collaborators) 100
      (Planar.circular 1) (Planar.circular (21 # 20))
      (- (1 # 10)) 1 (1 # 5) 0 2 10 (Fs4 0 0 0 0, Fs4 0 0 0 0) = Some (n, found, calls) /\
    length found = 1%nat /\
    Forall (accepted (1 # 5)) found /\
    (Z.of_nat (length found) <= Z.max 0 2)%Z.
Proof.
  assert (H : match intercept_orbit (C := Planar.collaborators) 100
                      (Planar.circular 1) (Planar.circular (21 # 20))
                      (- (1 # 10)) 1 (1 # 5) 0 2 10 (Fs4 0 0 0 0, Fs4 0 0 0 0)
              with Some (_, found, _) => length found | None => 0%nat end = 1%nat)
    by (vm_compute; reflexivity).
  destruct (intercept_orbit (C := Planar.collaborators) 100
              (Planar.circular 1) (Planar.circular (21 # 20))
              (- (1 # 10)) 1 (1 # 5) 0 2 10 (Fs4 0 0 0 0, Fs4 0 0 0 0))
    as [[[n found] calls] |] eqn:E; [| discriminate H].
  exists n, found, calls. split; [reflexivity |]. split; [exact H |].
  exact (intercept_orbit_records (C := Planar.collaborators) 100
           (Planar.circular 1) (Planar.circular (21 # 20))
           (- (1 # 10)) 1 (1 # 5) 0 2 10 (Fs4 0 0 0 0, Fs4 0 0 0 0) n found calls E).
Defined.

(** The join within the tolerance, with the test double's [zero]
    (x * x < DBL_EPSILON). *)
Lemma intersect_ranges_joined_above_pi_witness :
  fst (intersect_ranges (C := Planar.collaborators) (full_range true)
         (Fs4 (- (3 # 5) * M_PI) ((2 # 5) * M_PI)
              ((2 # 5) * M_PI + (1 # 1000000000))
              ((7 # 5) * M_PI - (1 # 1000000000))) true) = 1%Z /\
  fs4_eq (snd (intersect_ranges (C := Planar.collaborators) (full_range true)
                 (Fs4 (- (3 # 5) * M_PI) ((2 # 5) * M_PI)
                      ((2 # 5) * M_PI + (1 # 1000000000))
                      ((7 # 5) * M_PI - (1 # 1000000000))) true))
         (Fs4 (- (3 # 5) * M_PI) ((7 # 5) * M_PI - (1 # 1000000000)) 1 (-1)) /\
  M_PI < f_1 (snd (intersect_ranges (C := Planar.collaborators) (full_range true)
                     (Fs4 (- (3 # 5) * M_PI) ((2 # 5) * M_PI)
                          ((2 # 5) * M_PI + (1 # 1000000000))
                          ((7 # 5) * M_PI - (1 # 1000000000))) true)).
Proof.
  apply (intersect_ranges_joined_above_pi (C := Planar.collaborators)
           planar_zero_proper); reflexivity.
Defined.

(** * The further properties at concrete inputs *)

Lemma planar_zero_below_pi : zero_below_pi (C := Planar.collaborators).
Proof.
  intros x H. cbn [zero Planar.collaborators] in H. unfold Planar.zero in H.
  apply Qltb_lt in H.
  assert (He : DBL_EPSILON < 1) by reflexivity.
  pose proof M_PI_gt_3 as Hpi.
  split; nra.
Qed.

(** The principal range at two sources of an orbit that is not closed. *)
Lemma intersect_ranges_open_within_pi_witness :
  within_pi (snd (intersect_ranges (C := Planar.collaborators)
                    (Fs4 (-2) (-1) 1 2) (Fs4 (-3) 0 (1 # 2) 3) false)).
Proof.
  pose proof M_PI_gt_3 as Hpi.
  apply (intersect_ranges_open_within_pi (C := Planar.collaborators)
           (Fs4 (-2) (-1) 1 2) (Fs4 (-3) 0 (1 # 2) 3));
    unfold within_pi; cbn [f_0 f_1 f_2 f_3]; repeat split; lra.
Defined.

(** A source without ranges against two ranges of a closed orbit. *)
Lemma intersect_ranges_no_ranges_witness :
  fst (intersect_ranges (C := Planar.collaborators)
         (Fs4 1 (-1) 1 (-1)) (Fs4 (-4) (-2) (-1) 1) true) = 0%Z /\
  fst (intersect_ranges (C := Planar.collaborators)
         (Fs4 (-4) (-2) (-1) 1) (Fs4 1 (-1) 1 (-1)) true) = 0%Z.
Proof.
  apply (intersect_ranges_no_ranges (C := Planar.collaborators)
           (Fs4 1 (-1) 1 (-1)) (Fs4 (-4) (-2) (-1) 1) true planar_zero_below_pi).
  split; cbn [f_0 f_1 f_2 f_3]; discriminate.
Defined.

(** The ranges -2..1 and -1..2 of a closed orbit meet in -1..1. *)
Lemma intersect_ranges_single_witness :
  intersect_ranges (C := Planar.collaborators)
    (Fs4 (-2) 1 1 (-1)) (Fs4 (-1) 2 1 (-1)) true = (1%Z, Fs4 (-1) 1 1 (-1)).
Proof.
  apply (intersect_ranges_single (C := Planar.collaborators)
           (Fs4 (-2) 1 1 (-1)) (Fs4 (-1) 2 1 (-1)) true).
  - discriminate.
  - discriminate.
  - intros _ [[H | H] _].
    + apply Qle_not_lt in H. apply H. reflexivity.
    + discriminate H.
  - reflexivity.
Defined.

(** Circular orbits of radius 1 and 2 with the threshold 1/10. *)
Lemma intercept_intersect_bands_apart_witness :
  intercept_intersect (C := Planar.collaborators)
    (Planar.circular 1) (Planar.circular 2) (1 # 10) (Fs4 7 8 9 10)
    = (0%Z, Fs4 7 8 9 10) /\
  intercept_intersect (C := Planar.collaborators)
    (Planar.circular 2) (Planar.circular 1) (1 # 10) (Fs4 7 8 9 10)
    = (0%Z, Fs4 7 8 9 10).
Proof.
  apply (intercept_intersect_bands_apart (C := Planar.collaborators)
           (Planar.circular 1) (Planar.circular 2) (1 # 10) (Fs4 7 8 9 10)).
  left. split; [reflexivity | vm_compute; discriminate].
Defined.

(** Circular orbits of radius 1 and 21/20 in one plane, threshold 1/5. *)
Lemma intercept_intersect_circular_coplanar_witness :
  intercept_intersect (C := Planar.collaborators)
    (Planar.circular 1) (Planar.circular (21 # 20)) (1 # 5) (Fs4 0 0 0 0)
    = (1%Z, Fs4 (- M_PI) M_PI 1 (-1)).
Proof.
  apply (intercept_intersect_circular_coplanar (C := Planar.collaborators)
           (Planar.circular 1) (Planar.circular (21 # 20)) (1 # 5) (Fs4 0 0 0 0)).
  - reflexivity.
  - reflexivity.
  - intros [[_ H] | [_ H]]; apply Qle_not_lt in H; apply H; vm_compute; reflexivity.
  - reflexivity.
  - reflexivity.
  - apply Qle_refl.
  - reflexivity.
  - reflexivity.
Defined.

(** An empty window: t0 = t1 = 5. *)
Lemma intercept_times_nothing_to_do_witness :
  intercept_times (C := Planar.collaborators) 0
    (Planar.circular 1) (Planar.circular 2) 5 5
    (Fs4 (-1) 1 2 3, Fs4 (-1) 0 1 2) 8 = Some (0%Z, []).
Proof.
  apply (intercept_times_nothing_to_do (C := Planar.collaborators) 0
           (Planar.circular 1) (Planar.circular 2) 5 5
           (Fs4 (-1) 1 2 3, Fs4 (-1) 0 1 2) 8).
  left. apply Qle_refl.
Defined.


(** The seven intervals of two circular orbits of radius 1 and 2 over the
    window 0..40. *)
Lemma intercept_times_gaps_witness :
  exists n ivs,
    intercept_times (C := Planar.collaborators) 100
      (Planar.circular 1) (Planar.circular 2) 0 40
      (Fs4 (-1) 1 2 3, Fs4 (-1) 0 1 2) 8 = Some (n, ivs) /\
    length ivs = 7%nat /\
    gaps_beyond_tolerance (C := Planar.collaborators) ivs.
Proof.
  assert (H : match intercept_times (C := Planar.collaborators) 100
                      (Planar.circular 1) (Planar.circular 2) 0 40
                      (Fs4 (-1) 1 2 3, Fs4 (-1) 0 1 2) 8
              with Some (_, ivs) => length ivs | None => 0%nat end = 7%nat)
    by (vm_compute; reflexivity).
  destruct (intercept_times (C := Planar.collaborators) 100
              (Planar.circular 1) (Planar.circular 2) 0 40
              (Fs4 (-1) 1 2 3, Fs4 (-1) 0 1 2) 8) as [[n ivs] |] eqn:E;
    [| discriminate H].
  exists n, ivs. split; [reflexivity |]. split; [exact H |].
  exact (intercept_times_gaps (C := Planar.collaborators) 100
           (Planar.circular 1) (Planar.circular 2) 0 40
           (Fs4 (-1) 1 2 3, Fs4 (-1) 0 1 2) 8 n ivs E).
Defined.

(** A circular orbit of radius 2 (period 4pi) at t0 = 10: the walk starts
    from period 1, whose periapsis passage at 4pi is within a period of
    t0. *)
Lemma orbit_times_period_near_t0_witness :
  snd (orbit_times (C := Planar.collaborators) 1 10 40 (Planar.circular 2)
         (Fs4 (-1) 0 1 2)) = 1%Z /\
  let P := snd (fst (orbit_times (C := Planar.collaborators) 1 10 40
                       (Planar.circular 2) (Fs4 (-1) 0 1 2))) in
  let k := snd (orbit_times (C := Planar.collaborators) 1 10 40
                  (Planar.circular 2) (Fs4 (-1) 0 1 2)) in
  0 < P /\
  Qabs (10 - (@orbit_periapsis_time Planar.collaborators (Planar.circular 2)
              + of_int k * P)) <= P.
Proof.
  split; [vm_compute; reflexivity |].
  apply (orbit_times_period_near_t0 (C := Planar.collaborators) 1 10 40
           (Planar.circular 2) (Fs4 (-1) 0 1 2)).
  - reflexivity.
  - apply (planar_mean_motion_positive 2). reflexivity.
  - vm_compute. discriminate.
Defined.

(** Two orbits of eccentricity 3/2 and 2, which [orbit_elliptic] rejects,
    over the window 0..40: three passes are enough. *)
Lemma intercept_times_open_orbits_witness :
  exists (n : Z) (ivs : list (double * double)),
    intercept_times (C := Planar.collaborators) 3
      (Planar.conic 2 (3 # 2)) (Planar.conic 3 2) 0 40
      (Fs4 (-1) 1 2 3, Fs4 (-1) 0 1 2) 8 = Some (n, ivs) /\
    (length ivs <= 3)%nat.
Proof.
  apply (intercept_times_open_orbits (C := Planar.collaborators) 3
           (Planar.conic 2 (3 # 2)) (Planar.conic 3 2) 0 40
           (Fs4 (-1) 1 2 3, Fs4 (-1) 0 1 2) 8).
  - reflexivity.
  - reflexivity.
  - apply le_n.
Defined.

(** The record of a search on two nearby circular orbits. *)
Lemma intercept_search_record_consistent_witness :
  let r := snd (intercept_search (C := Planar.collaborators)
                  (Planar.circular 1) (Planar.circular (21 # 20))
                  (- (1 # 10)) 1 (1 # 5) 0 10) in
  position r = (@orbit_position_eccentric Planar.collaborators (Planar.circular 1) (E1 r),
                @orbit_position_eccentric Planar.collaborators
                  (Planar.circular (21 # 20)) (E2 r)) /\
  velocity r = (@orbit_velocity_eccentric Planar.collaborators (Planar.circular 1) (E1 r),
                @orbit_velocity_eccentric Planar.collaborators
                  (Planar.circular (21 # 20)) (E2 r)) /\
  relative_position r = vsub (snd (position r)) (fst (position r)) /\
  relative_velocity r = vsub (snd (velocity r)) (fst (velocity r)) /\
  distance r = Some (@mag Planar.collaborators (relative_position r)) /\
  ~ @mag Planar.collaborators (relative_position r) == 0 /\
  speed r = Some (@dot Planar.collaborators (relative_position r) (relative_velocity r) /
                  @mag Planar.collaborators (relative_position r)).
Proof.
  assert (Hd : ~ @mag Planar.collaborators
                   (relative_position
                      (snd (intercept_search (C := Planar.collaborators)
                              (Planar.circular 1) (Planar.circular (21 # 20))
                              (- (1 # 10)) 1 (1 # 5) 0 10))) == 0)
    by (vm_compute; discriminate).
  destruct (intercept_search_record_consistent (C := Planar.collaborators)
              (Planar.circular 1) (Planar.circular (21 # 20)) (- (1 # 10)) 1 (1 # 5) 0 10
              eq_refl) as (H1 & H2 & H3 & H4 & H5 & H6).
  exact (conj H1 (conj H2 (conj H3 (conj H4 (conj H5 (conj Hd (H6 Hd))))))).
Defined.

(** The same search leaves its loop in the first pass of ten. *)
Lemma intercept_search_state_at_time_witness :
  let r := snd (intercept_search (C := Planar.collaborators)
                  (Planar.circular 1) (Planar.circular (21 # 20))
                  (- (1 # 10)) 1 (1 # 5) 0 10) in
  E1 r = eccentric_anomaly_at (C := Planar.collaborators) 1 (Planar.circular 1) (time r) /\
  E2 r = eccentric_anomaly_at (C := Planar.collaborators) 1
           (Planar.circular (21 # 20)) (time r).
Proof.
  apply (intercept_search_state_at_time (C := Planar.collaborators)
           (Planar.circular 1) (Planar.circular (21 # 20)) (- (1 # 10)) 1 (1 # 5) 0 10).
  vm_compute. reflexivity.
Defined.

(** Two distant circular orbits over the window 0..40, five steps. *)
Lemma intercept_search_time_from_t0_witness :
  0 <= time (snd (intercept_search (C := Planar.collaborators)
                    (Planar.circular 1) (Planar.circular 2) 0 40 (1 # 10) 0 5)).
Proof.
  apply (intercept_search_time_from_t0 (C := Planar.collaborators)
           (Planar.circular 1) (Planar.circular 2) 0 40 (1 # 10) 0 5);
    discriminate.
Defined.

(** A search with max_steps = 0. *)
Lemma intercept_search_no_steps_witness :
  let r := intercept_search (C := Planar.collaborators)
             (Planar.circular 1) (Planar.circular (21 # 20))
             (- (1 # 10)) 1 (1 # 5) 0 0 in
  fst r = 1 /\ time (snd r) = - (1 # 10) /\
  distance (snd r) = None /\ speed (snd r) = None /\
  search_evaluations (C := Planar.collaborators)
    (Planar.circular 1) (Planar.circular (21 # 20)) (- (1 # 10)) 1 (1 # 5) 0 0 = 0%nat.
Proof.
  apply (intercept_search_no_steps (C := Planar.collaborators)
           (Planar.circular 1) (Planar.circular (21 # 20)) (- (1 # 10)) 1 (1 # 5) 0 0).
  discriminate.
Defined.

(** The orchestrator on two nearby circular orbits with max_steps = 0. *)
Lemma intercept_orbit_no_steps_witness :
  exists n found calls,
    intercept_orbit (C := Planar.collaborators) 100
      (Planar.circular 1) (Planar.circular (21 # 20))
      (- (1 # 10)) 1 (1 # 5) 0 2 0 (Fs4 0 0 0 0, Fs4 0 0 0 0) = Some (n, found, calls) /\
    length calls = 4%nat /\
    found = [].
Proof.
  assert (H : match intercept_orbit (C := Planar.collaborators) 100
                      (Planar.circular 1) (Planar.circular (21 # 20))
                      (- (1 # 10)) 1 (1 # 5) 0 2 0 (Fs4 0 0 0 0, Fs4 0 0 0 0)
              with Some (_, _, calls) => length calls | None => 0%nat end = 4%nat)
    by (vm_compute; reflexivity).
  destruct (intercept_orbit (C := Planar.collaborators) 100
              (Planar.circular 1) (Planar.circular (21 # 20))
              (- (1 # 10)) 1 (1 # 5) 0 2 0 (Fs4 0 0 0 0, Fs4 0 0 0 0))
    as [[[n found] calls] |] eqn:E; [| discriminate H].
  exists n, found, calls. split; [reflexivity |]. split; [exact H |].
  apply (intercept_orbit_no_steps (C := Planar.collaborators) 100
           (Planar.circular 1) (Planar.circular (21 # 20))
           (- (1 # 10)) 1 (1 # 5) 0 2 0 (Fs4 0 0 0 0, Fs4 0 0 0 0) n found calls);
    [discriminate | exact E].
Defined.

(** The orchestrator on two nearby circular orbits: one interval, one
    search, one record. *)
Lemma intercept_orbit_searches_witness :
  exists n ts found calls times,
    intercept_orbit (C := Planar.collaborators) 100
      (Planar.circular 1) (Planar.circular (21 # 20))
      (- (1 # 10)) 1 (1 # 5) 0 2 10 (Fs4 0 0 0 0, Fs4 0 0 0 0) = Some (n, found, calls) /\
    intercept_times (C := Planar.collaborators) 100
      (Planar.circular 1) (Planar.circular (21 # 20)) (- (1 # 10)) 1
      (snd (intercept_intersect (C := Planar.collaborators)
              (Planar.circular 1) (Planar.circular (21 # 20)) (1 # 5) (Fs4 0 0 0 0)),
       snd (intercept_intersect (C := Planar.collaborators)
              (Planar.circular 1) (Planar.circular (21 # 20)) (1 # 5) (Fs4 0 0 0 0)))
      (4 * 2) = Some (ts, times) /\
    length found = 1%nat /\
    let searches := filter (is_search (C := Planar.collaborators)) calls in
    (length found <= length searches)%nat /\
    exists k : nat,
      searches = map (search_on (C := Planar.collaborators)
                        (Planar.circular 1) (Planar.circular (21 # 20)))
                     (firstn k (filter nonempty_interval times)).
Proof.
  assert (H : match intercept_orbit (C := Planar.collaborators) 100
                      (Planar.circular 1) (Planar.circular (21 # 20))
                      (- (1 # 10)) 1 (1 # 5) 0 2 10 (Fs4 0 0 0 0, Fs4 0 0 0 0)
              with Some (_, found, _) => length found | None => 0%nat end = 1%nat)
    by (vm_compute; reflexivity).
  assert (G : match intercept_times (C := Planar.collaborators) 100
                      (Planar.circular 1) (Planar.circular (21 # 20)) (- (1 # 10)) 1
                      (snd (intercept_intersect (C := Planar.collaborators)
                              (Planar.circular 1) (Planar.circular (21 # 20)) (1 # 5)
                              (Fs4 0 0 0 0)),
                       snd (intercept_intersect (C := Planar.collaborators)
                              (Planar.circular 1) (Planar.circular (21 # 20)) (1 # 5)
                              (Fs4 0 0 0 0)))
                      (4 * 2)
              with Some _ => true | None => false end = true)
    by (vm_compute; reflexivity).
  destruct (intercept_orbit (C := Planar.collaborators) 100
              (Planar.circular 1) (Planar.circular (21 # 20))
              (- (1 # 10)) 1 (1 # 5) 0 2 10 (Fs4 0 0 0 0, Fs4 0 0 0 0))
    as [[[n found] calls] |] eqn:E; [| discriminate H].
  destruct (intercept_times (C := Planar.collaborators) 100
              (Planar.circular 1) (Planar.circular (21 # 20)) (- (1 # 10)) 1
              (snd (intercept_intersect (C := Planar.collaborators)
                      (Planar.circular 1) (Planar.circular (21 # 20)) (1 # 5)
                      (Fs4 0 0 0 0)),
               snd (intercept_intersect (C := Planar.collaborators)
                      (Planar.circular 1) (Planar.circular (21 # 20)) (1 # 5)
                      (Fs4 0 0 0 0)))
              (4 * 2)) as [[ts times] |] eqn:F; [| discriminate G].
  exists n, ts, found, calls, times.
  split; [reflexivity |]. split; [reflexivity |]. split; [exact H |].
  exact (intercept_orbit_searches (C := Planar.collaborators) 100
           (Planar.circular 1) (Planar.circular (21 # 20))
           (- (1 # 10)) 1 (1 # 5) 0 2 10 (Fs4 0 0 0 0, Fs4 0 0 0 0)
           n ts found calls times E F).
Defined.

(** The orchestrator on an empty window: t0 = t1 = 5. *)
Lemma intercept_orbit_empty_window_witness :
  exists (n : Z) (calls : list call),
    intercept_orbit (C := Planar.collaborators) 0
      (Planar.circular 1) (Planar.circular (21 # 20))
      5 5 (1 # 5) 0 2 10 (Fs4 0 0 0 0, Fs4 0 0 0 0) = Some (n, [], calls) /\
    filter is_search calls = [].
Proof.
  apply (intercept_orbit_empty_window (C := Planar.collaborators) 0
           (Planar.circular 1) (Planar.circular (21 # 20))
           5 5 (1 # 5) 0 2 10 (Fs4 0 0 0 0, Fs4 0 0 0 0)).
  apply Qle_refl.
Defined.

(** One range -2..1 against the two ranges -3..-1 and 0..2 of an orbit that
    is not closed: the result holds -2..-1 and 0..1, and 1/2 lies in it. *)
Lemma intersect_ranges_open_covers_witness :
  fst (intersect_ranges (C := Planar.collaborators)
         (Fs4 (-2) 1 1 (-1)) (Fs4 (-3) (-1) 0 2) false) = 2%Z /\
  (in_ranges (snd (intersect_ranges (C := Planar.collaborators)
                     (Fs4 (-2) 1 1 (-1)) (Fs4 (-3) (-1) 0 2) false)) (1 # 2) <->
   in_ranges (overlap (Fs4 (-2) 1 1 (-1)) (Fs4 (-3) (-1) 0 2)) (1 # 2)) /\
  (in_ranges (snd (intersect_ranges (C := Planar.collaborators)
                     (Fs4 (-2) 1 1 (-1)) (Fs4 (-3) (-1) 0 2) false)) (1 # 2) ->
   in_ranges (Fs4 (-2) 1 1 (-1)) (1 # 2) /\ in_ranges (Fs4 (-3) (-1) 0 2) (1 # 2)).
Proof.
  pose proof M_PI_gt_3 as Hpi.
  split; [vm_compute; reflexivity |].
  apply (intersect_ranges_open_covers (C := Planar.collaborators)
           (Fs4 (-2) 1 1 (-1)) (Fs4 (-3) (-1) 0 2) (1 # 2)).
  - unfold within_pi; cbn [f_0 f_1 f_2 f_3]; repeat split; lra.
  - unfold within_pi; cbn [f_0 f_1 f_2 f_3]; repeat split; lra.
  - unfold sorted_ranges; cbn [f_0 f_1 f_2 f_3]; lra.
  - unfold sorted_ranges; cbn [f_0 f_1 f_2 f_3]; lra.
  - intros _. vm_compute. reflexivity.
  - intro H. vm_compute in H. destruct (H eq_refl).
  - intro H. vm_compute in H. destruct (H eq_refl).
Defined.

(** The search on two nearby circular orbits stops in its first pass, below
    the threshold. *)
Lemma intercept_search_early_exit_witness :
  let r := snd (intercept_search (C := Planar.collaborators)
                  (Planar.circular 1) (Planar.circular (21 # 20))
                  (- (1 # 10)) 1 (1 # 5) 0 10) in
  exists d,
    distance r = Some d /\
    (@zero Planar.collaborators
       (@square Planar.collaborators (d - fmax 0 0) /
        @square Planar.collaborators (1 # 5)) = true \/
     d < 1 # 5 \/ 1 < time r).
Proof.
  apply (intercept_search_early_exit (C := Planar.collaborators)
           (Planar.circular 1) (Planar.circular (21 # 20)) (- (1 # 10)) 1 (1 # 5) 0 10).
  vm_compute. reflexivity.
Defined.

(** An elliptic orbit (p = 3/2, e = 1/2) and a circular one of radius 5/2,
    threshold 3/10, over the window 0..100 with room for one intercept:
    the walk writes four intervals, eight doubles, into an array of
    four. *)
Lemma intercept_orbit_times_overflow_witness :
  (exists times,
     intercept_times (C := Planar.collaborators) 100
       (Planar.conic (3 # 2) (1 # 2)) (Planar.circular (5 # 2)) 0 100
       (snd (intercept_intersect (C := Planar.collaborators)
               (Planar.conic (3 # 2) (1 # 2)) (Planar.circular (5 # 2)) (3 # 10)
               (Fs4 0 0 0 0)),
        snd (intercept_intersect (C := Planar.collaborators)
               (Planar.conic (3 # 2) (1 # 2)) (Planar.circular (5 # 2)) (3 # 10)
               (Fs4 0 0 0 0)))
       (4 * 1) = Some (4%Z, times)) /\
  intercept_orbit (C := Planar.collaborators) 100
    (Planar.conic (3 # 2) (1 # 2)) (Planar.circular (5 # 2)) 0 100 (3 # 10) 0 1 10
    (Fs4 0 0 0 0, Fs4 0 0 0 0) = None.
Proof.
  assert (H : match intercept_times (C := Planar.collaborators) 100
                      (Planar.conic (3 # 2) (1 # 2)) (Planar.circular (5 # 2)) 0 100
                      (snd (intercept_intersect (C := Planar.collaborators)
                              (Planar.conic (3 # 2) (1 # 2)) (Planar.circular (5 # 2))
                              (3 # 10) (Fs4 0 0 0 0)),
                       snd (intercept_intersect (C := Planar.collaborators)
                              (Planar.conic (3 # 2) (1 # 2)) (Planar.circular (5 # 2))
                              (3 # 10) (Fs4 0 0 0 0)))
                      (4 * 1)
              with Some (ts, _) => ts | None => 0%Z end = 4%Z)
    by (vm_compute; reflexivity).
  destruct (intercept_times (C := Planar.collaborators) 100
              (Planar.conic (3 # 2) (1 # 2)) (Planar.circular (5 # 2)) 0 100
              (snd (intercept_intersect (C := Planar.collaborators)
                      (Planar.conic (3 # 2) (1 # 2)) (Planar.circular (5 # 2))
                      (3 # 10) (Fs4 0 0 0 0)),
               snd (intercept_intersect (C := Planar.collaborators)
                      (Planar.conic (3 # 2) (1 # 2)) (Planar.circular (5 # 2))
                      (3 # 10) (Fs4 0 0 0 0)))
              (4 * 1)) as [[ts times] |] eqn:E; [| discriminate H].
  subst ts. split; [exists times; reflexivity |].
  apply (intercept_orbit_times_overflow (C := Planar.collaborators) 100
           (Planar.conic (3 # 2) (1 # 2)) (Planar.circular (5 # 2)) 0 100 (3 # 10) 0 1 10
           (Fs4 0 0 0 0, Fs4 0 0 0 0) 4 times).
  - vm_compute. discriminate.
  - vm_compute. discriminate.
  - exact E.
  - discriminate.
  - reflexivity.
Defined.
